(** * Collision resolver and object lifecycle of the scene engine

    A shallow embedding of [src/engine/mesh.h] (vector kernel, shape
    variants, [detectCollision], drawing) and of [src/object.h] (entity
    tree, [update], [draw], deferred destruction), with the properties
    the specification states about them and further properties of the
    code.

    C++ [double] is IEEE-754 binary64; it is modelled by Rocq's primitive
    [float], whose operations are the same binary64 operations. *)

From Stdlib Require Import Floats ZArith List Bool String Lia.
From stdpp Require Import relations gmap.

#[global] Set Warnings "-clear-no-such-hyp,-register-all".

(** ** The vector kernel of [Engine::Mesh] *)

Module Mesh.

Local Open Scope float_scope.

(** Every [std::valarray<double>] of the program is built from three
    components ([{x, y, z}] initialisers or a [std::array<double, 3>]);
    arithmetic on valarrays is component-wise. *)
Record vec : Set := Vec { vx : float; vy : float; vz : float }.

Definition vadd (a b : vec) : vec := Vec (vx a + vx b) (vy a + vy b) (vz a + vz b).
Definition vsub (a b : vec) : vec := Vec (vx a - vx b) (vy a - vy b) (vz a - vz b).
Definition vmul (a b : vec) : vec := Vec (vx a * vx b) (vy a * vy b) (vz a * vz b).
(** [k * v] and [v * k] with a scalar [k]. *)
Definition vscale (k : float) (a : vec) : vec := Vec (k * vx a) (k * vy a) (k * vz a).
Definition vscale_r (a : vec) (k : float) : vec := Vec (vx a * k) (vy a * k) (vz a * k).
(** [sum()].  Every sum of the header is taken on an expression
    ([(a * b).sum()]), not on a [valarray]; libstdc++ adds the components
    of an expression from the last to the first.  The standard leaves
    the order open, and with it the rounding of the sum. *)
Definition vsum (a : vec) : float := vz a + vy a + vx a.

(** A [double] used as a condition is true when it differs from zero
    (a NaN is true, a negative zero is false). *)
Definition truthy (d : float) : bool := negb (d =? 0).

Definition zero (v : vec) : bool :=
  if truthy (vx v) then false
  else if truthy (vy v) then false
  else if truthy (vz v) then false
  else true.

Definition dot (ray_1 ray_2 : vec) : float := vsum (vmul ray_1 ray_2).

Definition clamp (value min_value max_value : float) : float :=
  if max_value <? value then max_value
  else if value <? min_value then min_value
  else value.

Definition cross (ray_1 ray_2 : vec) : vec :=
  Vec (vy ray_1 * vz ray_2 - vy ray_2 * vz ray_1)
      (vz ray_1 * vx ray_2 - vz ray_2 * vx ray_1)
      (vx ray_1 * vy ray_2 - vx ray_2 * vy ray_1).

Definition norm2 (ray : vec) : float := dot ray ray.
Definition norm (ray : vec) : float := sqrt (norm2 ray).

Definition resize3 (ray : vec) (vector_size new_size : float) : vec :=
  vscale_r ray (new_size / vector_size).
Definition resize (ray : vec) (new_size : float) : vec :=
  resize3 ray (norm ray) new_size.

Definition distance (point_1 point_2 : vec) : float := norm (vsub point_1 point_2).

Definition areaTriangle2D (tri_point_1 tri_point_2 tri_point_3 : vec) : float :=
  abs ((vx tri_point_1 * (vy tri_point_2 - vy tri_point_3)
        + vx tri_point_2 * (vy tri_point_3 - vy tri_point_1)
        + vx tri_point_3 * (vy tri_point_1 - vy tri_point_2)) * 0.5).

Definition areaRectangle2D (rect_top_left rect_bottom_left rect_bottom_right : vec) : float :=
  norm (vsub rect_bottom_left rect_top_left) * norm (vsub rect_bottom_right rect_bottom_left).

Definition edgesRectangle2D (rect_top_left rect_bottom_left rect_bottom_right rect_top_right : vec)
  : list (vec * vec) :=
  [ (rect_top_left, rect_bottom_left);
    (rect_bottom_left, rect_bottom_right);
    (rect_bottom_right, rect_top_right);
    (rect_top_right, rect_top_left) ].

Definition edgesTriangle2D (tri_point_1 tri_point_2 tri_point_3 : vec) : list (vec * vec) :=
  [ (tri_point_1, tri_point_2);
    (tri_point_2, tri_point_3);
    (tri_point_3, tri_point_1) ].

(** [parametricEquation]: the start of the ray and its direction. *)
Definition parametricEquation (ray_start ray_end : vec) : vec * vec :=
  (ray_start, vsub ray_end ray_start).

(** The enumeration [Mesh::Axis]. *)
Inductive Axis : Set := AXIS_X | AXIS_Y | AXIS_Z.

(** [distanceRayToPoint]: the returned distance, paired with the value of
    the reference parameter [near_point] after the call. *)
Definition distanceRayToPoint (ray_start ray_end point near_point : vec) (infinite : bool)
  : float * vec :=
  let delta_ray := vsub ray_end ray_start in
  let length_pow := norm2 delta_ray in
  if length_pow =? 0 then (distance point ray_start, near_point)
  else
    let param := vsum (vmul (vsub point ray_start) delta_ray) / length_pow in
    let param := if negb infinite then clamp param 0 1 else param in
    let near_point := vadd ray_start (vscale param delta_ray) in
    (distance point near_point, near_point).

(** The same routine with its one division guarded: [None] stands for a
    division whose divisor compares equal to zero. *)
Definition checked_div (a b : float) : option float :=
  if b =? 0 then None else Some (a / b).

Definition distanceRayToPoint_checked (ray_start ray_end point near_point : vec) (infinite : bool)
  : option (float * vec) :=
  let delta_ray := vsub ray_end ray_start in
  let length_pow := norm2 delta_ray in
  if length_pow =? 0 then Some (distance point ray_start, near_point)
  else
    match checked_div (vsum (vmul (vsub point ray_start) delta_ray)) length_pow with
    | None => None
    | Some param =>
        let param := if negb infinite then clamp param 0 1 else param in
        let near_point := vadd ray_start (vscale param delta_ray) in
        Some (distance point near_point, near_point)
    end.

Definition collisionSpheres (position_1 : vec) (radius_1 : float)
                            (position_2 : vec) (radius_2 : float) : bool :=
  distance position_1 position_2 <=? radius_1 + radius_2.

Definition collisionRaySphere (ray_start ray_end circle_center : vec) (circle_radius : float)
                              (near_point : vec) (infinite : bool) : bool * vec :=
  let '(d, near_point) := distanceRayToPoint ray_start ray_end circle_center near_point infinite in
  (d <=? circle_radius, near_point).

(** *** What the header takes from elsewhere

    [mesh.h] calls the C math library and two collision helpers that it
    only declares ([collisionPointRectangle2D], [collisionRectangles2D]).
    They are the fields of an [Extern]; the embedding is parametric in it.
    The expressions that involve the [long double] constant [DEG90] are
    fields of their own, each with the rounding to [double] the source
    applies to it. *)
Record Extern : Type := {
  cos : float -> float;
  sin : float -> float;
  atan2 : float -> float -> float;
  (** [static_cast<double>(std::cos(angle + DEG90))] *)
  cos_add_DEG90 : float -> float;
  (** [static_cast<double>(std::sin(angle + DEG90))] *)
  sin_add_DEG90 : float -> float;
  (** [const double height_angle = angle - DEG90] *)
  sub_DEG90 : float -> float;
  (** arguments in the order of the declaration:
      [point, rect_top_left, rect_bottom_left, rect_bottom_right, rect_top_right] *)
  collisionPointRectangle2D : vec -> vec -> vec -> vec -> vec -> bool;
  (** the four corners of each rectangle; the second component is what
      the call writes to its output parameter [near_point], if anything *)
  collisionRectangles2D :
    vec -> vec -> vec -> vec -> vec -> vec -> vec -> vec -> bool * option vec
}.

(** *** Shapes *)

(** The classes [Mesh], [Rectangle2D], [Polygon2D] and [Sphere2D] with
    their data members.  The child meshes of a [Mesh] only matter to
    [draw] and are left out. *)
Inductive Mesh : Type :=
| Generic (position : vec)
| Rectangle2D (position : vec) (width height angle : float)
              (top_right bottom_left bottom_right : vec)
| Polygon2D (position : vec) (radius angle : float) (sides : Z)
| Sphere2D (position : vec) (radius angle : float) (sides : Z).

Definition getPosition (m : Mesh) : vec :=
  match m with
  | Generic p | Rectangle2D p _ _ _ _ _ _ | Polygon2D p _ _ _ | Sphere2D p _ _ _ => p
  end.

Definition getType (m : Mesh) : string :=
  match m with
  | Generic _ => "mesh"
  | Rectangle2D _ _ _ _ _ _ _ => "rectangle2d"
  | Polygon2D _ _ _ _ => "polygon2d"
  | Sphere2D _ _ _ _ => "sphere2d"
  end%string.

(** Accessors of [Rectangle2D] and [Polygon2D], as reached through the
    [static_cast]s of the source (which follow a test of [getType]). *)
Definition getTopLeftPosition (m : Mesh) : vec := getPosition m.
Definition getTopRightPosition (m : Mesh) : vec :=
  match m with Rectangle2D _ _ _ _ tr _ _ => tr | _ => getPosition m end.
Definition getBottomLeftPosition (m : Mesh) : vec :=
  match m with Rectangle2D _ _ _ _ _ bl _ => bl | _ => getPosition m end.
Definition getBottomRightPosition (m : Mesh) : vec :=
  match m with Rectangle2D _ _ _ _ _ _ br => br | _ => getPosition m end.
Definition getRadius (m : Mesh) : float :=
  match m with Polygon2D _ r _ _ | Sphere2D _ r _ _ => r | _ => 0 end.

(** What the detection leaves behind besides its result: the points it
    writes through [point], the swept shapes it asks for and the lines
    it prints. *)
Inductive Event : Type :=
| EvSpace (owner : Mesh) (speed : vec) (space : option Mesh)
| EvFirstCase (this_type other_type : string)
| EvSecondCase (this_type other_type : string).

Record St : Type := { point : vec; trace : list Event }.

Definition set_point (p : vec) (s : St) : St := {| point := p; trace := trace s |}.
Definition emit (e : Event) (s : St) : St := {| point := point s; trace := trace s ++ [e] |}.

(** The calls that drawing makes on OpenGL and on the [Background]. *)
Inductive GlMode : Set := GL_LINE_LOOP | GL_TRIANGLE_FAN.

Inductive GlCall : Set :=
| glBegin (mode : GlMode)
| Background_apply (background : N)
| glVertex3d (x y z : float)
| glEnd.

(** A mesh together with the child meshes that [addChild] has pushed
    onto its vector, in their order. *)
Inductive Tree : Type := Node (shape : Mesh) (children : list Tree).

Definition Mesh_addChild (child : Tree) (this : Tree) : Tree :=
  match this with Node shape children => Node shape (children ++ [child]) end.

Definition getSides (this : Mesh) : Z :=
  match this with Polygon2D _ _ _ n | Sphere2D _ _ _ n => n | _ => 0%Z end.

(** The conversion of an [int] to [double], which is exact. *)
Definition double_of_int (i : Z) : float :=
  if (i <? 0)%Z then - of_uint63 (Uint63.of_Z (- i)) else of_uint63 (Uint63.of_Z i).

Section WithExtern.

Variable E : Extern.

(** The constructor of [Rectangle2D], which ends in [updatePositions]. *)
Definition new_Rectangle2D (_position : vec) (_width _height _angle : float) : Mesh :=
  let height_angle := sub_DEG90 E _angle in
  let delta_height :=
    Vec (_height * cos E height_angle) (_height * sin E height_angle) 0 in
  let top_right :=
    vadd _position (Vec (_width * cos E _angle) (_width * sin E _angle) 0) in
  let bottom_left := vadd _position delta_height in
  let bottom_right := vadd top_right delta_height in
  Rectangle2D _position _width _height _angle top_right bottom_left bottom_right.

Definition new_Polygon2D (_position : vec) (_radius : float) (_sides : Z) (_angle : float) : Mesh :=
  Polygon2D _position _radius _angle _sides.

Definition new_Sphere2D (_position : vec) (_radius : float) : Mesh :=
  Sphere2D _position _radius 0 100.

(** [rotate]: a zero angle (of either sign) gives the ray back without
    a call of the math library. *)
Definition rotate (ray : vec) (angle : float) (axis : Axis) : vec :=
  if angle =? 0 then ray
  else
    let sin_angle := sin E angle in
    let cos_angle := cos E angle in
    match axis with
    | AXIS_X =>
        Vec (vx ray)
            (cos_angle * vy ray - sin_angle * vz ray)
            (sin_angle * vy ray + cos_angle * vz ray)
    | AXIS_Y =>
        Vec (cos_angle * vx ray + sin_angle * vz ray)
            (vy ray)
            (cos_angle * vz ray - sin_angle * vx ray)
    | AXIS_Z =>
        Vec (cos_angle * vx ray - sin_angle * vy ray)
            (sin_angle * vx ray + cos_angle * vy ray)
            (vz ray)
    end.

(** [Mesh::setPosition].  It is not virtual: this is the member a caller
    reaches through a [Mesh *] or a [Mesh &], whatever the class of the
    object. *)
Definition Mesh_setPosition (_position : vec) (this : Mesh) : Mesh :=
  match this with
  | Generic _ => Generic _position
  | Rectangle2D _ w h a tr bl br => Rectangle2D _position w h a tr bl br
  | Polygon2D _ r a n => Polygon2D _position r a n
  | Sphere2D _ r a n => Sphere2D _position r a n
  end.

(** [Rectangle2D::updatePositions]: the three cached corners are computed
    again from the position, the sizes and the angle. *)
Definition updatePositions (this : Mesh) : Mesh :=
  match this with
  | Rectangle2D p w h a _ _ _ =>
      let height_angle := sub_DEG90 E a in
      let delta_height := Vec (h * cos E height_angle) (h * sin E height_angle) 0 in
      let top_right := vadd p (Vec (w * cos E a) (w * sin E a) 0) in
      let bottom_left := vadd p delta_height in
      let bottom_right := vadd top_right delta_height in
      Rectangle2D p w h a top_right bottom_left bottom_right
  | _ => this
  end.

(** The accessors and the setters of [Rectangle2D]. *)
Definition getWidth (this : Mesh) : float :=
  match this with Rectangle2D _ w _ _ _ _ _ => w | _ => 0 end.
Definition getHeight (this : Mesh) : float :=
  match this with Rectangle2D _ _ h _ _ _ _ => h | _ => 0 end.
Definition getAngle (this : Mesh) : float :=
  match this with
  | Rectangle2D _ _ _ a _ _ _ | Polygon2D _ _ a _ | Sphere2D _ _ a _ => a
  | _ => 0
  end.

Definition setWidth (_width : float) (this : Mesh) : Mesh :=
  match this with
  | Rectangle2D p _ h a tr bl br => updatePositions (Rectangle2D p _width h a tr bl br)
  | _ => this
  end.
Definition setHeight (_height : float) (this : Mesh) : Mesh :=
  match this with
  | Rectangle2D p w _ a tr bl br => updatePositions (Rectangle2D p w _height a tr bl br)
  | _ => this
  end.
Definition setAngle (_angle : float) (this : Mesh) : Mesh :=
  match this with
  | Rectangle2D p w h _ tr bl br => updatePositions (Rectangle2D p w h _angle tr bl br)
  | _ => this
  end.
(** [Rectangle2D::setPosition], which hides [Mesh::setPosition]. *)
Definition Rectangle2D_setPosition (_position : vec) (this : Mesh) : Mesh :=
  updatePositions (Mesh_setPosition _position this).

(** [Polygon2D::setRadius]. *)
Definition setRadius (_radius : float) (this : Mesh) : Mesh :=
  match this with
  | Polygon2D p _ a n => Polygon2D p _radius a n
  | Sphere2D p _ a n => Sphere2D p _radius a n
  | _ => this
  end.

(** [collisionRectangleCircle2D].  The last test passes the four corners
    first and the centre last, as the call in the source does, although
    the declaration of [collisionPointRectangle2D] takes the point first. *)
Definition collisionRectangleCircle2D
  (rect_top_left rect_bottom_left rect_bottom_right rect_top_right circle_center : vec)
  (circle_radius : float) (near_point : vec) : bool * vec :=
  let '(b, near_point) :=
    collisionRaySphere rect_top_left rect_top_right circle_center circle_radius near_point false in
  if b then (true, near_point) else
  let '(b, near_point) :=
    collisionRaySphere rect_top_right rect_bottom_right circle_center circle_radius near_point false in
  if b then (true, near_point) else
  let '(b, near_point) :=
    collisionRaySphere rect_bottom_left rect_bottom_right circle_center circle_radius near_point false in
  if b then (true, near_point) else
  let '(b, near_point) :=
    collisionRaySphere rect_top_left rect_bottom_left circle_center circle_radius near_point false in
  if b then (true, near_point) else
  if collisionPointRectangle2D E rect_top_left rect_bottom_left rect_bottom_right
       rect_top_right circle_center
  then (true, circle_center)
  else (false, near_point).

(** [Polygon2D::getCollisionSpace]. *)
Definition Polygon2D_getCollisionSpace (this : Mesh) (speed : vec) : Mesh :=
  let angle := atan2 E (vy speed) (vx speed) in
  let difference :=
    Vec (getRadius this * cos_add_DEG90 E angle)
        (getRadius this * sin_add_DEG90 E angle)
        0 in
  let top_position := vadd (getPosition this) difference in
  new_Rectangle2D top_position (norm speed) (getRadius this * 2) angle.

(** The virtual [getCollisionSpace]: [nullptr] unless the mesh is a
    [Polygon2D] (or a [Sphere2D], which inherits it). *)
Definition getCollisionSpace (this : Mesh) (speed : vec) : option Mesh :=
  match this with
  | Polygon2D _ _ _ _ | Sphere2D _ _ _ _ => Some (Polygon2D_getCollisionSpace this speed)
  | _ => None
  end.

(** A call of the virtual [detectCollision]: receiver, other mesh,
    [my_offset], [my_speed], [other_offset], [other_speed], [try_inverse]
    and the state; [None] when the call does not return. *)
Definition detect_t : Type :=
  Mesh -> Mesh -> vec -> vec -> vec -> vec -> bool -> St -> option (bool * St).

(** [Mesh::detectCollision]; [self] is the virtual call. *)
Definition Mesh_detectCollision (self : detect_t) (this other : Mesh)
  (my_offset my_speed other_offset other_speed : vec) (try_inverse : bool) (s : St)
  : option (bool * St) :=
  let retry (s : St) :=
    if try_inverse
    then self other this other_offset other_speed my_offset my_speed false s
    else Some (false, s) in
  if negb (zero my_speed && zero other_speed) then
    let stopped := Vec 0 0 0 in
    let my_space := getCollisionSpace this my_speed in
    let s := emit (EvSpace this my_speed my_space) s in
    match my_space with
    | Some my_space =>
        match self my_space other my_offset stopped other_offset other_speed try_inverse s with
        | None => None
        | Some (true, s) => Some (true, emit (EvFirstCase (getType this) (getType other)) s)
        | Some (false, s) =>
            let other_space := getCollisionSpace other other_speed in
            let s := emit (EvSpace other other_speed other_space) s in
            match other_space with
            | Some other_space =>
                match self my_space other_space my_offset stopped other_offset stopped
                        try_inverse s with
                | None => None
                | Some (true, s) =>
                    Some (true, emit (EvSecondCase (getType this) (getType other)) s)
                | Some (false, s) => retry s
                end
            | None => retry s
            end
        end
    | None => retry s
    end
  else retry s.

(** [Rectangle2D::detectCollision]. *)
Definition Rectangle2D_detectCollision (self : detect_t) (this other : Mesh)
  (my_offset my_speed other_offset other_speed : vec) (try_inverse : bool) (s : St)
  : option (bool * St) :=
  let base := Mesh_detectCollision self this other my_offset my_speed other_offset other_speed
                try_inverse in
  if String.eqb (getType other) "rectangle2d" then
    let '(b, near_point) :=
      collisionRectangles2D E
        (vadd my_offset (getTopLeftPosition this))
        (vadd my_offset (getBottomLeftPosition this))
        (vadd my_offset (getBottomRightPosition this))
        (vadd my_offset (getTopRightPosition this))
        (vadd other_offset (getTopLeftPosition other))
        (vadd other_offset (getBottomLeftPosition other))
        (vadd other_offset (getBottomRightPosition other))
        (vadd other_offset (getTopRightPosition other)) in
    let s := match near_point with Some p => set_point p s | None => s end in
    if b then Some (true, s) else base s
  else base s.

(** [Polygon2D::detectCollision]. *)
Definition Polygon2D_detectCollision (self : detect_t) (this other : Mesh)
  (my_offset my_speed other_offset other_speed : vec) (try_inverse : bool) (s : St)
  : option (bool * St) :=
  let base := Mesh_detectCollision self this other my_offset my_speed other_offset other_speed
                try_inverse in
  if String.eqb (getType other) "polygon2d" || String.eqb (getType other) "sphere2d" then
    let s := set_point (vscale_r (vadd (getPosition this) (getPosition other)) 0.5) s in
    if collisionSpheres (vadd my_offset (getPosition this)) (getRadius this)
                        (vadd other_offset (getPosition other)) (getRadius other)
    then Some (true, s)
    else base s
  else if String.eqb (getType other) "rectangle2d" then
    let '(b, near_point) :=
      collisionRectangleCircle2D
        (vadd other_offset (getTopLeftPosition other))
        (vadd other_offset (getBottomLeftPosition other))
        (vadd other_offset (getBottomRightPosition other))
        (vadd other_offset (getTopRightPosition other))
        (vadd my_offset (getPosition this))
        (getRadius this) (point s) in
    let s := set_point near_point s in
    if b then Some (true, s) else base s
  else base s.

(** Dynamic dispatch on the class of the receiver. *)
Definition dispatch (self : detect_t) : detect_t :=
  fun this =>
    match this with
    | Generic _ => Mesh_detectCollision self this
    | Rectangle2D _ _ _ _ _ _ _ => Rectangle2D_detectCollision self this
    | Polygon2D _ _ _ _ | Sphere2D _ _ _ _ => Polygon2D_detectCollision self this
    end.

(** The virtual method, with the depth of nested calls bounded by [fuel]. *)
Fixpoint detectCollision_fuel (fuel : nat) : detect_t :=
  match fuel with
  | O => fun _ _ _ _ _ _ _ _ => None
  | S fuel => dispatch (detectCollision_fuel fuel)
  end.

(** How deep the calls below a call can nest: a swept shape is a
    rectangle, which has no swept shape of its own, and the retry is made
    with [try_inverse] off. *)
Definition sweepable (m : Mesh) : nat :=
  match m with Polygon2D _ _ _ _ | Sphere2D _ _ _ _ => 1 | _ => 0 end.

Definition depth (this other : Mesh) (try_inverse : bool) : nat :=
  2 * (sweepable this + sweepable other) + (if try_inverse then 1 else 0).

(** [detectCollision] as the callers see it: [point] is the reference
    parameter, and the state starts with an empty trace. *)
Definition detectCollision (this other : Mesh)
  (my_offset my_speed other_offset other_speed point : vec) (try_inverse : bool)
  : option (bool * St) :=
  detectCollision_fuel (S (depth this other try_inverse)) this other
    my_offset my_speed other_offset other_speed try_inverse
    {| point := point; trace := [] |}.

(** *** Drawing *)

Section Drawing.

(** [static_cast<double>((PI * 2.0) / static_cast<double>(sides))]: the
    product and the quotient are taken in [long double]. *)
Variable step_of_sides : Z -> float.

Definition mode_of (only_border : bool) : GlMode :=
  if only_border then GL_LINE_LOOP else GL_TRIANGLE_FAN.

(** [Rectangle2D::_draw]. *)
Definition Rectangle2D_draw (this : Mesh) (offset : vec) (background : N) (only_border : bool)
  : list GlCall :=
  let top_left := vadd (getTopLeftPosition this) offset in
  let bottom_left := vadd (getBottomLeftPosition this) offset in
  let bottom_right := vadd (getBottomRightPosition this) offset in
  let top_right := vadd (getTopRightPosition this) offset in
  [ glBegin (mode_of only_border);
    Background_apply background;
    glVertex3d (vx top_left) (vy top_left) (vz top_left);
    glVertex3d (vx bottom_left) (vy bottom_left) (vz bottom_left);
    glVertex3d (vx bottom_right) (vy bottom_right) (vz bottom_right);
    glVertex3d (vx top_right) (vy top_right) (vz top_right);
    glEnd ].

(** [Polygon2D::_draw]: the loop runs for [i = 0, ..., sides - 1]. *)
Definition Polygon2D_draw (this : Mesh) (offset : vec) (background : N) (only_border : bool)
  : list GlCall :=
  let position := vadd offset (getPosition this) in
  let step := step_of_sides (getSides this) in
  [ glBegin (mode_of only_border); Background_apply background ]
  ++ map (fun i =>
            let ang := double_of_int i * step + getAngle this in
            glVertex3d (vx position + getRadius this * cos E ang)
                       (vy position + getRadius this * sin E ang)
                       (vz position))
         (seqZ 0 (getSides this))
  ++ [ glEnd ].

(** The virtual [_draw]; its body is empty in [Mesh]. *)
Definition _draw (this : Mesh) (offset : vec) (background : N) (only_border : bool)
  : list GlCall :=
  match this with
  | Generic _ => []
  | Rectangle2D _ _ _ _ _ _ _ => Rectangle2D_draw this offset background only_border
  | Polygon2D _ _ _ _ | Sphere2D _ _ _ _ => Polygon2D_draw this offset background only_border
  end.

(** [Mesh::draw]. *)
Fixpoint Mesh_draw (this : Tree) (offset : vec) (background : N) (only_border : bool)
  : list GlCall :=
  match this with
  | Node shape children =>
      _draw shape offset background only_border
      ++ match children with
         | [] => []
         | _ :: _ =>
             let position := vadd offset (getPosition shape) in
             flat_map (fun mesh => Mesh_draw mesh position background only_border) children
         end
  end.

End Drawing.

End WithExtern.

(** *** A concrete [Extern] for worked examples *)

Definition orientation (a b c : vec) : float := vz (cross (vsub b a) (vsub c a)).

Definition within (lo hi x : float) : bool :=
  ((lo <=? x) && (x <=? hi)) || ((hi <=? x) && (x <=? lo)).

Definition on_segment (a b c : vec) : bool :=
  (orientation a b c =? 0) && within (vx a) (vx b) (vx c) && within (vy a) (vy b) (vy c).

Definition opposite_sides (d1 d2 : float) : bool :=
  ((d1 <? 0) && (0 <? d2)) || ((d2 <? 0) && (0 <? d1)).

(** Two segments of the plane meet: they cross, or an end of one lies on
    the other. *)
Definition segments_meet (e1 e2 : vec * vec) : bool :=
  let '(a, b) := e1 in
  let '(c, d) := e2 in
  (opposite_sides (orientation c d a) (orientation c d b)
   && opposite_sides (orientation a b c) (orientation a b d))
  || on_segment c d a || on_segment c d b || on_segment a b c || on_segment a b d.

(** Modelled from the spec: [collisionPointRectangle2D] is declared in
    [mesh.h] and defined outside it.  The spec has it decide whether the
    point "lies inside the rectangle"; here it does so with the header's
    own [areaTriangle2D] and [areaRectangle2D]: the four triangles the
    point spans with the edges cover no more than the rectangle. *)
Definition sample_collisionPointRectangle2D
  (point rect_top_left rect_bottom_left rect_bottom_right rect_top_right : vec) : bool :=
  areaTriangle2D point rect_top_left rect_bottom_left
  + areaTriangle2D point rect_bottom_left rect_bottom_right
  + areaTriangle2D point rect_bottom_right rect_top_right
  + areaTriangle2D point rect_top_right rect_top_left
  <=? areaRectangle2D rect_top_left rect_bottom_left rect_bottom_right.

(** Modelled from the spec: [collisionRectangles2D] is declared in
    [mesh.h] and defined outside it.  The spec: "true iff any edge of one
    intersects any edge of the other, or either rectangle's reference
    point lies inside the other".  The spec does not say what it writes
    to [near_point]; this model writes nothing. *)
Definition sample_collisionRectangles2D
  (rect_1_top_left rect_1_bottom_left rect_1_bottom_right rect_1_top_right
   rect_2_top_left rect_2_bottom_left rect_2_bottom_right rect_2_top_right : vec)
  : bool * option vec :=
  let edges_1 :=
    edgesRectangle2D rect_1_top_left rect_1_bottom_left rect_1_bottom_right rect_1_top_right in
  let edges_2 :=
    edgesRectangle2D rect_2_top_left rect_2_bottom_left rect_2_bottom_right rect_2_top_right in
  (existsb (fun e1 => existsb (segments_meet e1) edges_2) edges_1
   || sample_collisionPointRectangle2D rect_1_top_left
        rect_2_top_left rect_2_bottom_left rect_2_bottom_right rect_2_top_right
   || sample_collisionPointRectangle2D rect_2_top_left
        rect_1_top_left rect_1_bottom_left rect_1_bottom_right rect_1_top_right,
   None).

(** The C math library at the arguments that a motion along the positive
    x axis reaches (glibc on x86-64, where [long double] has a 64-bit
    significand): the direction [atan2(y, x)] for a zero [y] is that
    zero with its sign, [sin] of a zero is that zero, and the
    perpendiculars are at [0 + DEG90] and [0 - DEG90].  Any other
    argument gives NaN, so an example that left this table would show. *)
Definition half_pi : float := 0x1.921fb54442d18p+0.

Definition sample_extern : Extern := {|
  atan2 := fun y x => if (y =? 0) && (0 <? x) then y else nan;
  cos := fun a => if a =? 0 then 1
                  else if a =? - half_pi then 0x1.1a62633145c07p-54 else nan;
  sin := fun a => if a =? 0 then a
                  else if a =? - half_pi then -1 else nan;
  cos_add_DEG90 := fun a => if a =? 0 then -0x1.d9cceba3f91f2p-66 else nan;
  sin_add_DEG90 := fun a => if a =? 0 then 1 else nan;
  sub_DEG90 := fun a => if a =? 0 then - half_pi else nan;
  collisionPointRectangle2D := sample_collisionPointRectangle2D;
  collisionRectangles2D := sample_collisionRectangles2D
|}.

End Mesh.

(** ** The entity tree of [object.h] *)

Module Object.

(** An [Object *] is an address; [NULL] is address 0. *)
Abbreviation ptr := N.
Definition NULL : ptr := 0%N.

(** The data members of [Object].  The owned [Mesh] and [Background] and
    the collider are known by their addresses; [children] is the
    sequence in which the [std::unordered_set] hands out its elements,
    which the standard leaves unspecified. *)
Record Object : Type := mkObject {
  display : bool;
  mesh : ptr;
  collider : ptr;
  background : ptr;
  children : list ptr;
  parent : ptr;
  position : Mesh.vec;
  speed : Mesh.vec;
  acceleration : Mesh.vec
}.

Definition set_display (b : bool) (o : Object) : Object :=
  mkObject b (mesh o) (collider o) (background o) (children o) (parent o)
           (position o) (speed o) (acceleration o).
Definition set_children (l : list ptr) (o : Object) : Object :=
  mkObject (display o) (mesh o) (collider o) (background o) l (parent o)
           (position o) (speed o) (acceleration o).
Definition set_parent (p : ptr) (o : Object) : Object :=
  mkObject (display o) (mesh o) (collider o) (background o) (children o) p
           (position o) (speed o) (acceleration o).
Definition set_position (v : Mesh.vec) (o : Object) : Object :=
  mkObject (display o) (mesh o) (collider o) (background o) (children o) (parent o)
           v (speed o) (acceleration o).
Definition set_speed (v : Mesh.vec) (o : Object) : Object :=
  mkObject (display o) (mesh o) (collider o) (background o) (children o) (parent o)
           (position o) v (acceleration o).

(** [unordered_set::insert] and [erase] on the iteration sequence.
    [erase] keeps the order of the elements that stay.  Where [insert]
    puts a new element, and whether a rehash reorders the others, the
    standard leaves open: the sequence below, the new element first and
    the others in place, is one of those it allows.  What is proved
    about child sets rests on their members, not on where [insert] puts
    an element. *)
Definition set_insert (x : ptr) (l : list ptr) : list ptr :=
  if bool_decide (x ∈ l) then l else x :: l.
Definition set_erase (x : ptr) (l : list ptr) : list ptr :=
  filter (λ y, y ≠ x) l.

(** The objects alive in memory and the two static members of [Object]:
    the set [invalid] and the stack [marked] (its top is the head). *)
Record Scene : Type := mkScene {
  heap : gmap ptr Object;
  invalid : gset ptr;
  marked : list ptr
}.

(** Outcomes: a value, undefined behaviour (a member of an object that is
    not alive is read or written, or an object is deleted twice), or a
    computation cut off by its fuel. *)
Inductive result (A : Type) : Type :=
| Ok (a : A)
| Undefined
| OutOfFuel.
Arguments Ok {A} a.
Arguments Undefined {A}.
Arguments OutOfFuel {A}.

Definition bind {A B : Type} (r : result A) (f : A -> result B) : result B :=
  match r with
  | Ok a => f a
  | Undefined => Undefined
  | OutOfFuel => OutOfFuel
  end.

Notation "'let*' x ':=' e 'in' k" := (bind e (fun x => k))
  (at level 10, x name, e at level 200, k at level 200).

Definition deref (s : Scene) (p : ptr) : result Object :=
  match heap s !! p with
  | Some o => Ok o
  | None => Undefined
  end.

(** Assignment to members of the object at [p]. *)
Definition modify (p : ptr) (f : Object -> Object) (s : Scene) : result Scene :=
  let* o := deref s p in
  Ok (mkScene (<[p := f o]> (heap s)) (invalid s) (marked s)).

Definition isValid (s : Scene) (obj : ptr) : bool :=
  bool_decide (obj ∉ invalid s).

(** The constructor, run on fresh storage at [this]. *)
Definition construct (this : ptr) (_position : Mesh.vec) (_display : bool)
  (_mesh _background : ptr) (_speed _acceleration : Mesh.vec) (s : Scene) : Scene :=
  mkScene
    (<[this := mkObject _display _mesh NULL _background [] NULL
                 _position _speed _acceleration]> (heap s))
    (invalid s ∖ {[this]})
    (marked s).

(** [delete obj]: the destructor, then the storage is given back. *)
Definition delete_Object (this : ptr) (s : Scene) : result Scene :=
  let* _ := deref s this in
  Ok (mkScene (delete this (heap s)) ({[this]} ∪ invalid s) (marked s)).

Definition collides (s : Scene) (this : ptr) : result bool :=
  let* o := deref s this in
  Ok (negb (collider o =? NULL)%N).

(** The stub of the source: no pair ever collides. *)
Definition detectCollision (this other : ptr) : bool := false.

Definition addChild (this obj : ptr) (s : Scene) : result Scene :=
  if isValid s this && isValid s obj then
    let* s := modify obj (set_parent this) s in
    let* o := deref s this in
    modify this (set_children (set_insert obj (children o))) s
  else Ok s.

Definition removeChild (this obj : ptr) (s : Scene) : result Scene :=
  if isValid s this && isValid s obj then
    let* s := modify obj (set_parent NULL) s in
    let* o := deref s this in
    modify this (set_children (set_erase obj (children o))) s
  else Ok s.

Definition setParent (this obj : ptr) (s : Scene) : result Scene :=
  if isValid s this && isValid s obj then
    let* o := deref s this in
    addChild (parent o) obj s
  else Ok s.

Definition removeParent (this : ptr) (s : Scene) : result Scene :=
  if isValid s this then
    let* o := deref s this in
    if isValid s (parent o) then removeChild (parent o) this s else Ok s
  else Ok s.

Definition destroy (this : ptr) (s : Scene) : result Scene :=
  let* s := modify this (set_display false) s in
  Ok (mkScene (heap s) (invalid s) (this :: marked s)).

(** The virtual hooks.  Their bodies are empty in [Object]; a subclass
    overrides them with code that works on the scene: the objects, the
    registry and the stack of marked entities.  A hook that calls
    [update] itself is outside this model. *)
Record Hooks : Type := {
  onCollision : ptr -> ptr -> Scene -> result Scene;
  beforeDestroy : ptr -> Scene -> result Scene;
  afterDestroy : ptr -> Scene -> result Scene;
  beforeUpdate : ptr -> float -> N -> Scene -> result Scene;
  afterUpdate : ptr -> float -> N -> Scene -> result Scene
}.

Definition base_hooks : Hooks := {|
  onCollision := fun _ _ s => Ok s;
  beforeDestroy := fun _ s => Ok s;
  afterDestroy := fun _ s => Ok s;
  beforeUpdate := fun _ _ _ s => Ok s;
  afterUpdate := fun _ _ _ s => Ok s
|}.

(** What the engine does, in the order it does it: the hooks it calls,
    the members it calls on entities, what it deletes. *)
Inductive Event : Type :=
| EvBeforeDestroy (obj : ptr)
| EvAfterDestroy (obj : ptr)
| EvBeforeUpdate (obj : ptr)
| EvAfterUpdate (obj : ptr)
| EvOnCollision (obj other : ptr)
| EvDetectCollision (obj other : ptr)
| EvRemoveParent (obj : ptr)
| EvDestroy (obj : ptr)
| EvDeleteBackground (b : ptr)
| EvDeleteMesh (m : ptr)
| EvInvalidInsert (obj : ptr)
| EvDeleteObject (obj : ptr)
| EvDelayedDestroy.

(** The scene, the function-local static [destroy_shared] of [update],
    and the log of events. *)
Record World : Type := mkWorld {
  scene : Scene;
  destroy_shared : bool;
  log : list Event
}.

Definition emit (e : Event) (w : World) : World :=
  mkWorld (scene w) (destroy_shared w) (log w ++ [e]).

Definition lift (f : Scene -> result Scene) (w : World) : result World :=
  let* s := f (scene w) in
  Ok (mkWorld s (destroy_shared w) (log w)).

Definition set_destroy_shared (b : bool) (w : World) : World :=
  mkWorld (scene w) b (log w).

(** A call of a virtual member on [obj]: the object has to be alive. *)
Definition virtual_call (obj : ptr) (body : Scene -> result Scene) (w : World) : result World :=
  lift (fun s => let* _ := deref s obj in body s) w.

Fixpoint for_each {A : Type} (l : list A) (body : A -> World -> result World) (w : World)
  : result World :=
  match l with
  | [] => Ok w
  | x :: l => let* w := body x w in for_each l body w
  end.

Section WithHooks.

Variable H : Hooks.

(** The body of the loop of [delayedDestroy] for a valid [obj]. *)
Definition teardown (obj : ptr) (w : World) : result World :=
  let* w := virtual_call obj (beforeDestroy H obj) (emit (EvBeforeDestroy obj) w) in
  let* w := lift (removeParent obj) (emit (EvRemoveParent obj) w) in
  let* o := deref (scene w) obj in
  let* w := for_each (children o) (fun child w => lift (destroy child) (emit (EvDestroy child) w)) w in
  let* w := lift (modify obj (set_children [])) w in
  let* o := deref (scene w) obj in
  let w := emit (EvDeleteMesh (mesh o)) (emit (EvDeleteBackground (background o)) w) in
  let w := emit (EvInvalidInsert obj) w in
  let w := mkWorld (mkScene (heap (scene w)) ({[obj]} ∪ invalid (scene w)) (marked (scene w)))
                   (destroy_shared w) (log w) in
  let* w := virtual_call obj (afterDestroy H obj) (emit (EvAfterDestroy obj) w) in
  lift (delete_Object obj) (emit (EvDeleteObject obj) w).

(** [delayedDestroy]: the loop runs at most [fuel] times. *)
Fixpoint delayedDestroy_loop (fuel : nat) (w : World) : result World :=
  match marked (scene w) with
  | [] => Ok w
  | obj :: rest =>
      match fuel with
      | O => OutOfFuel
      | S fuel =>
          let w := mkWorld (mkScene (heap (scene w)) (invalid (scene w)) rest)
                           (destroy_shared w) (log w) in
          if isValid (scene w) obj
          then let* w := teardown obj w in delayedDestroy_loop fuel w
          else delayedDestroy_loop fuel w
      end
  end.

Definition delayedDestroy (fuel : nat) (w : World) : result World :=
  delayedDestroy_loop fuel (emit EvDelayedDestroy w).

(** [update]; [fuel] bounds the depth of the recursion into children and
    the number of rounds of the final sweep. *)
Fixpoint update (fuel : nat) (this : ptr) (now : float) (tick : N) (w : World) : result World :=
  match fuel with
  | O => OutOfFuel
  | S fuel' =>
      let destroy_local := destroy_shared w in
      let w := set_destroy_shared false w in
      let* w :=
        if isValid (scene w) this then
          let* o := deref (scene w) this in
          let snapshot := children o in
          let* w := virtual_call this (beforeUpdate H this now tick)
                      (emit (EvBeforeUpdate this) w) in
          let* w := lift (fun s =>
                      let* o := deref s this in
                      modify this (set_position (Mesh.vadd (position o) (speed o))) s) w in
          let* w := lift (fun s =>
                      let* o := deref s this in
                      modify this (set_speed (Mesh.vadd (speed o) (acceleration o))) s) w in
          let* w := for_each snapshot (fun child w => update fuel' child now tick w) w in
          virtual_call this (afterUpdate H this now tick) (emit (EvAfterUpdate this) w)
        else Ok w in
      if destroy_local
      then delayedDestroy fuel (set_destroy_shared true w)
      else Ok w
  end.

(** The inner loop of [detectCollisions]. *)
Definition detect_with (child : ptr) (next : ptr) (w : World) : result World :=
  let w := emit (EvDetectCollision child next) w in
  if detectCollision child next then
    let* w := virtual_call child (onCollision H child next) (emit (EvOnCollision child next) w) in
    virtual_call next (onCollision H next child) (emit (EvOnCollision next child) w)
  else Ok w.

Fixpoint detectCollisions_from (l : list ptr) (w : World) : result World :=
  match l with
  | [] => Ok w
  | child :: rest =>
      let* w :=
        if isValid (scene w) child then
          let* c := collides (scene w) child in
          if c then for_each rest (detect_with child) w else Ok w
        else Ok w in
      detectCollisions_from rest w
  end.

Definition detectCollisions (this : ptr) (w : World) : result World :=
  let* o := deref (scene w) this in
  detectCollisions_from (children o) w.

End WithHooks.

(** *** Drawing *)

(** What [draw] does, in the order it does it: the two hooks it calls
    (their bodies are empty in [Object]), the call of [Mesh::draw] with
    its three arguments, and the line it prints for an entity that is
    not valid. *)
Inductive DrawEvent : Type :=
| EvBeforeDraw (obj : ptr)
| EvMeshDraw (mesh : ptr) (offset : Mesh.vec) (background : ptr) (only_border : bool)
| EvAfterDraw (obj : ptr)
| EvDrawingError.

Fixpoint for_each_child {S : Type} (l : list ptr) (body : ptr -> S -> result S) (s : S)
  : result S :=
  match l with
  | [] => Ok s
  | x :: l => let* s := body x s in for_each_child l body s
  end.

(** [draw]; [fuel] bounds the depth of the recursion into children.
    [draw] and its hooks are [const] members: the scene is read, not
    written.  The [double] [ratio] is what the call passes for the
    [bool] parameter [only_border] of [Mesh::draw]. *)
Fixpoint draw (fuel : nat) (s : Scene) (this : ptr) (ratio : float) (out : list DrawEvent)
  : result (list DrawEvent) :=
  match fuel with
  | O => OutOfFuel
  | S fuel =>
      if isValid s this then
        let* o := deref s this in
        if display o then
          let out := out ++ [EvBeforeDraw this] in
          let out :=
            out ++ [EvMeshDraw (mesh o) (position o) (background o) (Mesh.truthy ratio)] in
          let* out := for_each_child (children o)
                        (fun child out => draw fuel s child ratio out) out in
          Ok (out ++ [EvAfterDraw this])
        else Ok out
      else Ok (out ++ [EvDrawingError])
  end.

End Object.

(** ** Properties of the collision resolver *)

Module MeshTheory.
Import Mesh.

Local Open Scope float_scope.

(** *** Facts about binary64 that the kernel's properties rest on *)

Definition is_NaN (x : float) : Prop := Prim2SF x = S754_nan.

(** Finite values: zeros, normal and subnormal numbers. *)
Definition finite (x : float) : Prop :=
  match Prim2SF x with
  | S754_zero _ | S754_finite _ _ _ => True
  | _ => False
  end.

Definition finite_vec (v : vec) : Prop := finite (vx v) /\ finite (vy v) /\ finite (vz v).

Lemma SFcompare_antisym (a b : spec_float) :
  SFcompare b a = match SFcompare a b with
                  | Some c => Some (CompOpp c)
                  | None => None
                  end.
Proof.
  destruct a as [sa|sa| |sa ma ea], b as [sb|sb| |sb mb eb]; simpl; try reflexivity;
    try (destruct sa; reflexivity); try (destruct sb; reflexivity);
    try (destruct sa, sb; reflexivity).
  destruct sa, sb; simpl; try reflexivity;
    rewrite (Z.compare_antisym ea eb); destruct (ea ?= eb)%Z; simpl; try reflexivity;
    rewrite (Pos.compare_cont_antisym ma mb Eq); reflexivity.
Qed.

Lemma SFcompare_nan (a b : spec_float) :
  a <> S754_nan -> b <> S754_nan -> SFcompare a b <> None.
Proof.
  destruct a, b; simpl; congruence.
Qed.

Lemma ltb_false_leb (a b : float) :
  ~ is_NaN a -> ~ is_NaN b -> (a <? b) = false -> (b <=? a) = true.
Proof.
  unfold is_NaN. rewrite ltb_spec, leb_spec. unfold SFltb, SFleb.
  intros Ha Hb. rewrite (SFcompare_antisym (Prim2SF a) (Prim2SF b)).
  pose proof (SFcompare_nan _ _ Ha Hb) as Hc.
  destruct (SFcompare (Prim2SF a) (Prim2SF b)) as [[]|]; simpl; congruence.
Qed.

Lemma sub_diag (x : float) : finite x -> x - x = 0.
Proof.
  unfold finite. intros H. apply Prim2SF_inj. rewrite sub_spec.
  destruct (Prim2SF x) as [s|s| |s m e]; try contradiction.
  - destruct s; reflexivity.
  - unfold SF64sub, SFsub. rewrite Z.min_id.
    replace (_ - _)%Z with 0%Z by (symmetry; apply Z.sub_diag).
    reflexivity.
Qed.

Lemma vsub_diag (v : vec) : finite_vec v -> vsub v v = Vec 0 0 0.
Proof.
  intros (Hx & Hy & Hz). unfold vsub. now rewrite !sub_diag.
Qed.

Lemma clamp_unit_range (t : float) :
  ~ is_NaN t -> (0 <=? clamp t 0 1) = true /\ (clamp t 0 1 <=? 1) = true.
Proof.
  intros Hn. unfold clamp.
  destruct (1 <? t) eqn:H1; [split; reflexivity|].
  destruct (t <? 0) eqn:H0; [split; reflexivity|].
  split; apply ltb_false_leb; trivial; unfold is_NaN; vm_compute; discriminate.
Qed.

(** *** The segment projection *)

Lemma distanceRayToPoint_no_zero_division
  (ray_start ray_end point near_point : vec) (infinite : bool) :
  distanceRayToPoint_checked ray_start ray_end point near_point infinite
  = Some (distanceRayToPoint ray_start ray_end point near_point infinite).
Proof.
  unfold distanceRayToPoint_checked, distanceRayToPoint, checked_div.
  destruct (norm2 (vsub ray_end ray_start) =? 0); reflexivity.
Qed.

Lemma clamp_above (t lo hi : float) : (hi <? t) = true -> clamp t lo hi = hi.
Proof. intros H. unfold clamp. now rewrite H. Qed.

Lemma clamp_below (t lo hi : float) :
  (hi <? t) = false -> (t <? lo) = true -> clamp t lo hi = lo.
Proof. intros H1 H2. unfold clamp. now rewrite H1, H2. Qed.

Lemma clamp_inside (t lo hi : float) :
  (hi <? t) = false -> (t <? lo) = false -> clamp t lo hi = t.
Proof. intros H1 H2. unfold clamp. now rewrite H1, H2. Qed.

Lemma leb_not_ltb (a b : float) : (a <=? b) = true -> (b <? a) = false.
Proof.
  rewrite leb_spec, ltb_spec. unfold SFleb, SFltb.
  rewrite (SFcompare_antisym (Prim2SF a) (Prim2SF b)).
  destruct (SFcompare (Prim2SF a) (Prim2SF b)) as [[]|]; simpl; congruence.
Qed.

Lemma ltb_not_NaN (a b : float) : (a <? b) = true -> ~ is_NaN a /\ ~ is_NaN b.
Proof.
  unfold is_NaN. rewrite ltb_spec. unfold SFltb.
  destruct (Prim2SF a), (Prim2SF b); simpl; try discriminate; intros _; split; discriminate.
Qed.

Lemma ltb_trans_01 (t : float) : (t <? 0) = true -> (1 <? t) = false.
Proof.
  rewrite !ltb_spec. change (Prim2SF 0) with (S754_zero false).
  change (Prim2SF 1) with (S754_finite false 4503599627370496 (-52)).
  unfold SFltb. destruct (Prim2SF t) as [s|s| |s m e]; simpl; try discriminate;
    destruct s; simpl; try discriminate; reflexivity.
Qed.

(** C8. [distanceRayToPoint] never divides by zero.  On a segment of zero
    squared length (in particular when [ray_end] is [ray_start], with
    finite coordinates) it returns the distance from the point to
    [ray_start] and leaves [near_point] as it was.  Otherwise, with
    [t = dot (point - start) (end - start) / |end - start|^2], it sets
    [near_point] to [start + t' * (end - start)] and returns the
    distance from the point to it, where [t'] is [t] itself on an
    infinite line and [t] clamped to [[0, 1]] on a segment: [1] for a
    [t] above [1], [0] for a [t] below [0], [t] for a [t] from [0] to
    [1], and [t] for a [t] that is not a number. *)
Theorem distanceRayToPoint_spec
  (ray_start ray_end point near_point : vec) (infinite : bool) :
  let delta_ray := vsub ray_end ray_start in
  let t := dot (vsub point ray_start) delta_ray / norm2 delta_ray in
  distanceRayToPoint_checked ray_start ray_end point near_point infinite
  = Some (distanceRayToPoint ray_start ray_end point near_point infinite)
  /\ ((norm2 delta_ray =? 0) = true ->
      distanceRayToPoint ray_start ray_end point near_point infinite
      = (distance point ray_start, near_point))
  /\ (finite_vec ray_start -> ray_end = ray_start ->
      distanceRayToPoint ray_start ray_end point near_point infinite
      = (distance point ray_start, near_point))
  /\ ((norm2 delta_ray =? 0) = false ->
      exists t',
        distanceRayToPoint ray_start ray_end point near_point infinite
        = (distance point (vadd ray_start (vscale t' delta_ray)),
           vadd ray_start (vscale t' delta_ray))
        /\ (infinite = true -> t' = t)
        /\ (infinite = false ->
            ((1 <? t) = true -> t' = 1)
            /\ ((t <? 0) = true -> t' = 0)
            /\ ((0 <=? t) = true -> (t <=? 1) = true -> t' = t)
            /\ (is_NaN t -> t' = t)
            /\ (~ is_NaN t -> (0 <=? t') = true /\ (t' <=? 1) = true))).
Proof.
  intros delta_ray t. split; [apply distanceRayToPoint_no_zero_division|].
  split; [|split].
  - intros H. unfold distanceRayToPoint. fold delta_ray. now rewrite H.
  - intros Hf ->. unfold distanceRayToPoint. now rewrite vsub_diag.
  - intros H. exists (if infinite then t else clamp t 0 1). split; [|split].
    + unfold distanceRayToPoint. fold delta_ray. rewrite H.
      subst t. unfold dot. now destruct infinite.
    + now intros ->.
    + intros ->. split; [|split; [|split; [|split]]].
      * apply clamp_above.
      * intros H0. apply clamp_below; [now apply ltb_trans_01|assumption].
      * intros H0 H1. apply clamp_inside; now apply leb_not_ltb.
      * intros Hn. apply clamp_inside.
        -- destruct (1 <? t) eqn:H1; [|reflexivity].
           apply ltb_not_NaN in H1 as [_ H1]. contradiction.
        -- destruct (t <? 0) eqn:H0; [|reflexivity].
           apply ltb_not_NaN in H0 as [H0 _]. contradiction.
      * apply clamp_unit_range.
Qed.

Example distanceRayToPoint_degenerate :
  distanceRayToPoint (Vec 1 2 0) (Vec 1 2 0) (Vec 4 6 0) (Vec 9 9 9) false
  = (5, Vec 9 9 9).
Proof. reflexivity. Qed.

(** A segment of zero length, and the segment from the origin to
    [(2, 0, 0)] with the point [(5, 4, 0)], whose parameter [2.5] is
    brought down to [1]. *)
Lemma distanceRayToPoint_spec_witness :
  distanceRayToPoint (Vec 1 2 0) (Vec 1 2 0) (Vec 4 6 0) (Vec 9 9 9) false
  = (distance (Vec 4 6 0) (Vec 1 2 0), Vec 9 9 9)
  /\ distanceRayToPoint (Vec 0 0 0) (Vec 2 0 0) (Vec 5 4 0) (Vec 9 9 9) false
     = (5, Vec 2 0 0).
Proof.
  split.
  - apply (proj1 (proj2 (proj2
             (distanceRayToPoint_spec (Vec 1 2 0) (Vec 1 2 0) (Vec 4 6 0) (Vec 9 9 9) false)))).
    + repeat split; vm_compute; exact I.
    + reflexivity.
  - destruct (proj2 (proj2 (proj2
               (distanceRayToPoint_spec (Vec 0 0 0) (Vec 2 0 0) (Vec 5 4 0) (Vec 9 9 9) false)))
               eq_refl) as (t' & Hd & _ & Hseg).
    destruct (Hseg eq_refl) as (Habove & _).
    rewrite Hd, (Habove eq_refl). reflexivity.
Defined.

Example distanceRayToPoint_clamped :
  distanceRayToPoint (Vec 0 0 0) (Vec 2 0 0) (Vec 5 4 0) (Vec 9 9 9) false
  = (5, Vec 2 0 0)
  /\ distanceRayToPoint (Vec 0 0 0) (Vec 2 0 0) (Vec 5 4 0) (Vec 9 9 9) true
  = (4, Vec 5 0 0).
Proof. split; reflexivity. Qed.

(** *** Termination of [detectCollision] *)

Section WithExtern.

Variable E : Extern.

Definition hit (r : option (bool * St)) : option bool := option_map fst r.

Definition total_below (self : detect_t) (n : nat) : Prop :=
  forall t o a b c d ti s, (depth t o ti < n)%nat -> is_Some (self t o a b c d ti s).

Lemma getCollisionSpace_sweepable (this : Mesh) (speed : vec) (sp : Mesh) :
  getCollisionSpace E this speed = Some sp -> sweepable this = 1%nat /\ sweepable sp = 0%nat.
Proof.
  destruct this; simpl; intros H; inversion H; subst; split; reflexivity.
Qed.

Lemma Mesh_detectCollision_total (self : detect_t) this other a va b vb ti s :
  total_below self (depth this other ti) ->
  is_Some (Mesh_detectCollision E self this other a va b vb ti s).
Proof.
  intros Hself. unfold Mesh_detectCollision.
  assert (Hretry : forall s',
    is_Some (if ti then self other this b vb a va false s' else Some (false, s'))).
  { intros s'. destruct ti; [|eauto]. apply Hself. unfold depth. lia. }
  destruct (negb (zero va && zero vb)); [|apply Hretry].
  destruct (getCollisionSpace E this va) as [ms|] eqn:Hms; [|apply Hretry].
  destruct (getCollisionSpace_sweepable _ _ _ Hms) as [H1 H0].
  destruct (Hself ms other a (Vec 0 0 0) b vb ti
              (emit (EvSpace this va (Some ms)) s)) as [[[] s1] ->].
  { unfold depth. lia. }
  { eauto. }
  destruct (getCollisionSpace E other vb) as [os|] eqn:Hos; [|apply Hretry].
  destruct (getCollisionSpace_sweepable _ _ _ Hos) as [H1' H0'].
  destruct (Hself ms os a (Vec 0 0 0) b (Vec 0 0 0) ti
              (emit (EvSpace other vb (Some os)) s1)) as [[[] s2] ->].
  { unfold depth. lia. }
  { eauto. }
  apply Hretry.
Qed.

Lemma dispatch_total (self : detect_t) this other a va b vb ti s :
  total_below self (depth this other ti) ->
  is_Some (dispatch E self this other a va b vb ti s).
Proof.
  intros Hself.
  pose proof (fun s => Mesh_detectCollision_total self this other a va b vb ti s Hself) as Hb.
  destruct this; simpl.
  - apply Hb.
  - unfold Rectangle2D_detectCollision.
    destruct (String.eqb _ _); [|apply Hb].
    destruct (collisionRectangles2D _ _ _ _ _ _ _ _ _) as [[] np]; [eauto|apply Hb].
  - unfold Polygon2D_detectCollision.
    destruct (_ || _).
    { destruct (collisionSpheres _ _ _ _); [eauto|apply Hb]. }
    destruct (String.eqb _ _); [|apply Hb].
    destruct (collisionRectangleCircle2D _ _ _ _ _ _ _ _) as [[] np]; [eauto|apply Hb].
  - unfold Polygon2D_detectCollision.
    destruct (_ || _).
    { destruct (collisionSpheres _ _ _ _); [eauto|apply Hb]. }
    destruct (String.eqb _ _); [|apply Hb].
    destruct (collisionRectangleCircle2D _ _ _ _ _ _ _ _) as [[] np]; [eauto|apply Hb].
Qed.

(** Enough fuel always gives a result: the nesting of calls is bounded
    by [depth]. *)
Lemma detectCollision_fuel_total (n : nat) :
  total_below (detectCollision_fuel E n) n.
Proof.
  induction n as [|n IH]; intros t o a b c d ti s Hd; [lia|].
  simpl. apply dispatch_total. intros t' o' a' b' c' d' ti' s' Hd'.
  apply IH. lia.
Qed.

(** *** The narrow phase and the swap *)

(** The test a receiver runs before it hands over to
    [Mesh::detectCollision], as a function of the state. *)
Definition narrow (this other : Mesh) (my_offset other_offset : vec) (s : St) : bool * St :=
  match this with
  | Generic _ => (false, s)
  | Rectangle2D _ _ _ _ _ _ _ =>
      if String.eqb (getType other) "rectangle2d" then
        let '(b, near_point) :=
          collisionRectangles2D E
            (vadd my_offset (getTopLeftPosition this))
            (vadd my_offset (getBottomLeftPosition this))
            (vadd my_offset (getBottomRightPosition this))
            (vadd my_offset (getTopRightPosition this))
            (vadd other_offset (getTopLeftPosition other))
            (vadd other_offset (getBottomLeftPosition other))
            (vadd other_offset (getBottomRightPosition other))
            (vadd other_offset (getTopRightPosition other)) in
        (b, match near_point with Some p => set_point p s | None => s end)
      else (false, s)
  | Polygon2D _ _ _ _ | Sphere2D _ _ _ _ =>
      if String.eqb (getType other) "polygon2d" || String.eqb (getType other) "sphere2d" then
        (collisionSpheres (vadd my_offset (getPosition this)) (getRadius this)
                          (vadd other_offset (getPosition other)) (getRadius other),
         set_point (vscale_r (vadd (getPosition this) (getPosition other)) 0.5) s)
      else if String.eqb (getType other) "rectangle2d" then
        let '(b, near_point) :=
          collisionRectangleCircle2D E
            (vadd other_offset (getTopLeftPosition other))
            (vadd other_offset (getBottomLeftPosition other))
            (vadd other_offset (getBottomRightPosition other))
            (vadd other_offset (getTopRightPosition other))
            (vadd my_offset (getPosition this))
            (getRadius this) (point s) in
        (b, set_point near_point s)
      else (false, s)
  end.

Definition narrow_hit (this other : Mesh) (my_offset other_offset : vec) : bool :=
  fst (narrow this other my_offset other_offset {| point := Vec 0 0 0; trace := [] |}).

Lemma dispatch_narrow (self : detect_t) this other a va b vb ti s :
  dispatch E self this other a va b vb ti s
  = let '(h, s1) := narrow this other a b s in
    if h then Some (true, s1)
    else Mesh_detectCollision E self this other a va b vb ti s1.
Proof.
  destruct this; simpl; try reflexivity.
  - unfold Rectangle2D_detectCollision.
    destruct (String.eqb _ _); [|reflexivity].
    destruct (collisionRectangles2D _ _ _ _ _ _ _ _ _) as [[] np]; reflexivity.
  - unfold Polygon2D_detectCollision.
    destruct (_ || _); [reflexivity|].
    destruct (String.eqb _ _); [|reflexivity].
    destruct (collisionRectangleCircle2D _ _ _ _ _ _ _ _) as [[] np]; reflexivity.
  - unfold Polygon2D_detectCollision.
    destruct (_ || _); [reflexivity|].
    destruct (String.eqb _ _); [|reflexivity].
    destruct (collisionRectangleCircle2D _ _ _ _ _ _ _ _) as [[] np]; reflexivity.
Qed.

Lemma distanceRayToPoint_fst ray_start ray_end pt np np' inf :
  fst (distanceRayToPoint ray_start ray_end pt np inf)
  = fst (distanceRayToPoint ray_start ray_end pt np' inf).
Proof.
  unfold distanceRayToPoint. destruct (_ =? _); reflexivity.
Qed.

Lemma collisionRaySphere_fst ray_start ray_end c r np np' inf :
  fst (collisionRaySphere ray_start ray_end c r np inf)
  = fst (collisionRaySphere ray_start ray_end c r np' inf).
Proof.
  unfold collisionRaySphere.
  pose proof (distanceRayToPoint_fst ray_start ray_end c np np' inf) as H.
  destruct (distanceRayToPoint _ _ _ np _), (distanceRayToPoint _ _ _ np' _).
  simpl in *. now subst.
Qed.

Lemma collisionRectangleCircle2D_fst tl bl br tr c r np np' :
  fst (collisionRectangleCircle2D E tl bl br tr c r np)
  = fst (collisionRectangleCircle2D E tl bl br tr c r np').
Proof.
  unfold collisionRectangleCircle2D.
  pose proof (collisionRaySphere_fst tl tr c r np np' false) as H1.
  destruct (collisionRaySphere tl tr c r np false) as [b1 n1],
           (collisionRaySphere tl tr c r np' false) as [b1' n1'].
  simpl in H1; subst b1'. destruct b1; [reflexivity|].
  pose proof (collisionRaySphere_fst tr br c r n1 n1' false) as H2.
  destruct (collisionRaySphere tr br c r n1 false) as [b2 n2],
           (collisionRaySphere tr br c r n1' false) as [b2' n2'].
  simpl in H2; subst b2'. destruct b2; [reflexivity|].
  pose proof (collisionRaySphere_fst bl br c r n2 n2' false) as H3.
  destruct (collisionRaySphere bl br c r n2 false) as [b3 n3],
           (collisionRaySphere bl br c r n2' false) as [b3' n3'].
  simpl in H3; subst b3'. destruct b3; [reflexivity|].
  pose proof (collisionRaySphere_fst tl bl c r n3 n3' false) as H4.
  destruct (collisionRaySphere tl bl c r n3 false) as [b4 n4],
           (collisionRaySphere tl bl c r n3' false) as [b4' n4'].
  simpl in H4; subst b4'. destruct b4; [reflexivity|].
  destruct (collisionPointRectangle2D _ _ _ _ _ _); reflexivity.
Qed.

(** Whether the narrow phase hits does not depend on the incoming
    state. *)
Lemma narrow_fst this other a b s :
  fst (narrow this other a b s) = narrow_hit this other a b.
Proof.
  unfold narrow_hit. destruct this; simpl; try reflexivity.
  - destruct (String.eqb _ _); [|reflexivity].
    destruct (collisionRectangles2D _ _ _ _ _ _ _ _ _); reflexivity.
  - destruct (_ || _); [reflexivity|].
    destruct (String.eqb _ _); [|reflexivity].
    pose proof (collisionRectangleCircle2D_fst
      (vadd b (getTopLeftPosition other)) (vadd b (getBottomLeftPosition other))
      (vadd b (getBottomRightPosition other)) (vadd b (getTopRightPosition other))
      (vadd a position) radius (point s) (Vec 0 0 0)) as H.
    simpl in *.
    destruct (collisionRectangleCircle2D _ _ _ _ _ _ _ (point s)),
             (collisionRectangleCircle2D _ _ _ _ _ _ _ (Vec 0 0 0)). exact H.
  - destruct (_ || _); [reflexivity|].
    destruct (String.eqb _ _); [|reflexivity].
    pose proof (collisionRectangleCircle2D_fst
      (vadd b (getTopLeftPosition other)) (vadd b (getBottomLeftPosition other))
      (vadd b (getBottomRightPosition other)) (vadd b (getTopRightPosition other))
      (vadd a position) radius (point s) (Vec 0 0 0)) as H.
    simpl in *.
    destruct (collisionRectangleCircle2D _ _ _ _ _ _ _ (point s)),
             (collisionRectangleCircle2D _ _ _ _ _ _ _ (Vec 0 0 0)). exact H.
Qed.

(** No continuous phase: both velocities are zero, or neither mesh has a
    swept shape. *)
Definition no_sweep (this other : Mesh) (va vb : vec) : Prop :=
  zero va && zero vb = true \/ (sweepable this = 0%nat /\ sweepable other = 0%nat).

Lemma Mesh_detectCollision_no_sweep (self : detect_t) this other a va b vb ti s :
  no_sweep this other va vb ->
  exists s', trace s' = trace s ++ (if negb (zero va && zero vb)
                                    then [EvSpace this va None] else [] )
             /\ point s' = point s
             /\ Mesh_detectCollision E self this other a va b vb ti s
                = if ti then self other this b vb a va false s' else Some (false, s').
Proof.
  intros [Hz|[Hs _]]; unfold Mesh_detectCollision.
  - rewrite Hz. simpl. exists s. rewrite app_nil_r. auto.
  - destruct (negb (zero va && zero vb)).
    + assert (getCollisionSpace E this va = None) as -> by (destruct this; simpl in *; congruence).
      eexists. split; [|split]; [| |reflexivity]; reflexivity.
    + exists s. rewrite app_nil_r. auto.
Qed.

Lemma detectCollision_fuel_no_sweep (n : nat) this other a va b vb s :
  no_sweep this other va vb ->
  hit (detectCollision_fuel E (S (S n)) this other a va b vb true s)
  = Some (narrow_hit this other a b || narrow_hit other this b a).
Proof.
  intros Hns.
  assert (Hns' : no_sweep other this vb va).
  { destruct Hns as [H|[H1 H2]]; [left|right; auto]. now rewrite andb_comm. }
  cbn [detectCollision_fuel]. rewrite dispatch_narrow.
  pose proof (narrow_fst this other a b s) as H1.
  destruct (narrow this other a b s) as [h1 s1]. simpl in H1. rewrite <- H1.
  destruct h1; [reflexivity|].
  destruct (Mesh_detectCollision_no_sweep (dispatch E (detectCollision_fuel E n))
              this other a va b vb true s1 Hns) as (s1' & _ & _ & ->).
  rewrite dispatch_narrow.
  pose proof (narrow_fst other this b a s1') as H2.
  destruct (narrow other this b a s1') as [h2 s2]. simpl in H2. rewrite <- H2.
  destruct h2; [reflexivity|].
  destruct (Mesh_detectCollision_no_sweep (detectCollision_fuel E n)
              other this b vb a va false s2 Hns') as (s2' & _ & _ & ->).
  reflexivity.
Qed.

(** *** Traces *)

Lemma narrow_trace this other a b s :
  trace (snd (narrow this other a b s)) = trace s.
Proof.
  destruct this; simpl; try reflexivity.
  - destruct (String.eqb _ _); [|reflexivity].
    destruct (collisionRectangles2D _ _ _ _ _ _ _ _ _) as [h [p|]]; reflexivity.
  - destruct (_ || _); [reflexivity|].
    destruct (String.eqb _ _); [|reflexivity].
    destruct (collisionRectangleCircle2D _ _ _ _ _ _ _ _); reflexivity.
  - destruct (_ || _); [reflexivity|].
    destruct (String.eqb _ _); [|reflexivity].
    destruct (collisionRectangleCircle2D _ _ _ _ _ _ _ _); reflexivity.
Qed.

(** A call only ever appends to the trace. *)
Lemma detectCollision_fuel_trace_grows (n : nat) :
  forall this other a va b vb ti s h s',
    detectCollision_fuel E n this other a va b vb ti s = Some (h, s') ->
    exists l, trace s' = trace s ++ l.
Proof.
  induction n as [|n IH]; intros this other a va b vb ti s h s' H; [discriminate|].
  cbn [detectCollision_fuel] in H. rewrite dispatch_narrow in H.
  pose proof (narrow_trace this other a b s) as Hn.
  destruct (narrow this other a b s) as [h1 s1]. simpl in Hn.
  destruct h1.
  { inversion H; subst. exists []. now rewrite app_nil_r. }
  rewrite <- Hn. clear Hn s. revert H. generalize s1. clear s1. intros s H.
  unfold Mesh_detectCollision in H.
  assert (Hretry : forall s0 l0, trace s0 = trace s ++ l0 ->
    (if ti then detectCollision_fuel E n other this b vb a va false s0
     else Some (false, s0)) = Some (h, s') -> exists l, trace s' = trace s ++ l).
  { intros s0 l0 H0 Hr. destruct ti.
    - apply IH in Hr as [l Hl]. exists (l0 ++ l). now rewrite Hl, H0, app_assoc.
    - inversion Hr; subst. eauto. }
  destruct (negb (zero va && zero vb)).
  2:{ apply (Hretry s []); [now rewrite app_nil_r|exact H]. }
  destruct (getCollisionSpace E this va) as [ms|].
  2:{ eapply Hretry; [|exact H]. reflexivity. }
  destruct (detectCollision_fuel E n ms other a (Vec 0 0 0) b vb ti _)
    as [[[] s2]|] eqn:H2; try discriminate.
  { inversion H; subst. apply IH in H2 as [l Hl]. simpl in *.
    eexists. rewrite Hl, <- !app_assoc. reflexivity. }
  apply IH in H2 as [l2 Hl2]. simpl in Hl2.
  destruct (getCollisionSpace E other vb) as [os|].
  2:{ eapply Hretry; [|exact H]. simpl. rewrite Hl2, <- !app_assoc. reflexivity. }
  destruct (detectCollision_fuel E n ms os a (Vec 0 0 0) b (Vec 0 0 0) ti _)
    as [[[] s3]|] eqn:H3; try discriminate.
  { inversion H; subst. apply IH in H3 as [l Hl]. simpl in *.
    eexists. rewrite Hl, Hl2, <- !app_assoc. reflexivity. }
  apply IH in H3 as [l3 Hl3]. simpl in Hl3.
  eapply Hretry; [|exact H]. rewrite Hl3, Hl2, <- !app_assoc. reflexivity.
Qed.

(** With both velocities zero no call asks for a swept shape. *)
Lemma detectCollision_fuel_static_trace (n : nat) :
  forall this other a va b vb ti s h s',
    zero va && zero vb = true ->
    detectCollision_fuel E n this other a va b vb ti s = Some (h, s') ->
    trace s' = trace s.
Proof.
  induction n as [|n IH]; intros this other a va b vb ti s h s' Hz H; [discriminate|].
  cbn [detectCollision_fuel] in H. rewrite dispatch_narrow in H.
  pose proof (narrow_trace this other a b s) as Hn.
  destruct (narrow this other a b s) as [h1 s1]. simpl in Hn.
  destruct h1; [now inversion H; subst|].
  unfold Mesh_detectCollision in H. rewrite Hz in H. simpl in H.
  destruct ti.
  - apply IH in H; [congruence|]. now rewrite andb_comm.
  - inversion H; subst. exact Hn.
Qed.

(** *** Symmetry of the detection *)

(** X21.  A call of [detectCollision] always returns:
    below a call the receiver is either a swept rectangle, which has no
    swept shape of its own, or the swapped pair with the retry switched
    off.  When no swept shape comes into play (both velocities zero, or
    two meshes without one, such as two rectangles) the answer is the
    narrow test of the pair or, failing that, the narrow test of the
    swapped pair made by the single retry, so both orders of the
    operands give the same answer.  With both velocities zero
    [Mesh::detectCollision] is exactly that retry: the swapped call with
    [try_inverse] off when it is on, and [false] when it is off. *)
Theorem detectCollision_swap_symmetry
  (this other : Mesh) (a va b vb p : vec) :
  (exists r, detectCollision E this other a va b vb p true = Some r)
  /\ (no_sweep this other va vb ->
      hit (detectCollision E this other a va b vb p true)
      = Some (narrow_hit this other a b || narrow_hit other this b a)
      /\ hit (detectCollision E this other a va b vb p true)
         = hit (detectCollision E other this b vb a va p true))
  /\ (zero va && zero vb = true ->
      forall (self : detect_t) (s : St),
        Mesh_detectCollision E self this other a va b vb true s
        = self other this b vb a va false s
        /\ Mesh_detectCollision E self this other a va b vb false s = Some (false, s)).
Proof.
  split; [|split].
  - unfold detectCollision.
    destruct (detectCollision_fuel_total (S (depth this other true)) this other a va b vb true
                {| point := p; trace := [] |}) as [r Hr]; [lia|]. eauto.
  - intros Hns.
    assert (Hns' : no_sweep other this vb va).
    { destruct Hns as [H|[H1 H2]]; [left|right; auto]. now rewrite andb_comm. }
    unfold detectCollision, depth.
    replace (2 * (sweepable this + sweepable other) + 1)%nat
      with (S (2 * (sweepable this + sweepable other)))%nat by lia.
    replace (2 * (sweepable other + sweepable this) + 1)%nat
      with (S (2 * (sweepable other + sweepable this)))%nat by lia.
    rewrite !detectCollision_fuel_no_sweep by assumption.
    split; [reflexivity|]. now rewrite orb_comm.
  - intros Hz self s. unfold Mesh_detectCollision. rewrite Hz. split; reflexivity.
Qed.

End WithExtern.

(** Once a swept shape is involved, whether the two orders agree is up
    to [collisionPointRectangle2D], which the header declares and does
    not define.  Two octagons of radius 1 move along the x axis: the
    first from x = 0 by 5, the second from x = 5.5 by 1.  Asked of the
    first, an edge of the swept rectangle of the first reaches the
    second octagon and the answer is yes.  Asked of the second, the
    retry is already spent when the first one's swept rectangle comes
    up, and the answer is that of [collisionPointRectangle2D] in
    [collisionRectangleCircle2D], which passes it a corner of the
    rectangle for the point and the centre of the circle for the fourth
    corner. *)
Definition mover_1 : Mesh := new_Polygon2D (Vec 0 0 0) 1 8 0.
Definition mover_2 : Mesh := new_Polygon2D (Vec 5.5 0 0) 1 8 0.

(** With the areas of the four triangles for "inside" the answers
    differ. *)
Example detectCollision_order_matters :
  hit (detectCollision sample_extern mover_1 mover_2
         (Vec 0 0 0) (Vec 5 0 0) (Vec 0 0 0) (Vec 1 0 0) (Vec 0 0 0) true) = Some true
  /\ hit (detectCollision sample_extern mover_2 mover_1
            (Vec 0 0 0) (Vec 1 0 0) (Vec 0 0 0) (Vec 5 0 0) (Vec 0 0 0) true) = Some false.
Proof. split; vm_compute; reflexivity. Qed.

(** Modelled from the spec: another reading of "the point lies inside
    the rectangle", which is the same on a rectangle: the point projects
    onto the two sides that meet at the bottom left corner within their
    lengths. *)
Definition projected_collisionPointRectangle2D
  (point rect_top_left rect_bottom_left rect_bottom_right rect_top_right : vec) : bool :=
  let within (side : vec) :=
    let t := dot (vsub point rect_bottom_left) side in
    (0 <=? t) && (t <=? norm2 side) in
  within (vsub rect_top_left rect_bottom_left)
  && within (vsub rect_bottom_right rect_bottom_left).

Definition projected_extern : Extern := {|
  atan2 := atan2 sample_extern;
  cos := cos sample_extern;
  sin := sin sample_extern;
  cos_add_DEG90 := cos_add_DEG90 sample_extern;
  sin_add_DEG90 := sin_add_DEG90 sample_extern;
  sub_DEG90 := sub_DEG90 sample_extern;
  collisionPointRectangle2D := projected_collisionPointRectangle2D;
  collisionRectangles2D := collisionRectangles2D sample_extern
|}.

(** With this reading the answers are the same. *)
Example detectCollision_order_by_reading :
  hit (detectCollision projected_extern mover_1 mover_2
         (Vec 0 0 0) (Vec 5 0 0) (Vec 0 0 0) (Vec 1 0 0) (Vec 0 0 0) true) = Some true
  /\ hit (detectCollision projected_extern mover_2 mover_1
            (Vec 0 0 0) (Vec 1 0 0) (Vec 0 0 0) (Vec 5 0 0) (Vec 0 0 0) true) = Some true.
Proof. split; vm_compute; reflexivity. Qed.

Example rectangles_symmetric_at_speed :
  let r1 := new_Rectangle2D sample_extern (Vec 0 1 0) 2 1 0 in
  let r2 := new_Rectangle2D sample_extern (Vec 1 1 0) 2 1 0 in
  hit (detectCollision sample_extern r1 r2
         (Vec 0 0 0) (Vec 5 0 0) (Vec 0 0 0) (Vec 0 0 0) (Vec 0 0 0) true) = Some true
  /\ hit (detectCollision sample_extern r2 r1
            (Vec 0 0 0) (Vec 0 0 0) (Vec 0 0 0) (Vec 5 0 0) (Vec 0 0 0) true) = Some true.
Proof. split; vm_compute; reflexivity. Qed.

Lemma detectCollision_swap_symmetry_witness :
  let r1 := new_Rectangle2D sample_extern (Vec 0 1 0) 2 1 0 in
  let r2 := new_Rectangle2D sample_extern (Vec 1 1 0) 2 1 0 in
  hit (detectCollision sample_extern r1 r2
         (Vec 0 0 0) (Vec 5 0 0) (Vec 0 0 0) (Vec 0 0 0) (Vec 0 0 0) true)
  = hit (detectCollision sample_extern r2 r1
           (Vec 0 0 0) (Vec 0 0 0) (Vec 0 0 0) (Vec 5 0 0) (Vec 0 0 0) true).
Proof.
  intros r1 r2.
  apply (proj1 (proj2 (detectCollision_swap_symmetry sample_extern r1 r2
                         (Vec 0 0 0) (Vec 5 0 0) (Vec 0 0 0) (Vec 0 0 0) (Vec 0 0 0)))).
  right. split; reflexivity.
Defined.

(** *** The contact point of two polygons *)

Section Polygons.

Variable E : Extern.

(** The narrow test of two polygons or circles at rest: it hits when
    the distance of the centres (position plus offset) is at most the sum
    of the radii, in either order of the operands, and the point it
    reports is half the sum of the two positions, without the offsets. *)
Lemma Polygon2D_static_narrow (this other : Mesh) (a va b vb p : vec) :
  sweepable this = 1%nat -> sweepable other = 1%nat ->
  zero va && zero vb = true ->
  exists q,
    detectCollision E this other a va b vb p true
    = Some (collisionSpheres (vadd a (getPosition this)) (getRadius this)
                             (vadd b (getPosition other)) (getRadius other)
            || collisionSpheres (vadd b (getPosition other)) (getRadius other)
                                (vadd a (getPosition this)) (getRadius this),
            {| point := q; trace := [] |})
    /\ (q = vscale_r (vadd (getPosition this) (getPosition other)) 0.5
        \/ q = vscale_r (vadd (getPosition other) (getPosition this)) 0.5).
Proof.
  intros Ht Ho Hz. unfold detectCollision, Mesh_detectCollision.
  assert (Hz' : zero vb && zero va = true) by now rewrite andb_comm.
  destruct this, other; try discriminate; simpl;
    unfold Polygon2D_detectCollision, Mesh_detectCollision; simpl; rewrite Hz; simpl;
    (destruct (collisionSpheres (vadd a _) _ (vadd b _) _); simpl; [eauto|]);
    unfold Polygon2D_detectCollision, Mesh_detectCollision; simpl; rewrite Hz'; simpl;
    (destruct (collisionSpheres (vadd b _) _ (vadd a _) _); simpl; eauto).
Qed.

(** C5 at the input where it fails.  Two octagons of radius 1, both at
    local position (0,0,0), placed by their offsets at (0,0,0) and
    (1.5,0,0), at rest: the centres are 1.5 apart, the test hits, and
    the point reported is (0,0,0), not the midpoint (0.75,0,0) of the
    centres. *)
Theorem Polygon2D_contact_point_ignores_offsets :
  let this := new_Polygon2D (Vec 0 0 0) 1 8 0 in
  let other := new_Polygon2D (Vec 0 0 0) 1 8 0 in
  let my_offset := Vec 0 0 0 in
  let other_offset := Vec 1.5 0 0 in
  detectCollision E this other my_offset (Vec 0 0 0) other_offset (Vec 0 0 0) (Vec 9 9 9) true
  = Some (true, {| point := Vec 0 0 0; trace := [] |})
  /\ distance (vadd my_offset (getPosition this)) (vadd other_offset (getPosition other)) = 1.5
  /\ vscale_r (vadd (vadd my_offset (getPosition this))
                    (vadd other_offset (getPosition other))) 0.5 = Vec 0.75 0 0.
Proof. repeat split. Qed.

(** The worked example of the spec, with the circles placed by their
    positions and no offsets. *)
Example unit_circles :
  detectCollision E (new_Sphere2D (Vec 0 0 0) 1) (new_Sphere2D (Vec 1.5 0 0) 1)
    (Vec 0 0 0) (Vec 0 0 0) (Vec 0 0 0) (Vec 0 0 0) (Vec 9 9 9) true
  = Some (true, {| point := Vec 0.75 0 0; trace := [] |})
  /\ detectCollision E (new_Sphere2D (Vec 0 0 0) 1) (new_Sphere2D (Vec 3 0 0) 1)
       (Vec 0 0 0) (Vec 0 0 0) (Vec 0 0 0) (Vec 0 0 0) (Vec 9 9 9) true
     = Some (false, {| point := Vec 1.5 0 0; trace := [] |}).
Proof. split; reflexivity. Qed.

End Polygons.

(** *** The continuous phase *)

Section Continuous.

Variable E : Extern.

Lemma zero_spec (v : vec) :
  zero v = (vx v =? 0) && (vy v =? 0) && (vz v =? 0).
Proof.
  unfold zero, truthy. destruct (vx v =? 0), (vy v =? 0), (vz v =? 0); reflexivity.
Qed.

(** C6.  [Mesh::detectCollision] asks for the receiver's swept shape (the
    first step of the continuous phase) exactly when one of the two
    velocities has a component that does not compare equal to zero; with
    both velocities zero the whole call asks for none.  The swept shape of
    a polygon or circle is the rectangle that starts one radius to the
    side of the centre (at the direction of the velocity plus a quarter
    turn), runs the length of the velocity along its direction and is two
    radii wide. *)
Theorem continuous_phase_gate (this other : Mesh) (a va b vb : vec) (ti : bool) (s : St) :
  let moving := negb ((vx va =? 0) && (vy va =? 0) && (vz va =? 0)
                      && ((vx vb =? 0) && (vy vb =? 0) && (vz vb =? 0))) in
  (exists h s',
      Mesh_detectCollision E (detectCollision_fuel E (depth this other ti))
        this other a va b vb ti s = Some (h, s')
      /\ (moving = false -> trace s' = trace s)
      /\ (moving = true ->
          exists rest,
            trace s' = trace s ++ EvSpace this va (getCollisionSpace E this va) :: rest))
  /\ (forall position radius angle sides speed,
        let theta := atan2 E (vy speed) (vx speed) in
        let corner := vadd position (Vec (radius * cos_add_DEG90 E theta)
                                         (radius * sin_add_DEG90 E theta) 0) in
        let along := Vec (norm speed * cos E theta) (norm speed * sin E theta) 0 in
        let across := Vec (radius * 2 * cos E (sub_DEG90 E theta))
                          (radius * 2 * sin E (sub_DEG90 E theta)) 0 in
        let swept := Rectangle2D corner (norm speed) (radius * 2) theta
                       (vadd corner along) (vadd corner across)
                       (vadd (vadd corner along) across) in
        getCollisionSpace E (Polygon2D position radius angle sides) speed = Some swept
        /\ getCollisionSpace E (Sphere2D position radius angle sides) speed = Some swept).
Proof.
  intros moving. split; [|intros; split; reflexivity].
  assert (Hm : moving = negb (zero va && zero vb)).
  { subst moving. now rewrite !zero_spec. }
  destruct (Mesh_detectCollision_total E (detectCollision_fuel E (depth this other ti))
              this other a va b vb ti s) as [[h s'] Hr].
  { apply detectCollision_fuel_total. }
  exists h, s'. split; [exact Hr|]. rewrite Hm. clear Hm moving.
  unfold Mesh_detectCollision in Hr.
  assert (Hretry : forall s0 l0, trace s0 = trace s ++ l0 ->
    (if ti then detectCollision_fuel E (depth this other ti) other this b vb a va false s0
     else Some (false, s0)) = Some (h, s') -> exists l, trace s' = trace s ++ l0 ++ l).
  { intros s0 l0 H0 H. destruct ti.
    - apply detectCollision_fuel_trace_grows in H as [l Hl]. exists l.
      now rewrite Hl, H0, app_assoc.
    - inversion H; subst. exists []. now rewrite app_nil_r. }
  destruct (negb (zero va && zero vb)) eqn:Hg; split; try discriminate; intros _.
  - destruct (getCollisionSpace E this va) as [ms|].
    2:{ eapply (Hretry _ [_]) in Hr as [l Hl]; [|reflexivity]. eauto. }
    destruct (detectCollision_fuel E _ ms other a (Vec 0 0 0) b vb ti _)
      as [[[] s2]|] eqn:H2; try discriminate.
    { inversion Hr; subst. apply detectCollision_fuel_trace_grows in H2 as [l Hl].
      simpl in *. eexists. rewrite Hl, <- !app_assoc. reflexivity. }
    apply detectCollision_fuel_trace_grows in H2 as [l2 Hl2]. simpl in Hl2.
    destruct (getCollisionSpace E other vb) as [os|].
    2:{ eapply (Hretry _ (_ :: _)) in Hr as [l Hl]; [eauto|].
        simpl. rewrite Hl2, <- !app_assoc. reflexivity. }
    destruct (detectCollision_fuel E _ ms os a (Vec 0 0 0) b (Vec 0 0 0) ti _)
      as [[[] s3]|] eqn:H3; try discriminate.
    { inversion Hr; subst. apply detectCollision_fuel_trace_grows in H3 as [l Hl].
      simpl in *. eexists. rewrite Hl, Hl2, <- !app_assoc. reflexivity. }
    apply detectCollision_fuel_trace_grows in H3 as [l3 Hl3]. simpl in Hl3.
    eapply (Hretry _ (_ :: _)) in Hr as [l Hl]; [eauto|].
    rewrite Hl3, Hl2, <- !app_assoc. reflexivity.
  - apply negb_false_iff in Hg. destruct ti.
    + eapply detectCollision_fuel_static_trace in Hr; [exact Hr|]. now rewrite andb_comm.
    + now inversion Hr.
Qed.

(** Exactly zero means zero of either sign; the smallest subnormal
    already counts as moving. *)
Example zero_exact :
  zero (Vec 0 (-0) 0) = true /\ zero (Vec 0 0x1p-1074 0) = false /\ zero (Vec nan 0 0) = false.
Proof. repeat split. Qed.

Example swept_shape_along_x :
  getCollisionSpace sample_extern (new_Sphere2D (Vec 5.5 0 0) 1) (Vec 1 0 0)
  = Some (Rectangle2D (Vec 5.5 1 0) 1 2 0 (Vec 6.5 1 0) (Vec 5.5 (-1) 0) (Vec 6.5 (-1) 0)).
Proof. vm_compute. reflexivity. Qed.

End Continuous.

Lemma continuous_phase_gate_witness :
  exists h s',
    Mesh_detectCollision sample_extern
      (detectCollision_fuel sample_extern (depth mover_1 mover_2 true))
      mover_1 mover_2 (Vec 0 0 0) (Vec 5 0 0) (Vec 0 0 0) (Vec 1 0 0) true
      {| point := Vec 0 0 0; trace := [] |} = Some (h, s')
    /\ exists rest,
         trace s' = EvSpace mover_1 (Vec 5 0 0)
                      (getCollisionSpace sample_extern mover_1 (Vec 5 0 0)) :: rest.
Proof.
  destruct (proj1 (continuous_phase_gate sample_extern mover_1 mover_2
                     (Vec 0 0 0) (Vec 5 0 0) (Vec 0 0 0) (Vec 1 0 0) true
                     {| point := Vec 0 0 0; trace := [] |}))
    as (h & s' & Hrun & _ & Hmoving).
  exists h, s'. split; [exact Hrun|]. apply Hmoving. reflexivity.
Defined.

End MeshTheory.

(** ** Properties of the entity tree *)

Module ObjectTheory.
Import Object.

Lemma bind_Ok {A B : Type} (r : result A) (f : A -> result B) (b : B) :
  bind r f = Ok b <-> exists a, r = Ok a /\ f a = Ok b.
Proof.
  destruct r; simpl; split; try (intros (a' & Ha & Hb)); try discriminate; eauto.
  inversion Ha; subst; assumption.
Qed.

Lemma deref_Ok (s : Scene) (p : ptr) (o : Object) :
  deref s p = Ok o <-> heap s !! p = Some o.
Proof.
  unfold deref. destruct (heap s !! p); split; intros Heq; inversion Heq; reflexivity.
Qed.

Lemma modify_Ok (p : ptr) (f : Object -> Object) (s : Scene) (o : Object) :
  heap s !! p = Some o ->
  modify p f s = Ok (mkScene (<[p := f o]> (heap s)) (invalid s) (marked s)).
Proof.
  intros Hp. unfold modify, deref. rewrite Hp. reflexivity.
Qed.

Lemma modify_inv (p : ptr) (f : Object -> Object) (s s' : Scene) :
  modify p f s = Ok s' ->
  exists o, heap s !! p = Some o
            /\ s' = mkScene (<[p := f o]> (heap s)) (invalid s) (marked s).
Proof.
  unfold modify. intros Hm. apply bind_Ok in Hm as (o & Ho & Hs).
  apply deref_Ok in Ho. inversion Hs; subst. eauto.
Qed.

Lemma isValid_true (s : Scene) (p : ptr) : isValid s p = true <-> p ∉ invalid s.
Proof. unfold isValid. apply bool_decide_eq_true. Qed.

Lemma isValid_false (s : Scene) (p : ptr) : isValid s p = false <-> p ∈ invalid s.
Proof.
  unfold isValid. rewrite bool_decide_eq_false. split; [|auto].
  intros Hn. destruct (decide (p ∈ invalid s)); [assumption|contradiction].
Qed.

(** *** Validity after construction *)

(** C10.  After the constructor has run at [this], [isValid] holds of
    [this], whatever the registry held before; in particular when the
    address is that of an object deleted earlier, which the destructor
    had entered into the registry. *)
Theorem construct_isValid
  (this : ptr) (_position : Mesh.vec) (_display : bool) (_mesh _background : ptr)
  (_speed _acceleration : Mesh.vec) (s : Scene) :
  isValid (construct this _position _display _mesh _background _speed _acceleration s) this
  = true
  /\ (forall s' : Scene,
        delete_Object this s = Ok s' ->
        isValid s' this = false
        /\ isValid (construct this _position _display _mesh _background _speed
                      _acceleration s') this = true).
Proof.
  split.
  - apply isValid_true. simpl. set_solver.
  - intros s' Hd. unfold delete_Object in Hd.
    apply bind_Ok in Hd as (o & _ & Hs). inversion Hs; subst.
    split; [apply isValid_false|apply isValid_true]; simpl; set_solver.
Qed.

Example construct_on_freed_address :
  let origin := Mesh.Vec 0 0 0 in
  let s := construct 7 origin true 70 71 origin origin (mkScene ∅ ∅ []) in
  exists s', delete_Object 7 s = Ok s'
             /\ isValid s' 7 = false
             /\ isValid (construct 7 origin true 72 73 origin origin s') 7 = true.
Proof. eexists. split; [reflexivity|]. split; vm_compute; reflexivity. Qed.

Lemma construct_isValid_witness :
  let origin := Mesh.Vec 0 0 0 in
  let s := construct 7 origin true 70 71 origin origin (mkScene ∅ ∅ []) in
  let s' := mkScene (delete 7%N (heap s)) ({[7%N]} ∪ invalid s) (marked s) in
  isValid s' 7 = false
  /\ isValid (construct 7 origin true 72 73 origin origin s') 7 = true.
Proof.
  intros origin s s'.
  apply (proj2 (construct_isValid 7 origin true 72 73 origin origin s) s').
  vm_compute. reflexivity.
Defined.

(** *** The tree invariant *)

Definition child_of (s : Scene) (p c : ptr) : Prop :=
  exists po, heap s !! p = Some po /\ c ∈ children po.

(** Every entity found in a child set is alive and its [parent] names
    the owner of that set; so it is in the child set of one entity at
    most. *)
Definition single_parent (s : Scene) : Prop :=
  forall p c, child_of s p c -> exists co, heap s !! c = Some co /\ parent co = p.

Definition acyclic (s : Scene) : Prop :=
  forall x, ~ tc (child_of s) x x.

Definition tree_inv (s : Scene) : Prop := single_parent s /\ acyclic s.

Definition detached (s : Scene) (c : ptr) : Prop := forall p, ~ child_of s p c.

Lemma single_parent_unique (s : Scene) (p q c : ptr) :
  single_parent s -> child_of s p c -> child_of s q c -> p = q.
Proof.
  intros Hs Hp Hq. destruct (Hs _ _ Hp) as (co & Hc & <-).
  destruct (Hs _ _ Hq) as (co' & Hc' & <-). congruence.
Qed.

(** The four operations of the claim. *)
Inductive op : Type :=
| AddChild (this obj : ptr)
| RemoveChild (this obj : ptr)
| SetParent (this obj : ptr)
| Destroy (this : ptr).

Definition run_op (o : op) (s : Scene) : result Scene :=
  match o with
  | AddChild this obj => addChild this obj s
  | RemoveChild this obj => removeChild this obj s
  | SetParent this obj => setParent this obj s
  | Destroy this => destroy this s
  end.

Fixpoint run_ops (l : list op) (s : Scene) : result Scene :=
  match l with
  | [] => Ok s
  | o :: l => let* s := run_op o s in run_ops l s
  end.

(** What the caller has to see to before an operation for the
    invariant to survive it: a child is attached only while it is in no
    child set and is not an ancestor of (or the same as) its new parent;
    a child is removed only from its own parent. *)
Definition attachable (s : Scene) (this obj : ptr) : Prop :=
  detached s obj /\ ~ rtc (child_of s) obj this.

Definition op_ok (s : Scene) (o : op) : Prop :=
  match o with
  | AddChild this obj => attachable s this obj
  | RemoveChild this obj => child_of s this obj \/ detached s obj
  | SetParent this obj =>
      forall o, heap s !! this = Some o -> attachable s (parent o) obj
  | Destroy _ => True
  end.

Fixpoint ops_ok (s : Scene) (l : list op) : Prop :=
  match l with
  | [] => True
  | o :: l => op_ok s o /\ forall s', run_op o s = Ok s' -> ops_ok s' l
  end.

Lemma elem_of_set_insert (x y : ptr) (l : list ptr) :
  x ∈ set_insert y l <-> x = y \/ x ∈ l.
Proof.
  unfold set_insert. case_bool_decide as Hy.
  - split; [auto|]. intros [->|Hx]; assumption.
  - apply elem_of_cons.
Qed.

Lemma elem_of_set_erase (x y : ptr) (l : list ptr) :
  x ∈ set_erase y l <-> x ≠ y /\ x ∈ l.
Proof.
  unfold set_erase. rewrite list_elem_of_filter. reflexivity.
Qed.

(** The scene after an [addChild] that took effect. *)
Lemma addChild_inv (this obj : ptr) (s s' : Scene) :
  addChild this obj s = Ok s' ->
  s' = s
  \/ exists oo ot,
      heap s !! obj = Some oo
      /\ <[obj := set_parent this oo]> (heap s) !! this = Some ot
      /\ s' = mkScene (<[this := set_children (set_insert obj (children ot)) ot]>
                         (<[obj := set_parent this oo]> (heap s)))
                      (invalid s) (marked s).
Proof.
  unfold addChild. destruct (isValid s this && isValid s obj).
  2:{ intros Heq. inversion Heq. now left. }
  intros Hb. apply bind_Ok in Hb as (s1 & H1 & Hb).
  apply modify_inv in H1 as (oo & Hoo & ->).
  apply bind_Ok in Hb as (ot & Hot & Hb). apply deref_Ok in Hot. simpl in Hot.
  apply modify_inv in Hb as (ot' & Hot' & ->). simpl in *.
  right. exists oo, ot. rewrite Hot in Hot'. inversion Hot'; subst. auto.
Qed.

Lemma removeChild_inv (this obj : ptr) (s s' : Scene) :
  removeChild this obj s = Ok s' ->
  s' = s
  \/ exists oo ot,
      heap s !! obj = Some oo
      /\ <[obj := set_parent NULL oo]> (heap s) !! this = Some ot
      /\ s' = mkScene (<[this := set_children (set_erase obj (children ot)) ot]>
                         (<[obj := set_parent NULL oo]> (heap s)))
                      (invalid s) (marked s).
Proof.
  unfold removeChild. destruct (isValid s this && isValid s obj).
  2:{ intros Heq. inversion Heq. now left. }
  intros Hb. apply bind_Ok in Hb as (s1 & H1 & Hb).
  apply modify_inv in H1 as (oo & Hoo & ->).
  apply bind_Ok in Hb as (ot & Hot & Hb). apply deref_Ok in Hot. simpl in Hot.
  apply modify_inv in Hb as (ot' & Hot' & ->). simpl in *.
  right. exists oo, ot. rewrite Hot in Hot'. inversion Hot'; subst. auto.
Qed.

(** The child relation after the two assignments of [addChild]. *)
Lemma child_of_addChild (this obj : ptr) (s : Scene) (oo ot : Object) (p c : ptr) :
  heap s !! obj = Some oo ->
  <[obj := set_parent this oo]> (heap s) !! this = Some ot ->
  child_of (mkScene (<[this := set_children (set_insert obj (children ot)) ot]>
                       (<[obj := set_parent this oo]> (heap s)))
                    (invalid s) (marked s)) p c
  <-> child_of s p c \/ (p = this /\ c = obj).
Proof.
  intros Hoo Hot. unfold child_of. simpl.
  assert (Hct : exists ot0, heap s !! this = Some ot0 /\ children ot0 = children ot).
  { destruct (decide (obj = this)) as [->|Hne].
    - rewrite lookup_insert_eq in Hot. inversion Hot; subst. eauto.
    - rewrite lookup_insert_ne in Hot by assumption. eauto. }
  destruct Hct as (ot0 & Hot0 & Hch).
  split.
  - intros (po & Hpo & Hc). destruct (decide (this = p)) as [->|Hne].
    + rewrite lookup_insert_eq in Hpo. inversion Hpo; subst. simpl in Hc.
      apply elem_of_set_insert in Hc as [->|Hc]; [now right|].
      left. exists ot0. rewrite Hch. auto.
    + rewrite lookup_insert_ne in Hpo by assumption.
      left. destruct (decide (obj = p)) as [->|Hne'].
      * rewrite lookup_insert_eq in Hpo. inversion Hpo; subst. eauto.
      * rewrite lookup_insert_ne in Hpo by assumption. eauto.
  - intros [(po & Hpo & Hc)|[-> ->]].
    + destruct (decide (this = p)) as [->|Hne].
      * rewrite lookup_insert_eq. eexists. split; [reflexivity|]. simpl.
        apply elem_of_set_insert. right. congruence.
      * rewrite lookup_insert_ne by assumption.
        destruct (decide (obj = p)) as [->|Hne'].
        -- rewrite lookup_insert_eq. eexists. split; [reflexivity|].
           simpl. congruence.
        -- rewrite lookup_insert_ne by assumption. eauto.
    + rewrite lookup_insert_eq. eexists. split; [reflexivity|]. simpl.
      apply elem_of_set_insert. now left.
Qed.

Lemma child_of_removeChild (this obj : ptr) (s : Scene) (oo ot : Object) (p c : ptr) :
  heap s !! obj = Some oo ->
  <[obj := set_parent NULL oo]> (heap s) !! this = Some ot ->
  child_of (mkScene (<[this := set_children (set_erase obj (children ot)) ot]>
                       (<[obj := set_parent NULL oo]> (heap s)))
                    (invalid s) (marked s)) p c
  <-> child_of s p c /\ ~ (p = this /\ c = obj).
Proof.
  intros Hoo Hot. unfold child_of. simpl.
  assert (Hct : exists ot0, heap s !! this = Some ot0 /\ children ot0 = children ot).
  { destruct (decide (obj = this)) as [->|Hne].
    - rewrite lookup_insert_eq in Hot. inversion Hot; subst. eauto.
    - rewrite lookup_insert_ne in Hot by assumption. eauto. }
  destruct Hct as (ot0 & Hot0 & Hch).
  split.
  - intros (po & Hpo & Hc). destruct (decide (this = p)) as [->|Hne].
    + rewrite lookup_insert_eq in Hpo. inversion Hpo; subst. simpl in Hc.
      apply elem_of_set_erase in Hc as [Hne Hc].
      split; [|intros [_ ?]; contradiction].
      exists ot0. rewrite Hch. auto.
    + rewrite lookup_insert_ne in Hpo by assumption.
      split; [|intros [? _]; congruence].
      destruct (decide (obj = p)) as [->|Hne'].
      * rewrite lookup_insert_eq in Hpo. inversion Hpo; subst. eauto.
      * rewrite lookup_insert_ne in Hpo by assumption. eauto.
  - intros [(po & Hpo & Hc) Hn].
    destruct (decide (this = p)) as [->|Hne].
    + rewrite lookup_insert_eq. eexists. split; [reflexivity|]. simpl.
      apply elem_of_set_erase. split; [|congruence].
      intros ->. apply Hn. auto.
    + rewrite lookup_insert_ne by assumption.
      destruct (decide (obj = p)) as [->|Hne'].
      * rewrite lookup_insert_eq. eexists. split; [reflexivity|].
        simpl. congruence.
      * rewrite lookup_insert_ne by assumption. eauto.
Qed.

(** A path in a relation with one more edge either avoids the new edge
    or runs through its two ends. *)
Lemma tc_extra_edge (R R' : relation ptr) (a b : ptr) :
  (forall x y, R' x y -> R x y \/ (x = a /\ y = b)) ->
  forall x y, tc R' x y -> tc R x y \/ (rtc R x a /\ rtc R b y).
Proof.
  intros HR x y Htc. induction Htc as [x y Hxy|x y z Hxy Hyz IH].
  - destruct (HR _ _ Hxy) as [Hr|[-> ->]]; [left; now apply tc_once|right; split; constructor].
  - destruct (HR _ _ Hxy) as [Hr|[-> ->]].
    + destruct IH as [IH|[IH1 IH2]].
      * left. eapply tc_l; eauto.
      * right. split; [|assumption]. eapply rtc_l; eauto.
    + right. split; [constructor|].
      destruct IH as [IH|[IH1 IH2]]; [now apply tc_rtc|assumption].
Qed.

Lemma tc_sub (R R' : relation ptr) :
  (forall x y, R' x y -> R x y) -> forall x y, tc R' x y -> tc R x y.
Proof.
  intros HR x y Htc. induction Htc as [x y Hxy|x y z Hxy Hyz IH].
  - apply tc_once. auto.
  - eapply tc_l; eauto.
Qed.

Lemma addChild_tree_inv (this obj : ptr) (s s' : Scene) :
  tree_inv s -> attachable s this obj -> addChild this obj s = Ok s' -> tree_inv s'.
Proof.
  intros [Hsp Hac] [Hdet Hanc] Hadd.
  apply addChild_inv in Hadd as [->|(oo & ot & Hoo & Hot & ->)]; [now split|].
  pose proof (fun p c => child_of_addChild this obj s oo ot p c Hoo Hot) as Hch.
  split.
  - intros p c Hpc. apply Hch in Hpc as [Hpc|[-> ->]].
    + destruct (Hsp _ _ Hpc) as (co & Hco & Hpar). simpl.
      assert (c ≠ obj) by (intros ->; exact (Hdet _ Hpc)).
      destruct (decide (this = c)) as [->|Hne].
      * rewrite lookup_insert_eq. eexists. split; [reflexivity|]. simpl.
        rewrite lookup_insert_ne in Hot by auto. congruence.
      * rewrite lookup_insert_ne by assumption.
        rewrite lookup_insert_ne by auto. eauto.
    + simpl. destruct (decide (this = obj)) as [->|Hne].
      * exfalso. apply Hanc. constructor.
      * rewrite lookup_insert_ne by assumption. rewrite lookup_insert_eq.
        eexists. split; reflexivity.
  - intros x Hx.
    apply (tc_extra_edge (child_of s) _ this obj) in Hx.
    + destruct Hx as [Hx|[Hx1 Hx2]]; [exact (Hac _ Hx)|].
      apply Hanc. etransitivity; eassumption.
    + intros p c Hpc. apply Hch in Hpc. assumption.
Qed.

Lemma removeChild_tree_inv (this obj : ptr) (s s' : Scene) :
  tree_inv s -> child_of s this obj \/ detached s obj ->
  removeChild this obj s = Ok s' -> tree_inv s'.
Proof.
  intros [Hsp Hac] Hpre Hrem.
  apply removeChild_inv in Hrem as [->|(oo & ot & Hoo & Hot & ->)]; [now split|].
  pose proof (fun p c => child_of_removeChild this obj s oo ot p c Hoo Hot) as Hch.
  split.
  - intros p c Hpc. apply Hch in Hpc as [Hpc Hn].
    destruct (Hsp _ _ Hpc) as (co & Hco & Hpar). simpl.
    assert (c ≠ obj).
    { intros ->. destruct Hpre as [Hpre|Hpre]; [|exact (Hpre _ Hpc)].
      apply Hn. split; [|reflexivity]. eapply single_parent_unique; eauto. }
    destruct (decide (this = c)) as [->|Hne].
    + rewrite lookup_insert_eq. eexists. split; [reflexivity|]. simpl.
      rewrite lookup_insert_ne in Hot by auto. congruence.
    + rewrite lookup_insert_ne by assumption.
      rewrite lookup_insert_ne by auto. eauto.
  - intros x Hx. apply (Hac x). revert Hx. apply tc_sub.
    intros p c Hpc. apply Hch in Hpc as [Hpc _]. assumption.
Qed.

Lemma destroy_child_of (this : ptr) (s s' : Scene) (p c : ptr) :
  destroy this s = Ok s' -> child_of s' p c <-> child_of s p c.
Proof.
  unfold destroy. intros Hd. apply bind_Ok in Hd as (s1 & H1 & Hd).
  apply modify_inv in H1 as (o & Ho & ->). inversion Hd; subst; clear Hd.
  unfold child_of. simpl. destruct (decide (this = p)) as [->|Hne].
  - rewrite lookup_insert_eq. split; intros (po & Hpo & Hc).
    + inversion Hpo; subst. eauto.
    + rewrite Ho in Hpo. inversion Hpo; subst. eexists. split; [reflexivity|assumption].
  - rewrite lookup_insert_ne by assumption. reflexivity.
Qed.

Lemma destroy_tree_inv (this : ptr) (s s' : Scene) :
  tree_inv s -> destroy this s = Ok s' -> tree_inv s'.
Proof.
  intros [Hsp Hac] Hd. pose proof (fun p c => destroy_child_of this s s' p c Hd) as Hch.
  split.
  - intros p c Hpc. apply Hch in Hpc. destruct (Hsp _ _ Hpc) as (co & Hco & Hpar).
    unfold destroy in Hd. apply bind_Ok in Hd as (s1 & H1 & Hd).
    apply modify_inv in H1 as (o & Ho & ->). inversion Hd; subst; clear Hd. simpl.
    destruct (decide (this = c)) as [->|Hne].
    + rewrite lookup_insert_eq. eexists. split; [reflexivity|]. simpl. congruence.
    + rewrite lookup_insert_ne by assumption. eauto.
  - intros x Hx. apply (Hac x). revert Hx. apply tc_sub. intros p c. apply Hch.
Qed.

Lemma run_op_tree_inv (o : op) (s s' : Scene) :
  tree_inv s -> op_ok s o -> run_op o s = Ok s' -> tree_inv s'.
Proof.
  destruct o as [this obj|this obj|this obj|this]; simpl; intros Hinv Hok Hrun.
  - eapply addChild_tree_inv; eauto.
  - eapply removeChild_tree_inv; eauto.
  - unfold setParent in Hrun. destruct (isValid s this && isValid s obj).
    + apply bind_Ok in Hrun as (ot & Hot & Hrun). apply deref_Ok in Hot.
      eapply addChild_tree_inv; eauto.
    + inversion Hrun; subst. assumption.
  - eapply destroy_tree_inv; eauto.
Qed.

(** C9, as the code has it.  The operations keep the tree invariant
    when each [addChild] (and the [addChild] that [setParent] makes on
    the parent of its receiver) attaches an entity that is in no child
    set and is not the new parent or one of its ancestors, and each
    [removeChild] takes an entity from its own parent (or one that is in
    no child set); [destroy] always keeps it. *)
Theorem tree_inv_preserved (l : list op) (s s' : Scene) :
  tree_inv s -> ops_ok s l -> run_ops l s = Ok s' -> tree_inv s'.
Proof.
  revert s. induction l as [|o l IH]; simpl; intros s Hinv Hok Hrun.
  - inversion Hrun; subst. assumption.
  - destruct Hok as [Ho Hl]. apply bind_Ok in Hrun as (s1 & H1 & Hrun).
    apply (IH s1); [|apply Hl|]; eauto using run_op_tree_inv.
Qed.

(** Three entities, freshly constructed at the addresses 1, 2 and 3. *)
Definition origin : Mesh.vec := Mesh.Vec 0 0 0.

Definition three_objects : Scene :=
  construct 3 origin true 30 31 origin origin
    (construct 2 origin true 20 21 origin origin
       (construct 1 origin true 10 11 origin origin (mkScene ∅ ∅ []))).

(** The scene a computation ends in ([three_objects] if it does not). *)
Definition scene_of (r : result Scene) : Scene :=
  match r with Ok s => s | _ => three_objects end.

Definition links_at (s : Scene) (p : ptr) : option (ptr * list ptr) :=
  (fun o => (parent o, children o)) <$> heap s !! p.

Lemma child_of_links (s : Scene) (p c : ptr) :
  child_of s p c <-> exists q l, links_at s p = Some (q, l) /\ c ∈ l.
Proof.
  unfold child_of, links_at. split.
  - intros (po & -> & Hc). simpl. eauto.
  - intros (q & l & Hl & Hc). destruct (heap s !! p) as [po|]; [|discriminate].
    simpl in Hl. inversion Hl; subst. eauto.
Qed.

Lemma no_children_tree_inv (s : Scene) :
  (forall p po, heap s !! p = Some po -> children po = []) -> tree_inv s.
Proof.
  intros Hno.
  assert (Hnone : forall p c, ~ child_of s p c).
  { intros p c (po & Hpo & Hc). rewrite (Hno _ _ Hpo) in Hc. inversion Hc. }
  split.
  - intros p c Hpc. destruct (Hnone _ _ Hpc).
  - intros x Hx. destruct Hx as [x y Hxy|x y z Hxy _]; exact (Hnone _ _ Hxy).
Qed.

Lemma three_objects_no_children (p : ptr) (po : Object) :
  heap three_objects !! p = Some po -> children po = [].
Proof.
  unfold three_objects, construct. simpl. intros Hp.
  repeat (apply lookup_insert_Some in Hp as [[<- <-]|[? Hp]]; [reflexivity|]).
  rewrite lookup_empty in Hp. discriminate.
Qed.

Lemma three_objects_tree_inv : tree_inv three_objects.
Proof. apply no_children_tree_inv, three_objects_no_children. Qed.

(** C9 as stated fails: entity 3 is attached to 1 and then to 2.  It
    ends up in the child sets of both, with 2 as its [parent]. *)
Lemma addChild_twice_two_parents :
  tree_inv three_objects
  /\ exists s', run_ops [AddChild 1 3; AddChild 2 3] three_objects = Ok s'
                /\ child_of s' 1 3 /\ child_of s' 2 3
                /\ ~ tree_inv s'.
Proof.
  split; [exact three_objects_tree_inv|].
  exists (scene_of (run_ops [AddChild 1 3; AddChild 2 3] three_objects)).
  split; [vm_compute; reflexivity|].
  assert (H1 : child_of (scene_of (run_ops [AddChild 1 3; AddChild 2 3] three_objects)) 1 3).
  { apply child_of_links. exists 0%N, [3%N]. split; [vm_compute; reflexivity|].
    apply list_elem_of_here. }
  split; [exact H1|]. split.
  { apply child_of_links. exists 0%N, [3%N]. split; [vm_compute; reflexivity|].
    apply list_elem_of_here. }
  intros [Hsp _]. destruct (Hsp _ _ H1) as (co & Hco & Hpar).
  assert (Hl : links_at (scene_of (run_ops [AddChild 1 3; AddChild 2 3] three_objects)) 3
               = Some (2%N, [])) by (vm_compute; reflexivity).
  unfold links_at in Hl. rewrite Hco in Hl. simpl in Hl. inversion Hl. congruence.
Qed.

(** Nor is the relation acyclic by construction: an entity can be
    attached to itself. *)
Example addChild_self_cycle :
  exists s', run_ops [AddChild 1 1] three_objects = Ok s' /\ ~ acyclic s'.
Proof.
  exists (scene_of (run_ops [AddChild 1 1] three_objects)).
  split; [vm_compute; reflexivity|].
  intros Hac. apply (Hac 1%N). apply tc_once. apply child_of_links.
  exists 1%N, [1%N]. split; [vm_compute; reflexivity|]. apply list_elem_of_here.
Qed.

Lemma three_objects_rtc (x y : ptr) : rtc (child_of three_objects) x y -> x = y.
Proof.
  intros Hr. destruct Hr as [|x y z Hxy _]; [reflexivity|].
  destruct Hxy as (po & Hpo & Hc).
  rewrite (three_objects_no_children _ _ Hpo) in Hc. inversion Hc.
Qed.

Lemma tree_inv_preserved_witness :
  tree_inv (scene_of (run_ops [AddChild 1 2; Destroy 2] three_objects)).
Proof.
  apply (tree_inv_preserved [AddChild 1 2; Destroy 2] three_objects).
  - exact three_objects_tree_inv.
  - simpl. split.
    + split.
      * intros p (po & Hpo & Hc).
        rewrite (three_objects_no_children _ _ Hpo) in Hc. inversion Hc.
      * intros Hr. apply three_objects_rtc in Hr. discriminate.
    + intros s' _. split; [exact I|]. intros _ _. exact I.
  - vm_compute. reflexivity.
Defined.

(** *** Sibling collisions *)

Definition entity (_collider : ptr) (_children : list ptr) (_parent : ptr) : Object :=
  mkObject true 0 _collider 0 _children _parent origin origin origin.

(** A container 1 whose child set hands out 2, then 3; entity 2 is
    given a collider, entity 3 has none. *)
Definition one_collider : Scene :=
  mkScene (<[1%N := entity NULL [2%N; 3%N] NULL]>
             (<[2%N := entity 25 [] 1]> (<[3%N := entity NULL [] 1]> ∅)))
          ∅ [].

(** A scene that no run of the program builds, since nothing assigns
    the private member [collider]: were entity 2 given a collider, the
    pair (2, 3) would be tested although entity 3 has none, because the
    scan checks the first entity of a pair only. *)
Example detectCollisions_tests_unchecked_partner (H : Hooks) :
  collides one_collider 2 = Ok true
  /\ collides one_collider 3 = Ok false
  /\ detectCollisions H 1 (mkWorld one_collider true [])
     = Ok (mkWorld one_collider true [EvDetectCollision 2 3]).
Proof. repeat split. Qed.

Definition is_test (e : Event) : Prop :=
  match e with EvDetectCollision _ _ => True | _ => False end.

Lemma for_each_detect_with (H : Hooks) (child : ptr) (l : list ptr) (w : World) :
  for_each l (detect_with H child) w
  = Ok (mkWorld (scene w) (destroy_shared w)
                (log w ++ map (EvDetectCollision child) l)).
Proof.
  revert w. induction l as [|x l IH]; intros w; simpl.
  - rewrite app_nil_r. now destruct w.
  - unfold detect_with at 1. simpl. rewrite IH. simpl.
    now rewrite <- app_assoc.
Qed.

(** Whatever the children, [detectCollisions] only runs tests: the pair
    test of the source answers [false], so no collision hook is called
    and the scene stays as it is. *)
Lemma detectCollisions_only_tests (H : Hooks) (this : ptr) (w w' : World) :
  detectCollisions H this w = Ok w' ->
  scene w' = scene w /\ destroy_shared w' = destroy_shared w
  /\ exists l, log w' = log w ++ l /\ Forall is_test l.
Proof.
  unfold detectCollisions. intros Hd. apply bind_Ok in Hd as (o & _ & Hd).
  revert w Hd. induction (children o) as [|child rest IH]; intros w Hd; simpl in Hd.
  - inversion Hd; subst. repeat split. exists []. now rewrite app_nil_r.
  - apply bind_Ok in Hd as (w1 & H1 & Hd). apply IH in Hd as (Hs & Hf & l & Hl & Hall).
    assert (Hw1 : scene w1 = scene w /\ destroy_shared w1 = destroy_shared w
                  /\ exists l1, log w1 = log w ++ l1 /\ Forall is_test l1).
    { destruct (isValid (scene w) child).
      2:{ inversion H1; subst. repeat split. exists []. now rewrite app_nil_r. }
      apply bind_Ok in H1 as (c & _ & H1). destruct c.
      2:{ inversion H1; subst. repeat split. exists []. now rewrite app_nil_r. }
      rewrite for_each_detect_with in H1. inversion H1; subst. simpl.
      repeat split. eexists. split; [reflexivity|].
      apply Forall_forall. intros e He. apply list_elem_of_fmap in He as (x & -> & _).
      exact I. }
    destruct Hw1 as (Hs1 & Hf1 & l1 & Hl1 & Hall1).
    repeat split; try congruence.
    exists (l1 ++ l). split; [|now apply Forall_app].
    rewrite Hl, Hl1. now rewrite app_assoc.
Qed.

(** *** Scenes on which the sweep is safe *)

(** An address is known when an object is alive there or the registry
    lists it. *)
Definition known (s : Scene) (p : ptr) : Prop := p ∈ dom (heap s) \/ p ∈ invalid s.

Definition parent_known (s : Scene) (o : ptr) : Prop :=
  match heap s !! o with
  | Some oo => known s (parent oo)
  | None => True
  end.

(** - no object alive is listed as invalid;
    - every entity in a child set is alive and names the owner of the
      set as its parent;
    - every marked address is known, and so is the parent of every
      marked entity that is alive. *)
Definition sound (s : Scene) : Prop :=
  map_Forall (fun p _ => p ∉ invalid s) (heap s)
  /\ map_Forall (fun p po => Forall (fun c => parent <$> heap s !! c = Some p) (children po))
                (heap s)
  /\ Forall (known s) (marked s)
  /\ Forall (parent_known s) (marked s).

#[local] Instance known_dec (s : Scene) (p : ptr) : Decision (known s p).
Proof. unfold known. apply _. Defined.

#[local] Instance parent_known_dec (s : Scene) (o : ptr) : Decision (parent_known s o).
Proof. unfold parent_known. destruct (heap s !! o); apply _. Defined.


Lemma sound_live (s : Scene) (p : ptr) :
  sound s -> p ∈ dom (heap s) -> p ∉ invalid s.
Proof.
  intros (Hl & _) Hp. apply elem_of_dom in Hp as [o Ho]. exact (Hl _ _ Ho).
Qed.

Lemma sound_children (s : Scene) (p c : ptr) (po : Object) :
  sound s -> heap s !! p = Some po -> c ∈ children po ->
  exists co, heap s !! c = Some co /\ parent co = p.
Proof.
  intros (_ & Hc & _) Hp Hin. specialize (Hc _ _ Hp). simpl in Hc.
  rewrite Forall_forall in Hc. specialize (Hc _ Hin).
  destruct (heap s !! c) as [co|]; [|discriminate]. simpl in Hc.
  inversion Hc. eauto.
Qed.

(** The members of an object other than [display]. *)
Definition undisplayed (o : Object) : Object := set_display true o.

Definition same_but_display (h h' : gmap ptr Object) : Prop :=
  forall p, undisplayed <$> h' !! p = undisplayed <$> h !! p.

Lemma same_but_display_lookup (h h' : gmap ptr Object) (p : ptr) (o : Object) :
  same_but_display h h' -> h !! p = Some o ->
  exists o', h' !! p = Some o' /\ undisplayed o' = undisplayed o.
Proof.
  intros Hs Hp. specialize (Hs p). rewrite Hp in Hs.
  destruct (h' !! p) as [o'|]; [|discriminate]. simpl in Hs.
  exists o'. split; [reflexivity|congruence].
Qed.

Lemma undisplayed_fields (o o' : Object) :
  undisplayed o' = undisplayed o ->
  parent o' = parent o /\ children o' = children o
  /\ mesh o' = mesh o /\ background o' = background o.
Proof.
  destruct o, o'. unfold undisplayed, set_display. simpl. intros Heq.
  inversion Heq; subst. auto.
Qed.

Lemma modify_alter (p : ptr) (f : Object -> Object) (s s' : Scene) :
  modify p f s = Ok s' ->
  s' = mkScene (alter f p (heap s)) (invalid s) (marked s).
Proof.
  intros Hm. apply modify_inv in Hm as (o & Ho & ->). f_equal.
  apply map_eq. intros q. rewrite lookup_alter. destruct (decide (p = q)) as [->|Hne].
  - rewrite lookup_insert_eq, Ho. reflexivity.
  - rewrite lookup_insert_ne by assumption. reflexivity.
Qed.

Lemma modify_Ok_alter (p : ptr) (f : Object -> Object) (s : Scene) :
  p ∈ dom (heap s) ->
  modify p f s = Ok (mkScene (alter f p (heap s)) (invalid s) (marked s)).
Proof.
  intros Hp. apply elem_of_dom in Hp as [o Ho].
  pose proof (modify_Ok p f s o Ho) as Hm. rewrite Hm. f_equal.
  now apply modify_alter in Hm.
Qed.

Lemma destroy_Ok_alter (this : ptr) (s : Scene) :
  this ∈ dom (heap s) ->
  destroy this s
  = Ok (mkScene (alter (set_display false) this (heap s)) (invalid s) (this :: marked s)).
Proof.
  intros Hp. unfold destroy. rewrite (modify_Ok_alter _ _ _ Hp). reflexivity.
Qed.

(** The cascade: [destroy] on every child in turn. *)
Lemma for_each_destroy (cs : list ptr) (w : World) :
  Forall (fun c => c ∈ dom (heap (scene w))) cs ->
  exists h',
    for_each cs (fun child w => lift (destroy child) (emit (EvDestroy child) w)) w
    = Ok (mkWorld (mkScene h' (invalid (scene w)) (rev cs ++ marked (scene w)))
                  (destroy_shared w) (log w ++ map EvDestroy cs))
    /\ same_but_display (heap (scene w)) h'.
Proof.
  revert w. induction cs as [|c cs IH]; intros w Hall.
  - exists (heap (scene w)). simpl. rewrite app_nil_r. destruct w as [[h i m] d l].
    split; [reflexivity|]. intros p. reflexivity.
  - apply Forall_cons in Hall as [Hc Hall]. simpl.
    unfold lift at 1. cbn [scene emit]. rewrite (destroy_Ok_alter _ _ Hc). cbn [bind].
    match goal with |- context [for_each cs _ ?w1] => destruct (IH w1) as (h' & Heq & Hsim) end.
    { simpl. eapply Forall_impl; [exact Hall|]. simpl. intros x Hx.
      apply elem_of_dom. rewrite lookup_alter. apply elem_of_dom in Hx as [ox Hox].
      destruct (decide (c = x)) as [->|]; rewrite Hox; eauto. }
    exists h'. cbn [scene destroy_shared log heap invalid marked] in *.
    rewrite Heq. simpl. split.
    + rewrite <- !app_assoc. reflexivity.
    + intros p. rewrite (Hsim p). simpl. rewrite lookup_alter.
      destruct (decide (c = p)) as [->|]; [|reflexivity].
      destruct (heap (scene w) !! p) as [o|]; [|reflexivity]. simpl.
      now destruct o.
Qed.

(** How [removeParent] on [obj] leaves each object: [obj] is erased from
    its child set, and nothing else about it changes, except that [obj]
    itself may lose its parent. *)
Definition detached_from (obj : ptr) (h h2 : gmap ptr Object) : Prop :=
  forall p,
    match h !! p, h2 !! p with
    | Some po, Some po2 =>
        children po2 = set_erase obj (children po)
        /\ (p ≠ obj -> parent po2 = parent po)
        /\ mesh po2 = mesh po /\ background po2 = background po
    | None, None => True
    | _, _ => False
    end.

Lemma set_erase_absent (x : ptr) (l : list ptr) : x ∉ l -> set_erase x l = l.
Proof.
  intros Hx. unfold set_erase. induction l as [|y l IH]; [reflexivity|].
  apply not_elem_of_cons in Hx as [Hne Hx]. rewrite filter_cons.
  destruct (decide (y ≠ x)) as [_|Heq]; [now rewrite IH|].
  exfalso. apply Heq. congruence.
Qed.

(** In a sound scene only the parent of [obj] can have it as a child. *)
Lemma sound_child_parent (s : Scene) (obj p : ptr) (oo po : Object) :
  sound s -> heap s !! obj = Some oo -> heap s !! p = Some po ->
  obj ∈ children po -> p = parent oo.
Proof.
  intros Hs Ho Hp Hin. destruct (sound_children _ _ _ _ Hs Hp Hin) as (co & Hco & <-).
  congruence.
Qed.

Lemma removeParent_sound (obj : ptr) (s : Scene) (oo : Object) :
  sound s -> heap s !! obj = Some oo -> obj ∉ invalid s -> known s (parent oo) ->
  exists h2,
    removeParent obj s = Ok (mkScene h2 (invalid s) (marked s))
    /\ detached_from obj (heap s) h2.
Proof.
  intros Hs Ho Hv Hk. unfold removeParent.
  rewrite (proj2 (isValid_true s obj) Hv). unfold deref at 1. rewrite Ho. cbn [bind].
  destruct (isValid s (parent oo)) eqn:HvP.
  - apply isValid_true in HvP. destruct Hk as [Hk|Hk]; [|contradiction].
    unfold removeChild.
    rewrite (proj2 (isValid_true s _) HvP), (proj2 (isValid_true s obj) Hv). cbn [andb].
    rewrite (modify_Ok_alter obj); [|apply elem_of_dom; eauto]. cbn [bind].
    unfold deref. cbn [heap].
    assert (HP : exists ot pp,
               alter (set_parent NULL) obj (heap s) !! parent oo = Some ot
               /\ heap s !! parent oo = Some pp
               /\ children ot = children pp /\ mesh ot = mesh pp
               /\ background ot = background pp
               /\ (parent oo ≠ obj -> parent ot = parent pp)).
    { apply elem_of_dom in Hk as [pp Hpp]. rewrite lookup_alter.
      destruct (decide (obj = parent oo)) as [Heq|Hne].
      - rewrite Ho. rewrite <- Heq, Ho in Hpp. inversion Hpp; subst pp.
        exists (set_parent NULL oo), oo. rewrite <- Heq, Ho. simpl.
        repeat split. intros Hcontra. congruence.
      - exists pp, pp. rewrite Hpp. repeat split. }
    destruct HP as (ot & pp & Hot & Hpp & Hch & Hme & Hba & Hpa). rewrite Hot. cbn [bind].
    rewrite modify_Ok_alter; [|apply elem_of_dom; cbn [heap]; eauto].
    cbn [heap invalid marked]. eexists. split; [reflexivity|].
    intros p. rewrite lookup_alter.
    destruct (decide (parent oo = p)) as [HPp|HPp].
    + subst p. rewrite Hot, Hpp. simpl. rewrite Hch. repeat split; assumption.
    + rewrite lookup_alter. destruct (decide (obj = p)) as [Heq|Hne].
      * subst p. rewrite Ho. simpl. split; [|repeat split].
        -- symmetry. apply set_erase_absent. intros Hin. apply HPp. symmetry.
           eapply sound_child_parent; eauto.
        -- intros Hcontra. congruence.
      * destruct (heap s !! p) as [po|] eqn:Hp; [|exact I].
        repeat split. symmetry. apply set_erase_absent. intros Hin. apply HPp. symmetry.
        eapply sound_child_parent; eauto.
  - apply isValid_false in HvP. exists (heap s). split; [now destruct s|].
    intros p. destruct (heap s !! p) as [po|] eqn:Hp; [|exact I].
    repeat split. symmetry. apply set_erase_absent. intros Hin.
    pose proof (sound_child_parent _ _ _ _ _ Hs Ho Hp Hin) as ->.
    apply (sound_live s (parent oo) Hs); [|exact HvP]. apply elem_of_dom. eauto.
Qed.

(** *** One round of the sweep *)

(** Teardown hooks that leave the scene alone, as those of [Object] do. *)
Definition quiet_teardown (H : Hooks) : Prop :=
  forall obj s, beforeDestroy H obj s = Ok s /\ afterDestroy H obj s = Ok s.

(** The events of one teardown, in their order. *)
Definition teardown_log (obj : ptr) (cs : list ptr) (oo : Object) : list Event :=
  [EvBeforeDestroy obj; EvRemoveParent obj]
  ++ map EvDestroy cs
  ++ [EvDeleteBackground (background oo); EvDeleteMesh (mesh oo);
      EvInvalidInsert obj; EvAfterDestroy obj; EvDeleteObject obj].

Lemma virtual_call_quiet (obj : ptr) (body : Scene -> result Scene) (w : World) :
  obj ∈ dom (heap (scene w)) -> body (scene w) = Ok (scene w) ->
  virtual_call obj body w = Ok w.
Proof.
  intros Ho Hb. apply elem_of_dom in Ho as [oo Ho].
  unfold virtual_call, lift, deref. rewrite Ho. cbn [bind]. rewrite Hb.
  now destruct w.
Qed.

Lemma sound_pop (h : gmap ptr Object) (i : gset ptr) (obj : ptr) (rest : list ptr) :
  sound (mkScene h i (obj :: rest)) ->
  sound (mkScene h i rest)
  /\ known (mkScene h i rest) obj /\ parent_known (mkScene h i rest) obj.
Proof.
  intros (Hl & Hc & Hm & Hp). simpl in *.
  apply Forall_cons in Hm as [Hm1 Hm]. apply Forall_cons in Hp as [Hp1 Hp].
  repeat split; assumption.
Qed.

Lemma teardown_sound (H : Hooks) (obj : ptr) (rest : list ptr) (w : World) (oo : Object) :
  quiet_teardown H ->
  sound (mkScene (heap (scene w)) (invalid (scene w)) (obj :: rest)) ->
  marked (scene w) = rest ->
  obj ∉ invalid (scene w) ->
  heap (scene w) !! obj = Some oo ->
  exists h',
    teardown H obj w
    = Ok (mkWorld (mkScene h' ({[obj]} ∪ ({[obj]} ∪ invalid (scene w)))
                           (rev (set_erase obj (children oo)) ++ rest))
                  (destroy_shared w)
                  (log w ++ teardown_log obj (set_erase obj (children oo)) oo))
    /\ dom h' = dom (heap (scene w)) ∖ {[obj]}
    /\ sound (mkScene h' ({[obj]} ∪ ({[obj]} ∪ invalid (scene w)))
                      (rev (set_erase obj (children oo)) ++ rest)).
Proof.
  intros Hq Hs Hm Hv Ho. destruct w as [[h i m] d l]. simpl in *. subst m.
  apply sound_pop in Hs as (Hs & Hk & Hpk).
  unfold parent_known in Hpk. simpl in Hpk. rewrite Ho in Hpk.
  unfold teardown.
  rewrite virtual_call_quiet; [|apply elem_of_dom; simpl; eauto|apply Hq]. cbn [bind].
  destruct (removeParent_sound obj _ oo Hs Ho Hv Hpk) as (h2 & Hrp & Hdet).
  unfold lift at 1. cbn [scene emit]. rewrite Hrp. cbn [bind invalid marked scene].
  simpl in Hdet.
  assert (Ho2 : exists o2, h2 !! obj = Some o2
                           /\ children o2 = set_erase obj (children oo)
                           /\ mesh o2 = mesh oo /\ background o2 = background oo).
  { specialize (Hdet obj). rewrite Ho in Hdet.
    destruct (h2 !! obj) as [o2|]; [|contradiction]. exists o2. tauto. }
  destruct Ho2 as (o2 & Ho2 & Hch2 & Hme2 & Hba2).
  unfold deref at 1. cbn [scene heap]. rewrite Ho2. cbn [bind]. rewrite Hch2.
  cbn [emit destroy_shared log scene].
  assert (Hdom2 : forall p, p ∈ dom h2 <-> p ∈ dom h).
  { intros p. rewrite !elem_of_dom. specialize (Hdet p).
    destruct (h !! p), (h2 !! p); try contradiction; split; intros [? ?]; eauto; discriminate. }
  match goal with
  | |- context [for_each ?cs ?f ?w0] => destruct (for_each_destroy cs w0) as (h3 & Hfe & Hsim)
  end.
  { apply Forall_forall. intros c Hc. cbn [scene heap]. apply Hdom2.
    apply elem_of_set_erase in Hc as [_ Hc].
    destruct (sound_children _ _ _ _ Hs Ho Hc) as (co & Hco & _).
    apply elem_of_dom. simpl in Hco. eauto. }
  rewrite Hfe. cbn [bind scene heap invalid marked destroy_shared log] in *.
  assert (Ho3 : exists o3, h3 !! obj = Some o3
                           /\ mesh o3 = mesh oo /\ background o3 = background oo).
  { destruct (same_but_display_lookup _ _ _ _ Hsim Ho2) as (o3 & Ho3 & Hu).
    apply undisplayed_fields in Hu as (_ & _ & Hme & Hba). exists o3.
    repeat split; congruence. }
  destruct Ho3 as (o3 & Ho3 & Hme3 & Hba3).
  unfold lift at 1. cbn [scene]. rewrite modify_Ok_alter; [|apply elem_of_dom; simpl; eauto].
  cbn [bind scene heap invalid marked destroy_shared log].
  unfold deref at 1. cbn [heap]. rewrite lookup_alter. rewrite decide_True by reflexivity.
  rewrite Ho3. cbn [fmap option_fmap option_map bind].
  rewrite virtual_call_quiet; [| |apply Hq].
  2:{ apply elem_of_dom. cbn [emit scene heap]. rewrite lookup_alter, decide_True by reflexivity.
      rewrite Ho3. simpl. eauto. }
  cbn [bind]. unfold lift, delete_Object, deref. cbn [emit scene heap invalid marked].
  rewrite lookup_alter, decide_True by reflexivity. rewrite Ho3.
  cbn [fmap option_fmap option_map bind destroy_shared log].
  exists (delete obj (alter (set_children []) obj h3)).
  assert (Hfwd : forall p po', p ≠ obj ->
            delete obj (alter (set_children []) obj h3) !! p = Some po' ->
            exists po, h !! p = Some po
                       /\ children po' = set_erase obj (children po)
                       /\ parent po' = parent po).
  { intros p po' Hne Hp. rewrite lookup_delete_ne, lookup_alter_ne in Hp by congruence.
    specialize (Hsim p). rewrite Hp in Hsim. specialize (Hdet p).
    destruct (h2 !! p) as [po2|]; [|discriminate]. simpl in Hsim.
    assert (Hu : undisplayed po' = undisplayed po2) by congruence.
    apply undisplayed_fields in Hu as (Hpa & Hch & _).
    destruct (h !! p) as [po|]; [|contradiction]. exists po.
    destruct Hdet as (Hc & Hpar & _). split; [reflexivity|]. split; [congruence|].
    rewrite Hpa. auto. }
  assert (Hbwd : forall p, p ≠ obj -> p ∈ dom h ->
            p ∈ dom (delete obj (alter (set_children []) obj h3))).
  { intros p Hne Hp. apply Hdom2 in Hp. apply elem_of_dom in Hp as [po2 Hp2].
    destruct (same_but_display_lookup _ _ _ _ Hsim Hp2) as (po3 & Hp3 & _).
    apply elem_of_dom. rewrite lookup_delete_ne, lookup_alter_ne by congruence. eauto. }
  split; [|split].
  - simpl. rewrite Hme3, Hba3. unfold teardown_log. rewrite <- !app_assoc. reflexivity.
  - apply set_eq. intros p. rewrite elem_of_difference, elem_of_singleton. split.
    + intros Hp. destruct (decide (p = obj)) as [->|Hne].
      * apply elem_of_dom in Hp as [? Hp]. rewrite lookup_delete_eq in Hp. discriminate.
      * apply elem_of_dom in Hp as [po' Hp].
        destruct (Hfwd _ _ Hne Hp) as (po & Hpo & _). split; [|assumption].
        apply elem_of_dom. eauto.
    + intros [Hp Hne]. auto.
  - set (h' := delete obj (alter (set_children []) obj h3)) in *.
    assert (Hnone : h' !! obj = None) by apply lookup_delete_eq.
    assert (Hneq : forall p po', h' !! p = Some po' -> p ≠ obj) by (intros p po' Hp ->; congruence).
    assert (Hknown : forall q, known (mkScene h i rest) q ->
              known (mkScene h' ({[obj]} ∪ ({[obj]} ∪ i))
                             (rev (set_erase obj (children oo)) ++ rest)) q).
    { intros q [Hq1|Hq1]; simpl in *.
      - destruct (decide (q = obj)) as [->|Hne]; [right; set_solver|left; auto].
      - right. set_solver. }
    assert (Hcs : forall c, c ∈ rev (set_erase obj (children oo)) ->
              c ≠ obj /\ exists co, h !! c = Some co /\ parent co = obj).
    { intros c Hc. apply list_elem_of_In, in_rev, list_elem_of_In in Hc.
      apply elem_of_set_erase in Hc as [Hne Hc]. split; [assumption|].
      exact (sound_children _ _ _ _ Hs Ho Hc). }
    pose proof Hs as (Hl & Hc & Hm & Hp). simpl in Hl, Hc, Hm, Hp.
    split; [|split; [|split]]; simpl.
    + intros p po' Hp'. pose proof (Hneq _ _ Hp') as Hne.
      destruct (Hfwd _ _ Hne Hp') as (po & Hpo & _). specialize (Hl _ _ Hpo).
      simpl in Hl. set_solver.
    + intros p po' Hp'. pose proof (Hneq _ _ Hp') as Hne.
      destruct (Hfwd _ _ Hne Hp') as (po & Hpo & Hch & Hpa).
      apply Forall_forall. intros c Hin. rewrite Hch in Hin.
      apply elem_of_set_erase in Hin as [Hnec Hin].
      destruct (sound_children _ _ _ _ Hs Hpo Hin) as (co & Hco & Hpar). simpl in Hco.
      assert (Hc' : c ∈ dom h') by (apply Hbwd; [assumption|apply elem_of_dom; eauto]).
      apply elem_of_dom in Hc' as [co' Hco']. rewrite Hco'. simpl.
      destruct (Hfwd _ _ Hnec Hco') as (co2 & Hco2 & _ & Hpa2). f_equal. congruence.
    + apply Forall_app. split.
      * apply Forall_forall. intros c Hin. destruct (Hcs _ Hin) as (Hne & co & Hco & _).
        left. simpl. apply Hbwd; [assumption|apply elem_of_dom; eauto].
      * eapply Forall_impl; [exact Hm|]. exact Hknown.
    + apply Forall_app. split.
      * apply Forall_forall. intros c Hin. destruct (Hcs _ Hin) as (Hne & co & Hco & Hpar).
        unfold parent_known. simpl. destruct (h' !! c) as [co'|] eqn:Hco'; [|exact I].
        destruct (Hfwd _ _ Hne Hco') as (co2 & Hco2 & _ & Hpa2).
        right. simpl. replace (parent co') with obj by congruence. set_solver.
      * eapply Forall_impl; [exact Hp|]. intros o Hpko. unfold parent_known in *. simpl in *.
        destruct (h' !! o) as [po'|] eqn:Hpo'; [|exact I].
        destruct (Hfwd _ _ (Hneq _ _ Hpo') Hpo') as (po & Hpo & _ & Hpa).
        rewrite Hpo in Hpko. rewrite Hpa. apply Hknown. exact Hpko.
Qed.

(** *** The whole sweep *)

(** The entities whose storage the log shows released, in order. *)
Definition freed (l : list Event) : list ptr :=
  omap (fun e => match e with EvDeleteObject o => Some o | _ => None end) l.

(** Events that belong to a teardown. *)
Definition is_teardown (e : Event) : Prop :=
  match e with
  | EvBeforeDestroy _ | EvAfterDestroy _ | EvRemoveParent _ | EvDestroy _
  | EvDeleteBackground _ | EvDeleteMesh _ | EvInvalidInsert _ | EvDeleteObject _ => True
  | _ => False
  end.

Arguments teardown_log : simpl never.

Lemma freed_app (l1 l2 : list Event) : freed (l1 ++ l2) = freed l1 ++ freed l2.
Proof. unfold freed. apply omap_app. Qed.

Lemma freed_teardown_log (obj : ptr) (cs : list ptr) (oo : Object) :
  freed (teardown_log obj cs oo) = [obj].
Proof.
  unfold teardown_log. rewrite !freed_app. cbn.
  replace (freed (map EvDestroy cs)) with (@nil ptr); [reflexivity|].
  induction cs as [|c cs IH]; [reflexivity|exact IH].
Qed.

Lemma teardown_log_is_teardown (obj : ptr) (cs : list ptr) (oo : Object) :
  Forall is_teardown (teardown_log obj cs oo).
Proof.
  unfold teardown_log. repeat (apply Forall_cons; split; [exact I|]).
  apply Forall_app. split.
  - apply Forall_forall. intros e He. apply list_elem_of_fmap in He as (c & -> & _). exact I.
  - repeat (apply Forall_cons; split; [exact I|]). apply Forall_nil_2.
Qed.

(** What a completed sweep of [w] into [w'] with the events [l] has done. *)
Record swept (w w' : World) (l : list Event) : Prop := {
  swept_log : log w' = log w ++ l;
  swept_flag : destroy_shared w' = destroy_shared w;
  swept_drained : marked (scene w') = [];
  swept_sound : sound (scene w');
  swept_events : Forall is_teardown l;
  swept_once : NoDup (freed l);
  swept_alive : forall o, o ∈ freed l -> o ∈ dom (heap (scene w));
  swept_all : forall o, o ∈ marked (scene w) -> o ∉ invalid (scene w) -> o ∈ freed l;
  swept_heap : dom (heap (scene w')) = dom (heap (scene w)) ∖ list_to_set (freed l);
  swept_invalid : invalid (scene w') = invalid (scene w) ∪ list_to_set (freed l)
}.

Lemma sweep_sound (H : Hooks) :
  quiet_teardown H ->
  forall (n : nat) (w : World),
    size (heap (scene w)) < n -> sound (scene w) ->
    exists N w' l,
      (forall fuel, N <= fuel -> delayedDestroy_loop H fuel w = Ok w')
      /\ swept w w' l.
Proof.
  intros Hq. induction n as [|n IHn]; intros w Hsize Hs; [lia|].
  remember (marked (scene w)) as mk eqn:Hmk. revert w Hsize Hs Hmk.
  induction mk as [|obj rest IHm]; intros w Hsize Hs Hmk.
  - exists 0, w, []. split.
    + intros fuel _. destruct fuel; simpl; rewrite <- Hmk; reflexivity.
    + split; simpl.
      * now rewrite app_nil_r.
      * reflexivity.
      * now rewrite <- Hmk.
      * assumption.
      * apply Forall_nil_2.
      * apply NoDup_nil_2.
      * intros o Ho. inversion Ho.
      * intros o Ho. rewrite <- Hmk in Ho. inversion Ho.
      * set_solver.
      * set_solver.
  - destruct w as [[h i m] d l]. simpl in *. subst m.
    pose proof (sound_pop _ _ _ _ Hs) as (Hs' & Hk & _).
    destruct (decide (obj ∈ i)) as [Hinv|Hval].
    + destruct (IHm (mkWorld (mkScene h i rest) d l)) as (N & w' & l' & Hrun & Hsw);
        [assumption|assumption|reflexivity|].
      exists (S N), w', l'. split.
      * intros fuel Hf. destruct fuel as [|fuel]; [lia|]. simpl.
        rewrite (proj2 (isValid_false (mkScene h i rest) obj) Hinv).
        apply Hrun. lia.
      * destruct Hsw. split; simpl in *; auto.
        intros o Ho Hv. apply elem_of_cons in Ho as [->|Ho]; [contradiction|auto].
    + destruct Hk as [Hk|Hk]; [|contradiction]. simpl in Hk.
      apply elem_of_dom in Hk as [oo Ho].
      destruct (teardown_sound H obj rest (mkWorld (mkScene h i rest) d l) oo Hq)
        as (h' & Htd & Hdom & Hs1); try assumption; try reflexivity.
      simpl in Htd, Hdom, Hs1.
      match type of Htd with _ = Ok ?w1 => destruct (IHn w1) as (N & w' & l' & Hrun & Hsw) end.
      { simpl. rewrite <- size_dom, Hdom. rewrite <- size_dom in Hsize.
        assert (size (dom h ∖ {[obj]}) < size (dom h)); [|lia].
        apply subset_size. apply elem_of_dom_2 in Ho. set_solver. }
      { exact Hs1. }
      exists (S N), w', (teardown_log obj (set_erase obj (children oo)) oo ++ l'). split.
      * intros fuel Hf. destruct fuel as [|fuel]; [lia|]. simpl.
        rewrite (proj2 (isValid_true (mkScene h i rest) obj) Hval).
        rewrite Htd. cbn [bind]. apply Hrun. lia.
      * destruct Hsw. cbn [log scene destroy_shared heap invalid marked] in *.
        assert (Hobj : obj ∉ freed l').
        { intros Hin. apply swept_alive0 in Hin. rewrite Hdom in Hin. set_solver. }
        split; cbn [log scene destroy_shared heap invalid marked]; auto.
        -- rewrite swept_log0, <- app_assoc. reflexivity.
        -- apply Forall_app. split; [apply teardown_log_is_teardown|assumption].
        -- rewrite freed_app, freed_teardown_log. simpl. now apply NoDup_cons.
        -- intros o. rewrite freed_app, freed_teardown_log. cbn [app].
           intros Hin. apply elem_of_cons in Hin as [->|Hin].
           ++ apply elem_of_dom. eauto.
           ++ apply swept_alive0 in Hin. rewrite Hdom in Hin. set_solver.
        -- intros o Hin Hv. rewrite freed_app, freed_teardown_log. cbn [app].
           apply elem_of_cons in Hin as [->|Hin]; [left|].
           destruct (decide (o = obj)) as [->|Hne]; [left|right].
           apply swept_all0; [apply elem_of_app; now right|set_solver].
        -- rewrite swept_heap0, Hdom, freed_app, freed_teardown_log. simpl. set_solver.
        -- rewrite swept_invalid0, freed_app, freed_teardown_log. simpl. set_solver.
Qed.

(** *** What any run of the engine logs *)

Definition is_update (e : Event) : Prop :=
  match e with
  | EvBeforeUpdate _ | EvAfterUpdate _ => True
  | _ => False
  end.








(** What [update] has done by the time it reaches its last statement:
    the flag is off and only update hooks have been logged. *)
Definition traversed (w wt : World) : Prop :=
  destroy_shared wt = false
  /\ exists l, log wt = log w ++ l /\ Forall is_update l.


(** *** Runs of [update] on sound scenes *)

Definition links (o : Object) : ptr * list ptr := (parent o, children o).

(** Two scenes with the same registry and the same tree. *)
Definition same_links (s s' : Scene) : Prop :=
  invalid s' = invalid s
  /\ forall p, links <$> heap s' !! p = links <$> heap s !! p.

Lemma same_links_refl (s : Scene) : same_links s s.
Proof. split; reflexivity. Qed.

Lemma same_links_trans (s1 s2 s3 : Scene) :
  same_links s1 s2 -> same_links s2 s3 -> same_links s1 s3.
Proof.
  intros [Hi Hl] [Hi' Hl']. split; [congruence|]. intros p. now rewrite Hl', Hl.
Qed.

Lemma same_links_lookup (s s' : Scene) (p : ptr) (o : Object) :
  same_links s s' -> heap s !! p = Some o ->
  exists o', heap s' !! p = Some o' /\ parent o' = parent o /\ children o' = children o.
Proof.
  intros [_ Hl] Hp. specialize (Hl p). rewrite Hp in Hl.
  destruct (heap s' !! p) as [o'|]; [|discriminate]. simpl in Hl.
  exists o'. unfold links in Hl. inversion Hl. auto.
Qed.

Lemma same_links_sym (s s' : Scene) : same_links s s' -> same_links s' s.
Proof. intros [Hi Hl]. split; [congruence|]. intros p. now rewrite Hl. Qed.

Lemma same_links_dom (s s' : Scene) (p : ptr) :
  same_links s s' -> p ∈ dom (heap s) -> p ∈ dom (heap s').
Proof.
  intros Hl Hp. apply elem_of_dom in Hp as [o Ho].
  destruct (same_links_lookup _ _ _ _ Hl Ho) as (o' & Ho' & _). apply elem_of_dom. eauto.
Qed.

Lemma same_links_known (s s' : Scene) (p : ptr) :
  same_links s s' -> known s p -> known s' p.
Proof.
  intros Hl [Hp|Hp]; [left; eauto using same_links_dom|right]. destruct Hl as [-> _]. exact Hp.
Qed.

Lemma same_links_sound (s s' : Scene) :
  same_links s s' -> marked s' = marked s -> sound s -> sound s'.
Proof.
  intros Hl Hm Hs. pose proof (same_links_sym _ _ Hl) as Hl'.
  pose proof Hs as (H1 & H2 & H3 & H4).
  split; [|split; [|split]].
  - intros p o' Hp. destruct (same_links_lookup _ _ _ _ Hl' Hp) as (o & Ho & _).
    destruct Hl as [-> _]. exact (H1 _ _ Ho).
  - intros p o' Hp. destruct (same_links_lookup _ _ _ _ Hl' Hp) as (o & Ho & _ & Hch).
    apply Forall_forall. intros c Hc. rewrite <- Hch in Hc.
    destruct (sound_children _ _ _ _ Hs Ho Hc) as (co & Hco & Hpar).
    destruct (same_links_lookup _ _ _ _ Hl Hco) as (co' & Hco' & Hpar' & _).
    rewrite Hco'. simpl. congruence.
  - rewrite Hm. eapply Forall_impl; [exact H3|]. intros p. now apply same_links_known.
  - rewrite Hm. eapply Forall_impl; [exact H4|]. intros p Hp. unfold parent_known in *.
    destruct (heap s' !! p) as [o'|] eqn:Ho'; [|exact I].
    destruct (same_links_lookup _ _ _ _ Hl' Ho') as (o & Ho & Hpar & _).
    rewrite Ho in Hp. rewrite <- Hpar. now apply (same_links_known s).
Qed.

(** Update hooks that keep the scene sound, leave the tree and the
    registry alone and only add to the marked entities: hooks that
    request destructions. *)
Definition marking (body : Scene -> result Scene) (s : Scene) : Prop :=
  exists s', body s = Ok s' /\ sound s' /\ same_links s s'
             /\ marked s `suffix_of` marked s'.

Definition update_hooks_marking (H : Hooks) : Prop :=
  forall this now tick s,
    sound s -> this ∈ dom (heap s) ->
    marking (beforeUpdate H this now tick) s /\ marking (afterUpdate H this now tick) s.

(** A rank that falls from every entity to its children: the tree has
    no cycle. *)
Definition ranked (rank : ptr -> nat) (s : Scene) : Prop :=
  map_Forall (fun p po => Forall (fun c => rank c < rank p) (children po)) (heap s).

Lemma ranked_same_links (rank : ptr -> nat) (s s' : Scene) :
  same_links s s' -> ranked rank s -> ranked rank s'.
Proof.
  intros Hl Hr p o' Hp.
  destruct (same_links_lookup _ _ _ _ (same_links_sym _ _ Hl) Hp) as (o & Ho & _ & Hch).
  rewrite <- Hch. exact (Hr _ _ Ho).
Qed.

(** What the traversal of [update] leaves behind. *)
Record visited (w wt : World) : Prop := {
  visited_traversed : traversed w wt;
  visited_sound : sound (scene wt);
  visited_links : same_links (scene w) (scene wt);
  visited_marked : marked (scene w) `suffix_of` marked (scene wt)
}.

Lemma visited_trans (w1 w2 w3 : World) :
  visited w1 w2 -> visited w2 w3 -> visited w1 w3.
Proof.
  intros [[Hd (l & Hl & Ha)] Hs Hk Hm] [[Hd' (l' & Hl' & Ha')] Hs' Hk' Hm'].
  split; [split|..]; try assumption.
  - exists (l ++ l'). split; [|now apply Forall_app].
    rewrite Hl', Hl, <- app_assoc. reflexivity.
  - eapply same_links_trans; eassumption.
  - etransitivity; eassumption.
Qed.

(** One of the two assignments of the integration step. *)
Lemma lift_kinematics (this : ptr) (F : Object -> Object -> Object) (w : World) :
  (forall o x, links (F o x) = links x) ->
  sound (scene w) -> this ∈ dom (heap (scene w)) ->
  exists w',
    lift (fun s => let* o := deref s this in modify this (F o) s) w = Ok w'
    /\ sound (scene w') /\ same_links (scene w) (scene w')
    /\ marked (scene w') = marked (scene w)
    /\ destroy_shared w' = destroy_shared w /\ log w' = log w.
Proof.
  intros HF Hs Hd. pose proof Hd as Hd'. apply elem_of_dom in Hd' as [o Ho].
  unfold lift, deref at 1. rewrite Ho. cbn [bind].
  rewrite (modify_Ok_alter _ _ _ Hd). cbn [bind].
  eexists. split; [reflexivity|]. cbn [scene heap invalid marked destroy_shared log].
  assert (Hl : same_links (scene w)
                 (mkScene (alter (F o) this (heap (scene w))) (invalid (scene w))
                          (marked (scene w)))).
  { split; [reflexivity|]. intros p. cbn [heap]. rewrite lookup_alter.
    destruct (decide (this = p)) as [->|]; [|reflexivity].
    rewrite Ho. simpl. now rewrite HF. }
  split; [|auto]. eapply same_links_sound; [exact Hl|reflexivity|exact Hs].
Qed.

Lemma virtual_call_marking (this : ptr) (body : Scene -> result Scene) (e : Event) (w : World) :
  marking body (scene w) -> this ∈ dom (heap (scene w)) ->
  exists w',
    virtual_call this body (emit e w) = Ok w'
    /\ sound (scene w') /\ same_links (scene w) (scene w')
    /\ marked (scene w) `suffix_of` marked (scene w')
    /\ destroy_shared w' = destroy_shared w /\ log w' = log w ++ [e].
Proof.
  intros (s' & Hb & Hs' & Hl & Hm) Hd. apply elem_of_dom in Hd as [o Ho].
  unfold virtual_call, lift, deref. cbn [emit scene]. rewrite Ho. cbn [bind]. rewrite Hb.
  cbn [bind]. eexists. split; [reflexivity|]. auto.
Qed.

Lemma visited_refl (w : World) :
  destroy_shared w = false -> sound (scene w) -> visited w w.
Proof.
  intros Hd Hs. split; [split; [assumption|]|assumption|apply same_links_refl|reflexivity].
  exists []. split; [now rewrite app_nil_r|apply Forall_nil_2].
Qed.

Lemma visited_hook (this : ptr) (body : Scene -> result Scene) (e : Event) (w : World) :
  marking body (scene w) -> this ∈ dom (heap (scene w)) ->
  destroy_shared w = false -> is_update e ->
  exists w', virtual_call this body (emit e w) = Ok w' /\ visited w w'.
Proof.
  intros Hm Hd Hf He.
  destruct (virtual_call_marking this body e w Hm Hd) as (w' & Hc & Hs & Hl & Hmk & Hd' & Hlog).
  exists w'. split; [assumption|]. split; try assumption. split; [congruence|].
  exists [e]. split; [assumption|]. repeat constructor. assumption.
Qed.

Lemma visited_kinematics (this : ptr) (F : Object -> Object -> Object) (w : World) :
  (forall o x, links (F o x) = links x) ->
  sound (scene w) -> this ∈ dom (heap (scene w)) -> destroy_shared w = false ->
  exists w',
    lift (fun s => let* o := deref s this in modify this (F o) s) w = Ok w'
    /\ visited w w'.
Proof.
  intros HF Hs Hd Hf.
  destruct (lift_kinematics this F w HF Hs Hd) as (w' & Hc & Hs' & Hl & Hm & Hd' & Hlog).
  exists w'. split; [assumption|]. split; try assumption.
  - split; [congruence|]. exists []. split; [now rewrite app_nil_r|apply Forall_nil_2].
  - now rewrite Hm.
Qed.

(** The traversal of the children, given that each child can be
    traversed with less fuel than its parent. *)
Lemma traverse_children (H : Hooks) (rank : ptr -> nat) (r : nat) (now : float) (tick : N)
  (IH : forall r', r' < r -> forall this w,
          rank this <= r' -> sound (scene w) -> ranked rank (scene w) ->
          known (scene w) this -> destroy_shared w = false ->
          exists wt, visited w wt
                     /\ forall fuel, r' < fuel -> update H fuel this now tick w = Ok wt)
  (cs : list ptr) :
  forall w,
    Forall (fun c => rank c < r /\ known (scene w) c) cs ->
    sound (scene w) -> ranked rank (scene w) -> destroy_shared w = false ->
    exists wd,
      visited w wd
      /\ forall fuel, r <= fuel ->
           for_each cs (fun child w => update H fuel child now tick w) w = Ok wd.
Proof.
  induction cs as [|c cs IHcs]; intros w Hall Hs Hrk Hf.
  - exists w. split; [now apply visited_refl|]. reflexivity.
  - apply Forall_cons in Hall as [[Hc Hk] Hall].
    destruct (IH (rank c) Hc c w) as (w1 & Hv1 & Hu1); try assumption; [lia|].
    destruct (IHcs w1) as (wd & Hvd & Hud).
    + eapply Forall_impl; [exact Hall|]. intros x [Hx Hkx]. split; [assumption|].
      eapply same_links_known; [apply Hv1|assumption].
    + apply Hv1.
    + eapply ranked_same_links; [apply Hv1|assumption].
    + apply Hv1.
    + exists wd. split; [eapply visited_trans; eassumption|].
      intros fuel Hfuel. cbn [for_each]. rewrite Hu1 by lia. cbn [bind]. now apply Hud.
Qed.

Lemma set_position_links (v : Mesh.vec) (x : Object) : links (set_position v x) = links x.
Proof. reflexivity. Qed.

Lemma set_speed_links (v : Mesh.vec) (x : Object) : links (set_speed v x) = links x.
Proof. reflexivity. Qed.

(** On a sound scene whose tree has no cycle, with hooks that only
    mark, [update] gets to its last statement, with any fuel above the
    rank of the entity. *)
Lemma traverse (H : Hooks) (rank : ptr -> nat) :
  update_hooks_marking H ->
  forall r this now tick w,
    rank this <= r -> sound (scene w) -> ranked rank (scene w) -> known (scene w) this ->
    exists wt,
      visited w wt
      /\ forall fuel, r < fuel ->
           update H fuel this now tick w
           = if destroy_shared w
             then delayedDestroy H fuel (set_destroy_shared true wt)
             else Ok wt.
Proof.
  intros Hok r. induction r as [r IH] using lt_wf_ind.
  intros this now tick w Hr Hs Hrk Hk.
  set (w0 := set_destroy_shared false w).
  assert (Hbase : forall wt, visited w0 wt -> visited w wt).
  { intros wt [Ht Hs' Hl Hm]. split; assumption. }
  destruct (decide (this ∈ invalid (scene w))) as [Hinv|Hval].
  - exists w0. split; [apply Hbase, visited_refl; [reflexivity|assumption]|].
    intros fuel Hf. destruct fuel as [|fuel]; [lia|]. cbn [update].
    fold w0. change (scene w0) with (scene w).
    rewrite (proj2 (isValid_false _ _) Hinv). reflexivity.
  - destruct Hk as [Hd|Hd]; [|contradiction].
    pose proof Hd as Hd'. apply elem_of_dom in Hd' as [o Ho].
    destruct (visited_hook this (beforeUpdate H this now tick) (EvBeforeUpdate this) w0)
      as (wa & Ha & Hva); [apply Hok; assumption|assumption|reflexivity|exact I|].
    destruct (visited_kinematics this
                (fun o => set_position (Mesh.vadd (position o) (speed o))) wa)
      as (wb & Hb & Hvb);
      [intros; apply set_position_links|apply Hva
      |eapply same_links_dom; [apply Hva|assumption]|apply Hva|].
    pose proof (visited_trans _ _ _ Hva Hvb) as Hvab.
    destruct (visited_kinematics this
                (fun o => set_speed (Mesh.vadd (speed o) (acceleration o))) wb)
      as (wc & Hc & Hvc);
      [intros; apply set_speed_links|apply Hvb
      |eapply same_links_dom; [apply Hvab|assumption]|apply Hvb|].
    pose proof (visited_trans _ _ _ Hvab Hvc) as Hvac.
    destruct (traverse_children H rank r now tick) with (cs := children o) (w := wc)
      as (wd & Hvd & Hd4).
    + intros r' Hr' c w1 Hc1 Hs1 Hrk1 Hk1 Hf1.
      destruct (IH r' Hr' c now tick w1 Hc1 Hs1 Hrk1 Hk1) as (wt & Hvt & Hut).
      exists wt. split; [assumption|]. intros fuel Hfuel. rewrite (Hut fuel Hfuel).
      now rewrite Hf1.
    + apply Forall_forall. intros c Hin. split.
      * specialize (Hrk _ _ Ho). simpl in Hrk. rewrite Forall_forall in Hrk.
        specialize (Hrk _ Hin). lia.
      * left. eapply same_links_dom; [apply Hvac|].
        destruct (sound_children _ _ _ _ Hs Ho Hin) as (co & Hco & _).
        apply elem_of_dom. eauto.
    + apply Hvc.
    + eapply ranked_same_links; [apply Hvac|assumption].
    + apply Hvc.
    + pose proof (visited_trans _ _ _ Hvac Hvd) as Hvad.
      destruct (visited_hook this (afterUpdate H this now tick) (EvAfterUpdate this) wd)
        as (we & He & Hve);
        [apply Hok; [apply Hvd|eapply same_links_dom; [apply Hvad|assumption]]
        |eapply same_links_dom; [apply Hvad|assumption]|apply Hvd|exact I|].
      exists we. split; [apply Hbase; eapply visited_trans; eassumption|].
      intros fuel Hfuel. destruct fuel as [|fuel]; [lia|]. cbn [update].
      fold w0. change (scene w0) with (scene w).
      rewrite (proj2 (isValid_true _ _) Hval). unfold deref at 1. rewrite Ho. cbn [bind].
      rewrite Ha. cbn [bind]. rewrite Hb. cbn [bind]. rewrite Hc. cbn [bind].
      rewrite Hd4 by lia. cbn [bind]. rewrite He. cbn [bind]. reflexivity.
Qed.

(** *** The three lifecycle claims *)







Lemma destroy_inv (this : ptr) (s s' : Scene) :
  destroy this s = Ok s' ->
  exists o, heap s !! this = Some o
            /\ s' = mkScene (<[this := set_display false o]> (heap s)) (invalid s)
                            (this :: marked s).
Proof.
  unfold destroy. intros Hd. apply bind_Ok in Hd as (s1 & H1 & Hd).
  apply modify_inv in H1 as (o & Ho & ->). inversion Hd; subst. eauto.
Qed.

Lemma sound_push (h : gmap ptr Object) (i : gset ptr) (obj : ptr) (rest : list ptr) :
  sound (mkScene h i rest) ->
  known (mkScene h i rest) obj -> parent_known (mkScene h i rest) obj ->
  sound (mkScene h i (obj :: rest)).
Proof.
  intros (Hl & Hc & Hm & Hp) Hk Hpk. repeat split; try assumption; simpl in *.
  - apply Forall_cons. split; assumption.
  - apply Forall_cons. split; assumption.
Qed.

(** C4, as the code has it.  A second [destroy] on an entity that is
    already marked is not a no-op: it succeeds, changes nothing else,
    and puts the entity on the stack a second time.  What keeps the
    entity from being released twice is the validity test of the sweep:
    on a sound scene (with teardown hooks that leave the scene alone)
    the sweep returns, no storage is released twice, and the entity is
    among those released. *)
Theorem destroy_twice_released_once (H : Hooks) (this : ptr) (s s1 : Scene) :
  destroy this s = Ok s1 ->
  exists s2,
    destroy this s1 = Ok s2
    /\ marked s2 = this :: this :: marked s
    /\ heap s2 = heap s1 /\ invalid s2 = invalid s1
    /\ (quiet_teardown H -> sound s1 ->
        forall d l, exists N w' ev,
          (forall fuel, N <= fuel -> delayedDestroy_loop H fuel (mkWorld s2 d l) = Ok w')
          /\ log w' = l ++ ev /\ NoDup (freed ev) /\ this ∈ freed ev).
Proof.
  intros Hd. apply destroy_inv in Hd as (o & Ho & ->).
  set (h1 := <[this := set_display false o]> (heap s)).
  assert (Ho1 : h1 !! this = Some (set_display false o)) by apply lookup_insert_eq.
  exists (mkScene h1 (invalid s) (this :: this :: marked s)).
  split; [|split; [reflexivity|split; [reflexivity|split; [reflexivity|]]]].
  - unfold destroy.
    rewrite (modify_Ok this (set_display false) (mkScene h1 (invalid s) (this :: marked s))
               (set_display false o) Ho1).
    cbn [bind heap invalid marked]. do 2 f_equal. apply insert_id. exact Ho1.
  - intros Hq Hs d l.
    assert (Hs2 : sound (mkScene h1 (invalid s) (this :: this :: marked s))).
    { pose proof (sound_pop _ _ _ _ Hs) as (_ & Hk & Hpk).
      apply sound_push; [exact Hs| |]; assumption. }
    destruct (sweep_sound H Hq (S (size h1))
                (mkWorld (mkScene h1 (invalid s) (this :: this :: marked s)) d l))
      as (N & w' & ev & Hrun & Hsw); [simpl; lia|exact Hs2|].
    destruct Hsw. cbn [scene heap invalid marked log] in *.
    exists N, w', ev. split; [assumption|]. split; [assumption|]. split; [assumption|].
    apply swept_all0; [apply list_elem_of_here|].
    destruct Hs as (Hlive & _). exact (Hlive _ _ Ho1).
Qed.

(** *** A worked scene *)

(** Entity 1 with the children 2 and 3. *)
Definition family : Scene :=
  scene_of (run_ops [AddChild 1 2; AddChild 1 3] three_objects).

Definition family_rank (p : ptr) : nat := if (p =? 1)%N then 1 else 0.

(** A hook of a subclass: the entity requests its own destruction,
    provided its parent is known. *)
Definition destroy_if_attached (this : ptr) (s : Scene) : result Scene :=
  match heap s !! this with
  | Some o => if bool_decide (known s (parent o)) then destroy this s else Ok s
  | None => Ok s
  end.

Definition impatient : Hooks := {|
  onCollision := fun _ _ s => Ok s;
  beforeDestroy := fun _ s => Ok s;
  afterDestroy := fun _ s => Ok s;
  beforeUpdate := fun this _ _ s => destroy_if_attached this s;
  afterUpdate := fun _ _ _ s => Ok s
|}.

#[local] Instance ranked_dec (rank : ptr -> nat) (s : Scene) : Decision (ranked rank s).
Proof. unfold ranked. apply _. Defined.

Lemma family_sound : sound family.
Proof. apply (bool_decide_unpack (sound family)). vm_compute. exact I. Qed.

Lemma family_ranked : ranked family_rank family.
Proof. apply (bool_decide_unpack (ranked family_rank family)). vm_compute. exact I. Qed.

Lemma marking_skip (s : Scene) : sound s -> marking (fun s => Ok s) s.
Proof.
  intros Hs. exists s. split; [reflexivity|]. split; [assumption|].
  split; [apply same_links_refl|reflexivity].
Qed.




Lemma quiet_base_hooks : quiet_teardown base_hooks.
Proof. intros obj s. split; reflexivity. Qed.

(** The children of 1 ask for their own destruction while 1 is being
    updated; they are released when the update of 1 is over. *)
Example impatient_children :
  exists w', update impatient 3 1 0%float 0 (mkWorld family true []) = Ok w'
             /\ log w' = [EvBeforeUpdate 1; EvBeforeUpdate 3; EvAfterUpdate 3;
                          EvBeforeUpdate 2; EvAfterUpdate 2; EvAfterUpdate 1;
                          EvDelayedDestroy;
                          EvBeforeDestroy 2; EvRemoveParent 2; EvDeleteBackground 21;
                          EvDeleteMesh 20; EvInvalidInsert 2; EvAfterDestroy 2;
                          EvDeleteObject 2;
                          EvBeforeDestroy 3; EvRemoveParent 3; EvDeleteBackground 31;
                          EvDeleteMesh 30; EvInvalidInsert 3; EvAfterDestroy 3;
                          EvDeleteObject 3]
             /\ dom (heap (scene w')) = {[1%N]}
             /\ destroy_shared w' = true.
Proof.
  eexists. split; [vm_compute; reflexivity|]. split; [reflexivity|].
  split; [|reflexivity].
  apply (bool_decide_unpack _). vm_compute. exact I.
Qed.


(** The scene after [destroy] on 2 and then on 3. *)
Definition two_requests : Scene := scene_of (run_ops [Destroy 2; Destroy 3] family).

Lemma two_requests_sound : sound two_requests.
Proof. apply (bool_decide_unpack (sound two_requests)). vm_compute. exact I. Qed.


(** The scene after one [destroy] on 2. *)
Definition one_request : Scene := scene_of (destroy 2 family).

(** C4 as stated fails: the second request is not a no-op, entity 2 is
    on the stack twice. *)
Lemma destroy_twice_enqueues_twice :
  destroy 2 family = Ok one_request
  /\ marked one_request = [2%N]
  /\ exists s2, destroy 2 one_request = Ok s2
                /\ marked s2 = [2%N; 2%N] /\ s2 ≠ one_request.
Proof.
  split; [vm_compute; reflexivity|]. split; [reflexivity|].
  eexists. split; [vm_compute; reflexivity|]. split; [reflexivity|].
  intros Heq. apply (f_equal marked) in Heq. vm_compute in Heq. discriminate.
Qed.

Lemma destroy_twice_released_once_witness :
  exists s2,
    destroy 2 one_request = Ok s2
    /\ marked s2 = 2%N :: 2%N :: marked family
    /\ heap s2 = heap one_request /\ invalid s2 = invalid one_request
    /\ (quiet_teardown base_hooks -> sound one_request ->
        forall d l, exists N w' ev,
          (forall fuel, N <= fuel -> delayedDestroy_loop base_hooks fuel (mkWorld s2 d l) = Ok w')
          /\ log w' = l ++ ev /\ NoDup (freed ev) /\ 2%N ∈ freed ev).
Proof.
  apply (destroy_twice_released_once base_hooks 2%N family one_request).
  vm_compute. reflexivity.
Defined.

Example destroy_twice_sweep :
  exists s2 w',
    run_ops [Destroy 2; Destroy 2] family = Ok s2
    /\ delayedDestroy_loop base_hooks 2 (mkWorld s2 true []) = Ok w'
    /\ freed (log w') = [2%N].
Proof.
  eexists. eexists. split; [vm_compute; reflexivity|].
  split; [vm_compute; reflexivity|]. reflexivity.
Qed.

(** An entity without a parent cannot be swept: [removeParent] takes
    [NULL] for a valid parent and calls [removeChild] on it. *)
Example destroy_root_undefined :
  exists s, destroy 1 family = Ok s
            /\ delayedDestroy base_hooks 5 (mkWorld s true []) = Undefined.
Proof. eexists. split; [vm_compute; reflexivity|]. vm_compute. reflexivity. Qed.

End ObjectTheory.

(** ** Properties of the vector kernel *)

Module KernelTheory.

Import Mesh MeshTheory.
Local Open Scope float_scope.

Lemma SFabs_binary_round_aux (s s' : bool) (m e : Z) (l : location) :
  SFabs (binary_round_aux prec emax s m e l) = SFabs (binary_round_aux prec emax s' m e l).
Proof.
  unfold binary_round_aux.
  destruct (shr_fexp prec emax m e l) as [mrs' e'].
  destruct (shr_fexp prec emax _ e' loc_Exact) as [mrs'' e''].
  destruct (shr_m mrs''); [reflexivity| |reflexivity].
  destruct (Z.leb e'' _); reflexivity.
Qed.

Lemma SFabs_binary_round (s s' : bool) (m : positive) (e : Z) :
  SFabs (binary_round prec emax s m e) = SFabs (binary_round prec emax s' m e).
Proof.
  unfold binary_round. destruct (shl_align m e _) as [mz ez].
  apply SFabs_binary_round_aux.
Qed.

Lemma SFabs_binary_normalize_opp (m e : Z) :
  SFabs (binary_normalize prec emax (- m) e false)
  = SFabs (binary_normalize prec emax m e false).
Proof.
  destruct m; simpl; [reflexivity|apply SFabs_binary_round|apply SFabs_binary_round].
Qed.

Lemma SFabs_sub_swap (a b : spec_float) :
  SFabs (SF64sub a b) = SFabs (SF64sub b a).
Proof.
  destruct a as [sa|sa| |sa ma ea], b as [sb|sb| |sb mb eb];
    try reflexivity; try (destruct sa, sb; reflexivity).
  unfold SF64sub, SFsub. rewrite (Z.min_comm eb ea).
  rewrite <- SFabs_binary_normalize_opp. f_equal. f_equal. lia.
Qed.

Lemma SFmul_square (x y : spec_float) :
  SFabs x = SFabs y -> SF64mul x x = SF64mul y y.
Proof.
  destruct x as [sx|sx| |sx mx ex], y as [sy|sy| |sy my ey]; try discriminate;
    intros Heq; try reflexivity; try (destruct sx, sy; reflexivity).
  simpl in Heq. inversion Heq; subst. unfold SF64mul, SFmul.
  now destruct sx, sy.
Qed.

Lemma square_sub_swap (a b : float) : (a - b) * (a - b) = (b - a) * (b - a).
Proof.
  apply Prim2SF_inj. rewrite !mul_spec, !sub_spec.
  apply SFmul_square, SFabs_sub_swap.
Qed.

Lemma SFadd_comm (x y : spec_float) : SF64add x y = SF64add y x.
Proof.
  destruct x as [sx|sx| |sx mx ex], y as [sy|sy| |sy my ey];
    try reflexivity; try (destruct sx, sy; reflexivity).
  unfold SF64add, SFadd. rewrite (Z.min_comm ey ex). f_equal. lia.
Qed.

Lemma float_add_comm (a b : float) : a + b = b + a.
Proof. apply Prim2SF_inj. rewrite !add_spec. apply SFadd_comm. Qed.

Lemma SFmul_comm (x y : spec_float) : SF64mul x y = SF64mul y x.
Proof.
  destruct x as [sx|sx| |sx mx ex], y as [sy|sy| |sy my ey];
    try reflexivity; try (destruct sx, sy; reflexivity).
  unfold SF64mul, SFmul. now rewrite (Pos.mul_comm my mx), (Z.add_comm ey ex), (xorb_comm sy sx).
Qed.

Lemma float_mul_comm (a b : float) : a * b = b * a.
Proof. apply Prim2SF_inj. rewrite !mul_spec. apply SFmul_comm. Qed.

Lemma norm2_vsub_swap (p q : vec) : norm2 (vsub p q) = norm2 (vsub q p).
Proof.
  unfold norm2, dot, vsum, vmul, vsub. simpl.
  now rewrite (square_sub_swap (vx p)), (square_sub_swap (vy p)), (square_sub_swap (vz p)).
Qed.

(** X2.  The dot product and the distance of two points do not depend
    on their order, bit for bit and for every pair of [double]s (NaN and
    the infinities included); so two spheres collide in one order
    exactly when they do in the other. *)
Theorem distance_symmetric (p q : vec) (r1 r2 : float) :
  dot p q = dot q p
  /\ distance p q = distance q p
  /\ collisionSpheres p r1 q r2 = collisionSpheres q r2 p r1.
Proof.
  assert (Hd : distance p q = distance q p).
  { unfold distance, norm. now rewrite norm2_vsub_swap. }
  split; [|split; [exact Hd|]].
  - unfold dot, vsum, vmul. cbn [vx vy vz].
    now rewrite (float_mul_comm (vx p)), (float_mul_comm (vy p)),
      (float_mul_comm (vz p)).
  - unfold collisionSpheres. now rewrite Hd, (float_add_comm r1 r2).
Qed.


(** *** Lengths and areas *)

(** Not below zero: a NaN, a zero of either sign, or a positive number. *)
Definition not_below_zero (x : spec_float) : Prop :=
  match x with
  | S754_finite true _ _ | S754_infinity true => False
  | _ => True
  end.

Lemma ltb_zero_false (x : float) : not_below_zero (Prim2SF x) -> (x <? 0) = false.
Proof.
  rewrite ltb_spec. change (Prim2SF 0) with (S754_zero false).
  destruct (Prim2SF x) as [s|s| |s m e]; simpl; try reflexivity;
    destruct s; simpl; intros H; try reflexivity; contradiction.
Qed.

Lemma binary_round_aux_not_below (m e : Z) (l : location) :
  not_below_zero (binary_round_aux prec emax false m e l).
Proof.
  unfold binary_round_aux.
  destruct (shr_fexp prec emax m e l) as [mrs' e'].
  destruct (shr_fexp prec emax _ e' loc_Exact) as [mrs'' e''].
  destruct (shr_m mrs''); [exact I| |exact I].
  destruct (Z.leb e'' _); exact I.
Qed.

Lemma sqrt_not_below (x : float) : not_below_zero (Prim2SF (sqrt x)).
Proof.
  rewrite sqrt_spec. unfold SF64sqrt, SFsqrt.
  destruct (Prim2SF x) as [s|s| |s m e]; try exact I.
  - destruct s; exact I.
  - destruct s; [exact I|].
    destruct (SFsqrt_core_binary prec emax (Z.pos m) e) as [[mz ez] lz].
    apply binary_round_aux_not_below.
Qed.

Lemma mul_not_below (x y : float) :
  not_below_zero (Prim2SF x) -> not_below_zero (Prim2SF y) ->
  not_below_zero (Prim2SF (x * y)).
Proof.
  rewrite mul_spec. unfold SF64mul, SFmul.
  destruct (Prim2SF x) as [sx|sx| |sx mx ex], (Prim2SF y) as [sy|sy| |sy my ey];
    try exact (fun _ _ => I);
    destruct sx, sy; simpl; try contradiction; try exact (fun _ _ => I).
  intros _ _. apply binary_round_aux_not_below.
Qed.

Lemma abs_not_below (x : float) : not_below_zero (Prim2SF (abs x)).
Proof. rewrite abs_spec. destruct (Prim2SF x); exact I. Qed.

Lemma norm_not_below (v : vec) : not_below_zero (Prim2SF (norm v)).
Proof. apply sqrt_not_below. Qed.

(** X3.  No length and no area is ever negative: whatever the
    [double]s, the result of [norm], [distance], [distanceRayToPoint],
    [areaTriangle2D] and [areaRectangle2D] does not compare below zero
    (it is a NaN, a zero or a positive number). *)
Theorem lengths_never_negative (a b c np : vec) (infinite : bool) :
  (norm a <? 0) = false
  /\ (distance a b <? 0) = false
  /\ (fst (distanceRayToPoint a b c np infinite) <? 0) = false
  /\ (areaTriangle2D a b c <? 0) = false
  /\ (areaRectangle2D a b c <? 0) = false.
Proof.
  repeat split.
  - apply ltb_zero_false, norm_not_below.
  - apply ltb_zero_false, norm_not_below.
  - unfold distanceRayToPoint. destruct (_ =? 0); apply ltb_zero_false, norm_not_below.
  - apply ltb_zero_false, abs_not_below.
  - apply ltb_zero_false, mul_not_below; apply norm_not_below.
Qed.

Lemma leb_not_below (d r : float) :
  not_below_zero (Prim2SF d) -> (d <=? r) = true -> (0 <=? r) = true.
Proof.
  rewrite !leb_spec. change (Prim2SF 0) with (S754_zero false).
  destruct (Prim2SF d) as [sd|sd| |sd md ed], (Prim2SF r) as [sr|sr| |sr mr er];
    simpl; try discriminate; try reflexivity;
    destruct sd; simpl; try contradiction; destruct sr; simpl;
    intros _ H; try discriminate; reflexivity.
Qed.

(** X4.  A sphere test whose radius (the sum of the two radii for
    [collisionSpheres]) is negative or a NaN never reports a hit. *)
Theorem negative_radius_never_hits
  (p q ray_start ray_end np : vec) (r1 r2 r : float) (infinite : bool) :
  (0 <=? r1 + r2) = false -> (0 <=? r) = false ->
  collisionSpheres p r1 q r2 = false
  /\ fst (collisionRaySphere ray_start ray_end p r np infinite) = false.
Proof.
  intros H12 Hr. split.
  - unfold collisionSpheres. destruct (distance p q <=? r1 + r2) eqn:Hle; [|reflexivity].
    apply leb_not_below in Hle; [congruence|apply norm_not_below].
  - unfold collisionRaySphere.
    destruct (distanceRayToPoint _ _ _ _ _) as [d np'] eqn:Hd. simpl.
    destruct (d <=? r) eqn:Hle; [|reflexivity].
    apply leb_not_below in Hle; [congruence|].
    replace d with (fst (distanceRayToPoint ray_start ray_end p np infinite))
      by now rewrite Hd.
    unfold distanceRayToPoint. destruct (_ =? 0); apply norm_not_below.
Qed.

Lemma negative_radius_never_hits_witness :
  collisionSpheres (Vec 0 0 0) 1 (Vec 0 0 0) (-2) = false
  /\ fst (collisionRaySphere (Vec 0 0 0) (Vec 1 0 0) (Vec 0 0 0) nan (Vec 0 0 0) false) = false.
Proof.
  apply (negative_radius_never_hits (Vec 0 0 0) (Vec 0 0 0) (Vec 0 0 0) (Vec 1 0 0) (Vec 0 0 0)
           1 (-2) nan false); reflexivity.
Defined.

(** *** [clamp] *)

Lemma leb_defined (a b : float) : (a <=? b) = true -> ~ is_NaN a /\ ~ is_NaN b.
Proof.
  unfold is_NaN. rewrite leb_spec. unfold SFleb.
  destruct (Prim2SF a), (Prim2SF b); simpl; try discriminate; intros _; split; discriminate.
Qed.

Lemma float_leb_refl (a : float) : ~ is_NaN a -> (a <=? a) = true.
Proof.
  intros Ha. apply ltb_false_leb; try assumption.
  rewrite ltb_spec. unfold SFltb.
  pose proof (SFcompare_antisym (Prim2SF a) (Prim2SF a)) as H.
  destruct (SFcompare (Prim2SF a) (Prim2SF a)) as [[]|]; simpl in *; congruence.
Qed.

Lemma leb_ltb_false (a b : float) : (a <=? b) = true -> (b <? a) = false.
Proof.
  rewrite leb_spec, ltb_spec. unfold SFleb, SFltb.
  rewrite (SFcompare_antisym (Prim2SF a) (Prim2SF b)).
  destruct (SFcompare (Prim2SF a) (Prim2SF b)) as [[]|]; simpl; congruence.
Qed.

Lemma ltb_defined (a b : float) : (a <? b) = true -> ~ is_NaN a /\ ~ is_NaN b.
Proof.
  unfold is_NaN. rewrite ltb_spec. unfold SFltb.
  destruct (Prim2SF a), (Prim2SF b); simpl; try discriminate; intros _; split; discriminate.
Qed.

Lemma clamp_range (value lo hi : float) :
  (lo <=? hi) = true -> ~ is_NaN value ->
  (lo <=? clamp value lo hi) = true /\ (clamp value lo hi <=? hi) = true.
Proof.
  intros Hb Hn. destruct (leb_defined _ _ Hb) as [Hlo Hhi]. unfold clamp.
  destruct (hi <? value) eqn:H1; [split; [assumption|now apply float_leb_refl]|].
  destruct (value <? lo) eqn:H0; [split; [now apply float_leb_refl|assumption]|].
  split; now apply ltb_false_leb.
Qed.

(** X5.  [clamp] with bounds in order: a value that is not a NaN lands
    between the bounds, a NaN is returned as it is, and clamping twice is
    clamping once.  (With the bounds out of order the last part fails:
    [clamp 2 1 0] is [0] and [clamp 0 1 0] is [1].) *)
Theorem clamp_spec (value lo hi : float) :
  (lo <=? hi) = true ->
  (~ is_NaN value ->
   (lo <=? clamp value lo hi) = true /\ (clamp value lo hi <=? hi) = true)
  /\ (is_NaN value -> clamp value lo hi = value)
  /\ clamp (clamp value lo hi) lo hi = clamp value lo hi.
Proof.
  intros Hb. split; [now apply clamp_range|].
  assert (Hnan : is_NaN value -> clamp value lo hi = value).
  { intros Hn. unfold clamp.
    destruct (hi <? value) eqn:H1; [apply ltb_defined in H1 as [_ H1]; contradiction|].
    destruct (value <? lo) eqn:H0; [apply ltb_defined in H0 as [H0 _]; contradiction|].
    reflexivity. }
  split; [exact Hnan|].
  destruct (Prim2SF value) eqn:Hv.
  1,2,4: destruct (clamp_range value lo hi Hb) as [Hl Hh];
         [unfold is_NaN; rewrite Hv; discriminate|];
         unfold clamp at 1;
         now rewrite (leb_ltb_false _ _ Hh), (leb_ltb_false _ _ Hl).
  now rewrite (Hnan Hv), (Hnan Hv).
Qed.

Lemma clamp_spec_witness :
  (~ is_NaN 7 -> (2 <=? clamp 7 2 5) = true /\ (clamp 7 2 5 <=? 5) = true)
  /\ (is_NaN 7 -> clamp 7 2 5 = 7)
  /\ clamp (clamp 7 2 5) 2 5 = clamp 7 2 5.
Proof. apply (clamp_spec 7 2 5). reflexivity. Defined.

Example clamp_bounds_out_of_order :
  clamp 2 1 0 = 0 /\ clamp (clamp 2 1 0) 1 0 = 1.
Proof. split; reflexivity. Qed.

(** *** [resize] *)

Lemma eqb_zero_class (x : float) : (x =? 0) = true -> exists s, Prim2SF x = S754_zero s.
Proof.
  rewrite FloatAxioms.eqb_spec. change (Prim2SF 0) with (S754_zero false). unfold SFeqb.
  destruct (Prim2SF x) as [s|s| |s m e]; simpl; try discriminate; eauto;
    destruct s; discriminate.
Qed.

Lemma norm_of_zero (ray : vec) : zero ray = true -> norm ray = 0.
Proof.
  rewrite MeshTheory.zero_spec. intros Hz.
  apply andb_true_iff in Hz as [Hz Hz3]. apply andb_true_iff in Hz as [Hz1 Hz2].
  apply eqb_zero_class in Hz1 as [s1 H1]. apply eqb_zero_class in Hz2 as [s2 H2].
  apply eqb_zero_class in Hz3 as [s3 H3].
  apply Prim2SF_inj. unfold norm, norm2, dot, vsum, vmul. cbn [vx vy vz].
  rewrite sqrt_spec, !add_spec, !mul_spec, H1, H2, H3.
  destruct s1, s2, s3; reflexivity.
Qed.

Lemma zero_times_quotient (x k : float) :
  (x =? 0) = true -> x * (k / 0) = nan.
Proof.
  intros Hx. apply eqb_zero_class in Hx as [s Hs].
  apply Prim2SF_inj. rewrite mul_spec, div_spec, Hs.
  change (Prim2SF 0) with (S754_zero false). change (Prim2SF nan) with S754_nan.
  destruct (Prim2SF k) as [sk|sk| |sk mk ek]; reflexivity.
Qed.

(** X6.  [resize] does not guard its division: on a vector whose
    components are all zero the length is zero, the quotient
    [new_size / 0] is an infinity or a NaN, and every component of the
    result is a NaN, whatever [new_size]. *)
Theorem resize_zero_vector (ray : vec) (new_size : float) :
  zero ray = true -> resize ray new_size = Vec nan nan nan.
Proof.
  intros Hz. unfold resize, resize3, vscale_r. rewrite (norm_of_zero ray Hz).
  rewrite MeshTheory.zero_spec in Hz.
  apply andb_true_iff in Hz as [Hz Hz3]. apply andb_true_iff in Hz as [Hz1 Hz2].
  now rewrite !zero_times_quotient.
Qed.

Lemma resize_zero_vector_witness : resize (Vec 0 (-0) 0) 5 = Vec nan nan nan.
Proof. apply (resize_zero_vector (Vec 0 (-0) 0) 5). reflexivity. Defined.

End KernelTheory.

(** ** Further properties of the collision resolver *)

Module ResolverTheory.

Import Mesh MeshTheory.
Local Open Scope float_scope.

Section WithExtern.

Variable E : Extern.

(** *** A mesh without a shape *)

Ltac crunch :=
  repeat (cbn -[zero];
          unfold Mesh_detectCollision, dispatch, Rectangle2D_detectCollision,
                 Polygon2D_detectCollision, getCollisionSpace,
                 Polygon2D_getCollisionSpace, new_Rectangle2D).

(** X7.  A plain [Mesh] (the default mesh of an entity) collides with
    nothing, as receiver or as argument, whatever the other mesh, the
    offsets and the velocities; the call leaves [point] as it was. *)
Theorem Generic_never_collides (p : vec) (other : Mesh) (a va b vb pt : vec) (ti : bool) :
  (exists s, detectCollision E (Generic p) other a va b vb pt ti = Some (false, s)
             /\ point s = pt)
  /\ (exists s, detectCollision E other (Generic p) b vb a va pt ti = Some (false, s)
                /\ point s = pt).
Proof.
  split.
  - unfold detectCollision. destruct other, ti; crunch;
      destruct (zero va), (zero vb); crunch; eexists; split; reflexivity.
  - unfold detectCollision. destruct other, ti; crunch;
      destruct (zero va), (zero vb); crunch; eexists; split; reflexivity.
Qed.

(** *** What a call prints *)

(** The lines [first case ...] and [second case ...] in a trace. *)
Definition is_line (e : Event) : bool :=
  match e with EvFirstCase _ _ | EvSecondCase _ _ => true | EvSpace _ _ _ => false end.

Definition lines (t : list Event) : list Event := filter is_line t.

Lemma lines_app (t1 t2 : list Event) : lines (t1 ++ t2) = lines t1 ++ lines t2.
Proof. apply filter_app. Qed.

Lemma lines_emit_space (m : Mesh) (v : vec) (sp : option Mesh) (s : St) :
  lines (trace (emit (EvSpace m v sp) s)) = lines (trace s).
Proof. unfold emit. cbn [trace]. rewrite lines_app. cbn. apply app_nil_r. Qed.

Lemma miss_silent (n : nat) :
  forall this other a va b vb ti s s',
    detectCollision_fuel E n this other a va b vb ti s = Some (false, s') ->
    lines (trace s') = lines (trace s).
Proof.
  induction n as [|n IH]; intros this other a va b vb ti s s' H; [discriminate|].
  cbn [detectCollision_fuel] in H. rewrite dispatch_narrow in H.
  pose proof (narrow_trace E this other a b s) as Hn.
  destruct (narrow E this other a b s) as [h1 s1]. simpl in Hn.
  destruct h1; [discriminate|].
  rewrite <- Hn. clear Hn s. revert H. generalize s1. clear s1. intros s H.
  unfold Mesh_detectCollision in H.
  assert (Hretry : forall s0, lines (trace s0) = lines (trace s) ->
    (if ti then detectCollision_fuel E n other this b vb a va false s0
     else Some (false, s0)) = Some (false, s') -> lines (trace s') = lines (trace s)).
  { intros s0 H0 Hr. destruct ti.
    - apply IH in Hr. congruence.
    - inversion Hr; subst. exact H0. }
  destruct (negb (zero va && zero vb)).
  2:{ apply (Hretry s); [reflexivity|exact H]. }
  destruct (getCollisionSpace E this va) as [ms|].
  2:{ eapply Hretry; [|exact H]. apply lines_emit_space. }
  destruct (detectCollision_fuel E n ms other a (Vec 0 0 0) b vb ti _)
    as [[[] s2]|] eqn:H2; try discriminate.
  apply IH in H2. rewrite lines_emit_space in H2.
  destruct (getCollisionSpace E other vb) as [os|].
  2:{ eapply Hretry; [|exact H]. now rewrite lines_emit_space. }
  destruct (detectCollision_fuel E n ms os a (Vec 0 0 0) b (Vec 0 0 0) ti _)
    as [[[] s3]|] eqn:H3; try discriminate.
  apply IH in H3. rewrite lines_emit_space in H3.
  eapply Hretry; [|exact H]. congruence.
Qed.

(** X8.  A call of [detectCollision] that answers [false] has printed
    nothing: the lines [first case] and [second case] go with a hit; and
    every call returns. *)
Theorem miss_prints_nothing (this other : Mesh) (a va b vb pt : vec) (ti : bool) :
  exists h s,
    detectCollision E this other a va b vb pt ti = Some (h, s)
    /\ (h = false -> lines (trace s) = []).
Proof.
  unfold detectCollision.
  destruct (detectCollision_fuel_total E (S (depth this other ti)) this other a va b vb ti
              {| point := pt; trace := [] |}) as [[h s] Hr]; [lia|].
  exists h, s. split; [exact Hr|]. intros ->. now apply miss_silent in Hr.
Qed.

(** *** Polygons as circles *)

(** A polygon or a sphere without its angle, its number of sides and
    its class: the circle around it. *)
Definition circle_of (m : Mesh) : Mesh :=
  match m with
  | Polygon2D p r _ _ | Sphere2D p r _ _ => Polygon2D p r 0 0
  | _ => m
  end.

(** Two outcomes with the same answer and the same [point]. *)
Definition agree (r r' : option (bool * St)) : Prop :=
  match r, r' with
  | Some (h, s), Some (h', s') => h = h' /\ point s = point s'
  | None, None => True
  | _, _ => False
  end.

Lemma narrow_circle_of (this other : Mesh) (a b : vec) (s s' : St) :
  point s = point s' ->
  fst (narrow E this other a b s) = fst (narrow E (circle_of this) (circle_of other) a b s')
  /\ point (snd (narrow E this other a b s))
     = point (snd (narrow E (circle_of this) (circle_of other) a b s')).
Proof.
  intros Hp. destruct this, other; cbn; try (split; [reflexivity|assumption]);
    try rewrite Hp;
    repeat match goal with
           | |- context [collisionRectangles2D ?e ?a1 ?a2 ?a3 ?a4 ?a5 ?a6 ?a7 ?a8] =>
               destruct (collisionRectangles2D e a1 a2 a3 a4 a5 a6 a7 a8) as [? [?|]]
           | |- context [collisionRectangleCircle2D ?e ?a1 ?a2 ?a3 ?a4 ?a5 ?a6 ?a7] =>
               destruct (collisionRectangleCircle2D e a1 a2 a3 a4 a5 a6 a7) as [? ?]
           end; cbn; split; try reflexivity; try assumption.
Qed.

Lemma getCollisionSpace_circle_of (m : Mesh) (v : vec) :
  getCollisionSpace E (circle_of m) v = getCollisionSpace E m v.
Proof. destruct m; reflexivity. Qed.

Lemma circle_of_space (m sp : Mesh) (v : vec) :
  getCollisionSpace E m v = Some sp -> circle_of sp = sp.
Proof. destruct m; simpl; intros H; inversion H; reflexivity. Qed.

Lemma point_emit (e : Event) (s : St) : point (emit e s) = point s.
Proof. reflexivity. Qed.

Lemma detect_circle_of (n : nat) :
  forall this other a va b vb ti s s',
    point s = point s' ->
    agree (detectCollision_fuel E n this other a va b vb ti s)
          (detectCollision_fuel E n (circle_of this) (circle_of other) a va b vb ti s').
Proof.
  induction n as [|n IH]; intros this other a va b vb ti s s' Hp; [exact I|].
  cbn [detectCollision_fuel]. rewrite !dispatch_narrow.
  destruct (narrow_circle_of this other a b s s' Hp) as [Hh Hq].
  destruct (narrow E this other a b s) as [h1 s1].
  destruct (narrow E (circle_of this) (circle_of other) a b s') as [h1' s1'].
  simpl in Hh, Hq. subst h1'. destruct h1; [split; [reflexivity|assumption]|].
  clear Hp s s'. unfold Mesh_detectCollision.
  assert (Hretry : forall s0 s0', point s0 = point s0' ->
    agree (if ti then detectCollision_fuel E n other this b vb a va false s0
           else Some (false, s0))
          (if ti then detectCollision_fuel E n (circle_of other) (circle_of this)
                        b vb a va false s0'
           else Some (false, s0'))).
  { intros s0 s0' H0. destruct ti; [now apply IH|split; [reflexivity|assumption]]. }
  destruct (negb (zero va && zero vb)); [|now apply Hretry].
  rewrite !getCollisionSpace_circle_of.
  destruct (getCollisionSpace E this va) as [ms|] eqn:Hms; [|now apply Hretry].
  pose proof (IH ms other a (Vec 0 0 0) b vb ti
                (emit (EvSpace this va (Some ms)) s1)
                (emit (EvSpace (circle_of this) va (Some ms)) s1') Hq) as H2.
  rewrite (circle_of_space _ _ _ Hms) in H2.
  destruct (detectCollision_fuel E n ms other a (Vec 0 0 0) b vb ti _) as [[h2 s2]|];
    destruct (detectCollision_fuel E n ms (circle_of other) a (Vec 0 0 0) b vb ti _)
      as [[h2' s2']|]; simpl in H2; try contradiction; [|exact I].
  destruct H2 as [<- Hp2]. destruct h2; [split; [reflexivity|exact Hp2]|].
  destruct (getCollisionSpace E other vb) as [os|] eqn:Hos; [|now apply Hretry].
  pose proof (IH ms os a (Vec 0 0 0) b (Vec 0 0 0) ti
                (emit (EvSpace other vb (Some os)) s2)
                (emit (EvSpace (circle_of other) vb (Some os)) s2') Hp2) as H3.
  rewrite (circle_of_space _ _ _ Hms), (circle_of_space _ _ _ Hos) in H3.
  destruct (detectCollision_fuel E n ms os a (Vec 0 0 0) b (Vec 0 0 0) ti _) as [[h3 s3]|];
    destruct (detectCollision_fuel E n ms os a (Vec 0 0 0) b (Vec 0 0 0) ti _)
      as [[h3' s3']|]; simpl in H3; try contradiction; [|exact I].
  destruct H3 as [<- Hp3]. destruct h3; [split; [reflexivity|exact Hp3]|].
  now apply Hretry.
Qed.

Lemma depth_circle_of (this other : Mesh) (ti : bool) :
  depth (circle_of this) (circle_of other) ti = depth this other ti.
Proof. destruct this, other; reflexivity. Qed.

(** X9.  Collision detection treats a polygon as the circle around it:
    the answer and the contact point depend on the position and the
    radius of a [Polygon2D] or [Sphere2D], not on its number of sides,
    its angle or which of the two classes it is. *)
Theorem polygons_collide_as_circles
  (this this' other other' : Mesh) (a va b vb pt : vec) (ti : bool) :
  circle_of this = circle_of this' -> circle_of other = circle_of other' ->
  exists h s s',
    detectCollision E this other a va b vb pt ti = Some (h, s)
    /\ detectCollision E this' other' a va b vb pt ti = Some (h, s')
    /\ point s = point s'.
Proof.
  intros Ht Ho. unfold detectCollision.
  set (s0 := {| point := pt; trace := [] |}).
  pose proof (detect_circle_of (S (depth this other ti)) this other a va b vb ti s0 s0
                eq_refl) as H1.
  pose proof (detect_circle_of (S (depth this' other' ti)) this' other' a va b vb ti s0 s0
                eq_refl) as H2.
  rewrite <- (depth_circle_of this' other'), <- Ht, <- Ho, depth_circle_of in H2.
  rewrite <- (depth_circle_of this' other'), <- Ht, <- Ho, depth_circle_of.
  destruct (detectCollision_fuel_total E (S (depth this other ti)) this other a va b vb ti s0)
    as [[h s] Hr]; [lia|].
  rewrite Hr in H1.
  destruct (detectCollision_fuel E _ (circle_of this) _ _ _ _ _ _ _) as [[hc sc]|];
    [|contradiction].
  destruct H1 as [<- Hp1].
  destruct (detectCollision_fuel E _ this' other' _ _ _ _ _ _) as [[h' s']|];
    [|contradiction].
  destruct H2 as [-> Hp2]. exists h, s, s'. repeat split; congruence.
Qed.

End WithExtern.

Lemma polygons_collide_as_circles_witness :
  exists h s s',
    detectCollision sample_extern (new_Polygon2D (Vec 0 0 0) 1 3 0.5)
      (new_Sphere2D (Vec 5.5 0 0) 1) (Vec 0 0 0) (Vec 5 0 0) (Vec 0 0 0) (Vec 1 0 0)
      (Vec 0 0 0) true = Some (h, s)
    /\ detectCollision sample_extern (new_Sphere2D (Vec 0 0 0) 1)
         (new_Polygon2D (Vec 5.5 0 0) 1 8 0) (Vec 0 0 0) (Vec 5 0 0) (Vec 0 0 0) (Vec 1 0 0)
         (Vec 0 0 0) true = Some (h, s')
    /\ point s = point s'.
Proof.
  apply (polygons_collide_as_circles sample_extern (new_Polygon2D (Vec 0 0 0) 1 3 0.5)
           (new_Sphere2D (Vec 0 0 0) 1) (new_Sphere2D (Vec 5.5 0 0) 1)
           (new_Polygon2D (Vec 5.5 0 0) 1 8 0)); reflexivity.
Defined.

End ResolverTheory.

(** ** Shapes and what they draw *)

Module ShapeTheory.

Import Mesh MeshTheory.
Local Open Scope float_scope.

Section WithExtern.

Variable E : Extern.

(** *** [rotate] *)

Definition component (axis : Axis) (v : vec) : float :=
  match axis with AXIS_X => vx v | AXIS_Y => vy v | AXIS_Z => vz v end.

(** A rotation by a zero angle of either sign is the identity, and any
    rotation hands on the component along its axis untouched. *)
Lemma rotate_axis (ray : vec) (angle : float) (axis : Axis) :
  ((angle =? 0) = true -> rotate E ray angle axis = ray)
  /\ component axis (rotate E ray angle axis) = component axis ray.
Proof.
  unfold rotate. destruct (angle =? 0); [split; reflexivity|].
  split; [discriminate|]. now destruct axis.
Qed.

(** *** The cached corners of a rectangle *)

Inductive setter : Type :=
| SetWidth (_width : float)
| SetHeight (_height : float)
| SetAngle (_angle : float)
| SetPosition (_position : vec).

Definition apply_setter (m : Mesh) (x : setter) : Mesh :=
  match x with
  | SetWidth w => setWidth E w m
  | SetHeight h => setHeight E h m
  | SetAngle a => setAngle E a m
  | SetPosition p => Rectangle2D_setPosition E p m
  end.

(** The corners are what [updatePositions] makes of the position, the
    sizes and the angle. *)
Definition corners_fresh (m : Mesh) : Prop := updatePositions E m = m.

Lemma updatePositions_fresh (m : Mesh) : corners_fresh (updatePositions E m).
Proof. destruct m; reflexivity. Qed.

Lemma apply_setter_fresh (m : Mesh) (x : setter) :
  corners_fresh m -> corners_fresh (apply_setter m x).
Proof.
  intros Hm. destruct x, m; try exact Hm; apply updatePositions_fresh.
Qed.

Lemma default_last_cons {A : Type} (d x : A) (l : list A) :
  default d (last (x :: l)) = default x (last l).
Proof. rewrite last_cons. now destruct (last l). Qed.

(** The value that a run of setters leaves in one member. *)
Definition last_set {A : Type} (f : setter -> option A) (l : list setter) (d : A) : A :=
  default d (last (omap f l)).

Definition width_set (x : setter) : option float :=
  match x with SetWidth q => Some q | _ => None end.
Definition height_set (x : setter) : option float :=
  match x with SetHeight q => Some q | _ => None end.
Definition angle_set (x : setter) : option float :=
  match x with SetAngle q => Some q | _ => None end.
Definition position_set (x : setter) : option vec :=
  match x with SetPosition q => Some q | _ => None end.

Lemma last_set_cons {A : Type} (f : setter -> option A) (x : setter) (l : list setter)
  (d : A) :
  last_set f (x :: l) d = last_set f l (default d (f x)).
Proof.
  unfold last_set. cbn. destruct (f x) as [q|]; [|reflexivity].
  apply default_last_cons.
Qed.

(** X10.  A [Rectangle2D] that is built by its constructor and changed
    by its own setters always has its three cached corners in step with
    its position, sizes and angle, and its accessors give back what was
    set last. *)
Theorem Rectangle2D_corners_fresh (p : vec) (w h a : float) (l : list setter) :
  let m := fold_left apply_setter l (new_Rectangle2D E p w h a) in
  corners_fresh m
  /\ getPosition m = last_set position_set l p
  /\ getWidth m = last_set width_set l w
  /\ getHeight m = last_set height_set l h
  /\ getAngle m = last_set angle_set l a.
Proof.
  cbv zeta. unfold new_Rectangle2D.
  set (m0 := Rectangle2D p w h a _ _ _).
  assert (H0 : corners_fresh m0 /\ getType m0 = "rectangle2d"%string
               /\ getPosition m0 = p /\ getWidth m0 = w /\ getHeight m0 = h
               /\ getAngle m0 = a) by (repeat split).
  clearbody m0. revert m0 p w h a H0.
  induction l as [|x l IH]; intros m0 p w h a H0.
  { destruct H0 as (Hf & Ht & Hp & Hw & Hh & Ha). repeat split; assumption. }
  cbn [fold_left]. rewrite !last_set_cons.
  destruct H0 as (Hf & Ht & Hp & Hw & Hh & Ha).
  destruct m0; try discriminate. cbn in Hp, Hw, Hh, Ha. subst.
  apply IH. destruct x; repeat split.
Qed.

(** The setter of the base class moves the first corner and leaves the
    other three where they were. *)
Example Mesh_setPosition_stale_corners :
  let r := new_Rectangle2D sample_extern (Vec 0 0 0) 2 1 0 in
  let r' := Mesh_setPosition (Vec 10 0 0) r in
  getTopLeftPosition r' = Vec 10 0 0
  /\ getTopRightPosition r' = Vec 2 0 0
  /\ getTopRightPosition (Rectangle2D_setPosition sample_extern (Vec 10 0 0) r) = Vec 12 0 0.
Proof. repeat split. Qed.

(** *** What drawing sends to OpenGL *)

Variable step_of_sides : Z -> float.

Definition is_vertex (c : GlCall) : bool :=
  match c with glVertex3d _ _ _ => true | _ => false end.

(** X11.  [Polygon2D::_draw] opens one primitive (a line loop when
    [only_border] is set, a triangle fan otherwise), applies the
    background, sends exactly [sides] vertices, none when [sides] is zero
    or negative, all at the depth of the centre, and closes the
    primitive. *)
Theorem Polygon2D_draw_vertices (this : Mesh) (offset : vec) (background : N)
  (only_border : bool) :
  exists vs,
    Polygon2D_draw E step_of_sides this offset background only_border
    = glBegin (if only_border then GL_LINE_LOOP else GL_TRIANGLE_FAN)
      :: Background_apply background :: vs ++ [glEnd]
    /\ length vs = Z.to_nat (getSides this)
    /\ Forall (fun c => exists x y, c = glVertex3d x y (vz offset + vz (getPosition this))) vs.
Proof.
  unfold Polygon2D_draw. eexists. split; [reflexivity|]. split.
  - now rewrite length_map, length_seqZ.
  - apply Forall_forall. intros c Hc. apply list_elem_of_fmap in Hc as (i & -> & _). eauto.
Qed.

(** The shapes of a tree of meshes, parents before children. *)
Fixpoint shapes (t : Tree) : list Mesh :=
  match t with Node shape children => shape :: flat_map shapes children end.

Definition has_shape (m : Mesh) : bool :=
  match m with Generic _ => false | _ => true end.

Definition is_begin (c : GlCall) : bool :=
  match c with glBegin _ => true | _ => false end.

(** Calls that OpenGL accepts: vertices and [glEnd] inside a primitive
    only, no [glBegin] inside one, and the primitive closed at the end. *)
Fixpoint bracketed (inside : bool) (l : list GlCall) : bool :=
  match l with
  | [] => negb inside
  | glBegin _ :: l => negb inside && bracketed true l
  | glEnd :: l => inside && bracketed false l
  | glVertex3d _ _ _ :: l => inside && bracketed inside l
  | Background_apply _ :: l => bracketed inside l
  end.

Lemma bracketed_app (i : bool) (l1 l2 : list GlCall) :
  bracketed i l1 = true -> bracketed false l2 = true -> bracketed i (l1 ++ l2) = true.
Proof.
  revert i. induction l1 as [|c l1 IH]; intros i H1 H2.
  - simpl in *. now destruct i.
  - destruct c, i; simpl in *; try discriminate; now apply IH.
Qed.

Lemma bracketed_vertices {A : Type} (f : A -> float * float * float) (l : list A) :
  bracketed true (map (fun i => let '(x, y, z) := f i in glVertex3d x y z) l ++ [glEnd]) = true.
Proof.
  induction l as [|i l IH]; [reflexivity|]. simpl. now destruct (f i) as [[x y] z].
Qed.

Lemma bracketed_draw (m : Mesh) (offset : vec) (background : N) (only_border : bool) :
  bracketed false (_draw E step_of_sides m offset background only_border) = true.
Proof.
  assert (Hp : forall this,
    bracketed false (Polygon2D_draw E step_of_sides this offset background only_border) = true).
  { intros this. unfold Polygon2D_draw. cbn [app bracketed negb andb].
    set (position := vadd offset (getPosition this)).
    apply (bracketed_vertices
             (fun i => (vx position + getRadius this
                          * cos E (double_of_int i * step_of_sides (getSides this)
                                   + getAngle this),
                        vy position + getRadius this
                          * sin E (double_of_int i * step_of_sides (getSides this)
                                   + getAngle this),
                        vz position))). }
  destruct m; [reflexivity|reflexivity|apply Hp|apply Hp].
Qed.

Lemma begin_draw (m : Mesh) (offset : vec) (background : N) (only_border : bool) :
  filter is_begin (_draw E step_of_sides m offset background only_border)
  = if has_shape m then [glBegin (mode_of only_border)] else [].
Proof.
  assert (Hp : forall this,
    filter is_begin (Polygon2D_draw E step_of_sides this offset background only_border)
    = [glBegin (mode_of only_border)]).
  { intros this. unfold Polygon2D_draw. cbn. f_equal.
    induction (seqZ 0 (getSides this)) as [|i l IH]; [reflexivity|exact IH]. }
  destruct m; [reflexivity|reflexivity|apply Hp|apply Hp].
Qed.

Lemma Tree_induction (P : Tree -> Prop) :
  (forall shape children, Forall P children -> P (Node shape children)) ->
  forall t, P t.
Proof.
  intros H. fix IH 1. intros [shape children]. apply H.
  induction children as [|c cs IHcs]; constructor; [apply IH|exact IHcs].
Qed.

Lemma Mesh_draw_unfold (shape : Mesh) (children : list Tree) (offset : vec)
  (background : N) (only_border : bool) :
  Mesh_draw E step_of_sides (Node shape children) offset background only_border
  = _draw E step_of_sides shape offset background only_border
    ++ flat_map (fun mesh => Mesh_draw E step_of_sides mesh (vadd offset (getPosition shape))
                               background only_border) children.
Proof. destruct children; reflexivity. Qed.

(** The meshes of a tree in the order of [shapes], each with the offset
    it is drawn at: the offset of its parent plus the position of its
    parent. *)
Fixpoint placed (t : Tree) (offset : vec) : list (Mesh * vec) :=
  match t with
  | Node shape children =>
      (shape, offset)
      :: flat_map (fun mesh => placed mesh (vadd offset (getPosition shape))) children
  end.

Lemma placed_shapes (t : Tree) (offset : vec) : map fst (placed t offset) = shapes t.
Proof.
  revert offset. induction t as [shape children IH] using Tree_induction. intros offset.
  cbn [placed shapes map fst]. f_equal.
  induction IH as [|c cs Hc _ IHcs]; [reflexivity|].
  cbn [flat_map]. now rewrite map_app, Hc, IHcs.
Qed.

(** X12.  [Mesh::draw] on a tree of meshes draws every mesh of the tree
    once, a mesh before its children and the children in the order they
    were added, each at the offset of its parent plus the position of
    its parent.  What OpenGL is sent is well formed: one primitive for
    every mesh that has a shape, all in the mode that [only_border]
    selects, each closed before the next is opened. *)
Theorem Mesh_draw_primitives (t : Tree) (offset : vec) (background : N) (only_border : bool) :
  Mesh_draw E step_of_sides t offset background only_border
  = flat_map (fun p => _draw E step_of_sides (fst p) (snd p) background only_border)
             (placed t offset)
  /\ map fst (placed t offset) = shapes t
  /\ (forall shape children,
        t = Node shape children ->
        Mesh_draw E step_of_sides t offset background only_border
        = _draw E step_of_sides shape offset background only_border
          ++ flat_map (fun mesh => Mesh_draw E step_of_sides mesh
                                     (vadd offset (getPosition shape)) background only_border)
                      children)
  /\ bracketed false (Mesh_draw E step_of_sides t offset background only_border) = true
  /\ filter is_begin (Mesh_draw E step_of_sides t offset background only_border)
     = map (fun _ => glBegin (if only_border then GL_LINE_LOOP else GL_TRIANGLE_FAN))
           (filter has_shape (shapes t)).
Proof.
  split; [|split; [apply placed_shapes|split; [intros shape children ->; apply Mesh_draw_unfold|]]].
  { revert offset. induction t as [shape children IH] using Tree_induction. intros offset.
    rewrite Mesh_draw_unfold. cbn [placed flat_map fst snd]. f_equal.
    induction IH as [|c cs Hc _ IHcs]; [reflexivity|].
    cbn [flat_map]. now rewrite flat_map_app, Hc, IHcs. }
  revert offset. induction t as [shape children IH] using Tree_induction. intros offset.
  rewrite Mesh_draw_unfold. cbn [shapes]. split.
  - apply bracketed_app; [apply bracketed_draw|].
    induction IH as [|c cs Hc _ IHcs]; [reflexivity|].
    cbn [flat_map]. apply bracketed_app; [apply Hc|exact IHcs].
  - rewrite filter_app, begin_draw, filter_cons.
    replace (filter is_begin (flat_map _ children))
      with (map (fun _ : Mesh => glBegin (mode_of only_border))
                (filter has_shape (flat_map shapes children))).
    { unfold mode_of. destruct (has_shape shape); [|reflexivity].
      rewrite decide_True by exact I. reflexivity. }
    induction IH as [|c cs Hc _ IHcs]; [reflexivity|].
    cbn [flat_map]. rewrite !filter_app, map_app, IHcs. f_equal.
    symmetry. apply Hc.
Qed.

Definition root_shape (t : Tree) : Mesh :=
  match t with Node shape _ => shape end.

(** X13.  A child mesh added with [addChild] is drawn after everything
    the mesh drew before, at the offset of the mesh plus the position of
    the mesh; what was drawn before is drawn as before. *)
Theorem Mesh_addChild_draws_last (child this : Tree) (offset : vec) (background : N)
  (only_border : bool) :
  Mesh_draw E step_of_sides (Mesh_addChild child this) offset background only_border
  = Mesh_draw E step_of_sides this offset background only_border
    ++ Mesh_draw E step_of_sides child (vadd offset (getPosition (root_shape this)))
         background only_border.
Proof.
  destruct this as [shape children]. cbn [Mesh_addChild root_shape].
  rewrite !Mesh_draw_unfold, flat_map_app. cbn [flat_map].
  now rewrite app_nil_r, app_assoc.
Qed.

End WithExtern.

End ShapeTheory.

(** ** Further properties of the entity tree *)

Module SceneTheory.

Import Object ObjectTheory.

(** *** Entities without a parent *)

(** Address 0 holds no object and was never deleted. *)
Definition null_free (s : Scene) : Prop :=
  heap s !! NULL = None /\ NULL ∉ invalid s.

(** X1.  The sweep cannot tear down an entity whose [parent] is [NULL]
    (a root): [removeParent] finds [NULL] valid, since the registry does
    not list it, and calls [removeChild] on it, which reads the child set
    of an object that does not exist.  The behaviour is undefined. *)
Theorem sweep_of_root_undefined (H : Hooks) (obj : ptr) (rest : list ptr) (w : World)
  (oo : Object) (fuel : nat) :
  quiet_teardown H ->
  null_free (scene w) ->
  marked (scene w) = obj :: rest ->
  heap (scene w) !! obj = Some oo -> obj ∉ invalid (scene w) ->
  parent oo = NULL ->
  delayedDestroy_loop H (S fuel) w = Undefined.
Proof.
  intros Hq [Hn Hv] Hm Ho Hi Hp. destruct w as [[h i m] d l]. simpl in *. subst m.
  rewrite (proj2 (isValid_true (mkScene h i rest) obj) Hi).
  unfold teardown.
  rewrite virtual_call_quiet; [|apply elem_of_dom; simpl; eauto|apply Hq]. cbn [bind].
  unfold lift at 1. cbn [scene emit].
  unfold removeParent. rewrite (proj2 (isValid_true (mkScene h i rest) obj) Hi).
  unfold deref at 1. cbn [heap]. rewrite Ho. cbn [bind]. rewrite Hp.
  rewrite (proj2 (isValid_true (mkScene h i rest) NULL) Hv).
  unfold removeChild.
  rewrite (proj2 (isValid_true (mkScene h i rest) NULL) Hv),
          (proj2 (isValid_true (mkScene h i rest) obj) Hi). cbn [andb].
  rewrite (modify_Ok obj _ (mkScene h i rest) oo Ho). cbn [bind].
  unfold deref. cbn [heap].
  rewrite lookup_insert_ne; [|intros ->; simpl in Hn; congruence].
  simpl in Hn. rewrite Hn. reflexivity.
Qed.

Lemma sweep_of_root_undefined_witness :
  delayedDestroy_loop base_hooks 1 (mkWorld (scene_of (destroy 1 family)) true []) = Undefined.
Proof.
  apply (sweep_of_root_undefined base_hooks 1%N [] _
           (set_display false (mkObject true 10 NULL 11 [3%N; 2%N] NULL origin origin origin))).
  - exact quiet_base_hooks.
  - split; [reflexivity|]. apply (bool_decide_unpack _). vm_compute. exact I.
  - reflexivity.
  - vm_compute. reflexivity.
  - apply (bool_decide_unpack _). vm_compute. exact I.
  - reflexivity.
Defined.

(** *** [setParent] *)

(** X14.  [setParent] does not give the receiver a parent.  It hands
    [obj] to the receiver's parent: [obj] becomes a child of that parent,
    a sibling of the receiver, whose own [parent] stays as it was.  On a
    receiver without a parent the call is undefined: [addChild] runs on
    [NULL]. *)
Theorem setParent_makes_sibling (this obj : ptr) (s : Scene) (ot oo : Object) :
  heap s !! this = Some ot -> heap s !! obj = Some oo ->
  this ∉ invalid s -> obj ∉ invalid s ->
  (forall op, heap s !! parent ot = Some op -> parent ot ∉ invalid s ->
     exists s' op',
       setParent this obj s = Ok s'
       /\ parent <$> heap s' !! this = Some (parent ot)
       /\ parent <$> heap s' !! obj = Some (parent ot)
       /\ heap s' !! parent ot = Some op'
       /\ children op' = set_insert obj (children op))
  /\ (parent ot = NULL -> null_free s -> setParent this obj s = Undefined).
Proof.
  intros Ht Ho Hvt Hvo.
  assert (Hs : setParent this obj s = addChild (parent ot) obj s).
  { unfold setParent. rewrite (proj2 (isValid_true s this) Hvt),
      (proj2 (isValid_true s obj) Hvo). cbn [andb]. unfold deref. now rewrite Ht. }
  rewrite Hs. split.
  - remember (parent ot) as P eqn:HP. intros op Hp Hvp. unfold addChild.
    rewrite (proj2 (isValid_true s P) Hvp), (proj2 (isValid_true s obj) Hvo).
    cbn [andb]. rewrite (modify_Ok obj _ s oo Ho). cbn [bind].
    set (s1 := mkScene (<[obj := set_parent P oo]> (heap s)) (invalid s) (marked s)).
    assert (H1 : exists o1, heap s1 !! P = Some o1 /\ children o1 = children op
                            /\ (P = this -> parent o1 = P) /\ (P = obj -> parent o1 = P)).
    { unfold s1. cbn [heap]. destruct (decide (obj = P)) as [Heq|Hne].
      - subst obj. rewrite lookup_insert_eq. eexists. split; [reflexivity|]. split.
        + simpl. congruence.
        + split; intros _; reflexivity.
      - rewrite lookup_insert_ne by assumption. exists op. split; [assumption|].
        split; [reflexivity|]. split; [|congruence].
        intros Heq. rewrite Heq in Hp. congruence. }
    destruct H1 as (o1 & Ho1 & Hc1 & Hp1 & Hp2).
    unfold deref. rewrite Ho1. cbn [bind]. rewrite (modify_Ok _ _ s1 o1 Ho1).
    eexists. eexists. split; [reflexivity|]. cbn [heap]. unfold s1. cbn [heap].
    split; [|split; [|split]].
    + destruct (decide (P = this)) as [Heq|Hne].
      * rewrite <- Heq, lookup_insert_eq. simpl. f_equal. now apply Hp1.
      * rewrite lookup_insert_ne by assumption.
        destruct (decide (obj = this)) as [->|Hne'].
        -- rewrite lookup_insert_eq. reflexivity.
        -- rewrite lookup_insert_ne by assumption. rewrite Ht. simpl. congruence.
    + destruct (decide (P = obj)) as [Heq|Hne].
      * rewrite <- Heq, lookup_insert_eq. simpl. f_equal. now apply Hp2.
      * rewrite lookup_insert_ne by assumption. rewrite lookup_insert_eq. reflexivity.
    + apply lookup_insert_eq.
    + simpl. now rewrite Hc1.
  - intros Hp [Hn Hv]. rewrite Hp. unfold addChild.
    rewrite (proj2 (isValid_true s NULL) Hv), (proj2 (isValid_true s obj) Hvo).
    cbn [andb]. rewrite (modify_Ok obj _ s oo Ho). cbn [bind].
    unfold deref. cbn [heap]. rewrite lookup_insert_ne; [|intros ->; congruence].
    now rewrite Hn.
Qed.

Lemma setParent_makes_sibling_witness :
  (forall op, heap family !! 1%N = Some op -> 1%N ∉ invalid family ->
     exists s' op',
       setParent 2 3 family = Ok s'
       /\ parent <$> heap s' !! 2%N = Some 1%N
       /\ parent <$> heap s' !! 3%N = Some 1%N
       /\ heap s' !! 1%N = Some op'
       /\ children op' = set_insert 3 (children op))
  /\ (1%N = NULL -> null_free family -> setParent 2 3 family = Undefined).
Proof.
  apply (setParent_makes_sibling 2 3 family
           (mkObject true 20 NULL 21 [] 1 origin origin origin)
           (mkObject true 30 NULL 31 [] 1 origin origin origin)).
  - vm_compute. reflexivity.
  - vm_compute. reflexivity.
  - apply (bool_decide_unpack _). vm_compute. exact I.
  - apply (bool_decide_unpack _). vm_compute. exact I.
Defined.

(** Entity 1 of the worked scene has no parent. *)
Example setParent_on_root_undefined : setParent 1 2 family = Undefined.
Proof. vm_compute. reflexivity. Qed.

(** *** The child set *)

(** Scenes with the same content: the same registry, the same marked
    entities, the same objects with the same members in their child
    sets, whatever the order in which the sets hand them out. *)
Definition same_content (s s' : Scene) : Prop :=
  invalid s = invalid s' /\ marked s = marked s'
  /\ forall p,
       match heap s !! p, heap s' !! p with
       | Some o, Some o' =>
           set_children [] o = set_children [] o' /\ children o ≡ₚ children o'
       | None, None => True
       | _, _ => False
       end.

Lemma same_content_refl (s : Scene) : same_content s s.
Proof.
  split; [reflexivity|]. split; [reflexivity|]. intros p.
  destruct (heap s !! p); [split; reflexivity|exact I].
Qed.

(** The round trip on the sequences of the model. *)
Lemma addChild_removeChild_sequences (this obj : ptr) (s : Scene) (ot oo : Object) :
  heap s !! this = Some ot -> heap s !! obj = Some oo ->
  this ∉ invalid s -> obj ∉ invalid s ->
  this <> obj -> obj ∉ children ot ->
  exists s1,
    addChild this obj s = Ok s1
    /\ addChild this obj s1 = Ok s1
    /\ removeChild this obj s1
       = Ok (mkScene (<[obj := set_parent NULL oo]> (heap s)) (invalid s) (marked s))
    /\ (parent oo = NULL -> removeChild this obj s1 = Ok s).
Proof.
  intros Ht Ho Hvt Hvo Hne Hnc.
  pose proof (proj2 (isValid_true s this) Hvt) as Vt.
  pose proof (proj2 (isValid_true s obj) Hvo) as Vo.
  set (h1 := <[this := set_children (obj :: children ot) ot]>
               (<[obj := set_parent this oo]> (heap s))).
  set (s1 := mkScene h1 (invalid s) (marked s)).
  assert (Hadd : addChild this obj s = Ok s1).
  { unfold addChild. rewrite Vt, Vo. cbn [andb].
    rewrite (modify_Ok obj _ s oo Ho). cbn [bind]. unfold deref. cbn [heap].
    rewrite lookup_insert_ne by congruence. rewrite Ht. cbn [bind].
    rewrite (modify_Ok this _ _ ot); [|cbn [heap]; rewrite lookup_insert_ne by congruence;
                                       exact Ht].
    unfold set_insert. rewrite bool_decide_eq_false_2 by assumption. reflexivity. }
  assert (Ho1 : heap s1 !! obj = Some (set_parent this oo)).
  { unfold s1, h1. cbn [heap]. rewrite lookup_insert_ne by assumption.
    apply lookup_insert_eq. }
  assert (Ht1 : heap s1 !! this = Some (set_children (obj :: children ot) ot)).
  { unfold s1, h1. cbn [heap]. apply lookup_insert_eq. }
  assert (Hrem : removeChild this obj s1
                 = Ok (mkScene (<[obj := set_parent NULL oo]> (heap s)) (invalid s)
                               (marked s))).
  { unfold removeChild. change (isValid s1 this) with (isValid s this).
    change (isValid s1 obj) with (isValid s obj). rewrite Vt, Vo. cbn [andb].
    rewrite (modify_Ok obj _ s1 _ Ho1). cbn [bind]. unfold deref. cbn [heap].
    rewrite lookup_insert_ne by congruence. rewrite Ht1.
    cbn [bind]. erewrite modify_Ok;
      [|cbn [heap]; rewrite lookup_insert_ne by congruence; exact Ht1].
    unfold s1, h1. cbn [heap invalid marked]. f_equal. f_equal.
    apply map_eq. intros p.
    destruct (decide (p = this)) as [->|Hpt].
    - rewrite lookup_insert_eq, lookup_insert_ne by congruence. rewrite Ht. f_equal.
      cbn [children set_children]. unfold set_erase. rewrite filter_cons.
      rewrite decide_False by (intros Hx; now apply Hx).
      change (filter (λ y : N, y ≠ obj) (children ot)) with (set_erase obj (children ot)).
      rewrite set_erase_absent by assumption.
      now destruct ot.
    - rewrite lookup_insert_ne by congruence.
      destruct (decide (p = obj)) as [->|Hpo].
      + rewrite !lookup_insert_eq. reflexivity.
      + rewrite !lookup_insert_ne by congruence. reflexivity. }
  exists s1. split; [exact Hadd|]. split; [|split; [exact Hrem|]].
  - unfold addChild. change (isValid s1 this) with (isValid s this).
    change (isValid s1 obj) with (isValid s obj). rewrite Vt, Vo. cbn [andb].
    rewrite (modify_Ok obj _ s1 _ Ho1). cbn [bind]. unfold deref. cbn [heap].
    rewrite lookup_insert_ne by congruence. rewrite Ht1.
    cbn [bind]. erewrite modify_Ok;
      [|cbn [heap]; rewrite lookup_insert_ne by congruence; exact Ht1].
    unfold s1, h1. cbn [heap invalid marked]. f_equal. f_equal.
    apply map_eq. intros p.
    destruct (decide (p = this)) as [->|Hpt].
    + rewrite !lookup_insert_eq. f_equal. cbn [children set_children].
      unfold set_insert. rewrite bool_decide_eq_true_2 by (apply list_elem_of_here).
      reflexivity.
    + rewrite !(lookup_insert_ne _ this) by congruence.
      destruct (decide (p = obj)) as [->|Hpo].
      * rewrite !lookup_insert_eq. reflexivity.
      * rewrite !lookup_insert_ne by congruence. reflexivity.
  - intros Hp. rewrite Hrem. f_equal. destruct s as [h i m]. cbn [heap invalid marked] in *.
    f_equal. apply insert_id. rewrite Ho. f_equal. destruct oo. simpl in *. now subst.
Qed.

(** X15.  [addChild] is idempotent, and [removeChild] undoes it: after
    both, every child set has the members it had and the child names no
    parent.  A child that named no parent before is as it was: the scene
    has the content it had before [addChild]. *)
Theorem addChild_removeChild_round_trip (this obj : ptr) (s : Scene) (ot oo : Object) :
  heap s !! this = Some ot -> heap s !! obj = Some oo ->
  this ∉ invalid s -> obj ∉ invalid s ->
  this <> obj -> obj ∉ children ot ->
  exists s1 s2 s3 ot1,
    addChild this obj s = Ok s1
    /\ heap s1 !! this = Some ot1
    /\ (forall c, c ∈ children ot1 <-> c = obj \/ c ∈ children ot)
    /\ (parent <$> heap s1 !! obj) = Some this
    /\ addChild this obj s1 = Ok s2 /\ same_content s2 s1
    /\ removeChild this obj s1 = Ok s3
    /\ same_content s3 (mkScene (<[obj := set_parent NULL oo]> (heap s)) (invalid s) (marked s))
    /\ (parent oo = NULL -> same_content s3 s).
Proof.
  intros Ht Ho Hvt Hvo Hne Hnc.
  destruct (addChild_removeChild_sequences this obj s ot oo Ht Ho Hvt Hvo Hne Hnc)
    as (s1 & Hadd & Hagain & Hrem & Hnull).
  pose proof Hadd as Hadd'. unfold addChild in Hadd'.
  rewrite (proj2 (isValid_true s this) Hvt), (proj2 (isValid_true s obj) Hvo) in Hadd'.
  cbn [andb] in Hadd'. rewrite (modify_Ok obj _ s oo Ho) in Hadd'. cbn [bind] in Hadd'.
  unfold deref in Hadd'. cbn [heap] in Hadd'.
  rewrite lookup_insert_ne in Hadd' by congruence. rewrite Ht in Hadd'. cbn [bind] in Hadd'.
  rewrite (modify_Ok this _ _ ot) in Hadd'
    by (cbn [heap]; rewrite lookup_insert_ne by congruence; exact Ht).
  inversion Hadd' as [Hs1]. clear Hadd'.
  exists s1, s1, (mkScene (<[obj := set_parent NULL oo]> (heap s)) (invalid s) (marked s)),
         (set_children (set_insert obj (children ot)) ot).
  split; [exact Hadd|]. split; [rewrite <- Hs1; cbn [heap]; apply lookup_insert_eq|].
  split.
  { intros c. cbn [children set_children]. unfold set_insert.
    rewrite bool_decide_eq_false_2 by assumption. apply elem_of_cons. }
  split.
  { rewrite <- Hs1. cbn [heap]. rewrite lookup_insert_ne by congruence.
    rewrite lookup_insert_eq. reflexivity. }
  split; [exact Hagain|]. split; [apply same_content_refl|].
  split; [exact Hrem|]. split; [apply same_content_refl|].
  intros Hp. specialize (Hnull Hp). rewrite Hrem in Hnull. injection Hnull as Hs.
  rewrite Hs. apply same_content_refl.
Qed.

Lemma addChild_removeChild_round_trip_witness :
  exists s1 s2 s3 ot1,
    addChild 2 3 three_objects = Ok s1
    /\ heap s1 !! 2%N = Some ot1
    /\ (forall c, c ∈ children ot1 <-> c = 3%N \/ c ∈ @nil ptr)
    /\ (parent <$> heap s1 !! 3%N) = Some 2%N
    /\ addChild 2 3 s1 = Ok s2 /\ same_content s2 s1
    /\ removeChild 2 3 s1 = Ok s3
    /\ same_content s3
         (mkScene (<[3%N := set_parent NULL
                              (mkObject true 30 NULL 31 [] NULL origin origin origin)]>
                     (heap three_objects))
                  (invalid three_objects) (marked three_objects))
    /\ (NULL = NULL -> same_content s3 three_objects).
Proof.
  apply (addChild_removeChild_round_trip 2 3 three_objects
           (mkObject true 20 NULL 21 [] NULL origin origin origin)
           (mkObject true 30 NULL 31 [] NULL origin origin origin)).
  - vm_compute. reflexivity.
  - vm_compute. reflexivity.
  - apply (bool_decide_unpack _). vm_compute. exact I.
  - apply (bool_decide_unpack _). vm_compute. exact I.
  - discriminate.
  - apply (bool_decide_unpack _). vm_compute. exact I.
Defined.

(** *** Sibling collisions *)

Lemma detectCollisions_from_tests (H : Hooks) (cs : list ptr) (w : World) :
  Forall (fun c => c ∈ dom (heap (scene w))) cs ->
  exists l, detectCollisions_from H cs w
            = Ok (mkWorld (scene w) (destroy_shared w) (log w ++ l))
            /\ Forall is_test l.
Proof.
  revert w. induction cs as [|c cs IH]; intros w Hall.
  - exists []. split; [|constructor]. cbn. rewrite app_nil_r. now destruct w.
  - apply Forall_cons in Hall as [Hc Hall]. apply elem_of_dom in Hc as [co Hco].
    cbn [detectCollisions_from].
    assert (H1 : exists l1,
      (if isValid (scene w) c
       then let* b := collides (scene w) c in
            if b then for_each cs (detect_with H c) w else Ok w
       else Ok w) = Ok (mkWorld (scene w) (destroy_shared w) (log w ++ l1))
      /\ Forall is_test l1).
    { destruct (isValid (scene w) c).
      2:{ exists []. split; [|constructor]. rewrite app_nil_r. now destruct w. }
      unfold collides, deref. rewrite Hco. cbn [bind].
      destruct (negb _).
      2:{ exists []. split; [|constructor]. rewrite app_nil_r. now destruct w. }
      rewrite for_each_detect_with. eexists. split; [reflexivity|].
      apply Forall_forall. intros e He. apply list_elem_of_fmap in He as (x & -> & _).
      exact I. }
    destruct H1 as (l1 & -> & Hl1). cbn [bind].
    destruct (IH (mkWorld (scene w) (destroy_shared w) (log w ++ l1)) Hall)
      as (l2 & -> & Hl2).
    exists (l1 ++ l2). cbn [scene destroy_shared log]. rewrite app_assoc.
    split; [reflexivity|]. now apply Forall_app.
Qed.

(** X16.  [detectCollisions] calls no collision hook and changes
    nothing: on a sound scene it returns, having run pair tests only,
    because the pair test of the source always answers [false]. *)
Theorem detectCollisions_calls_no_hook (H : Hooks) (this : ptr) (w : World) (o : Object) :
  sound (scene w) -> heap (scene w) !! this = Some o ->
  exists l, detectCollisions H this w
            = Ok (mkWorld (scene w) (destroy_shared w) (log w ++ l))
            /\ Forall is_test l.
Proof.
  intros Hs Ho. unfold detectCollisions, deref. rewrite Ho. cbn [bind].
  apply detectCollisions_from_tests. apply Forall_forall. intros c Hc.
  destruct (sound_children _ _ _ _ Hs Ho Hc) as (co & Hco & _). apply elem_of_dom. eauto.
Qed.

Lemma detectCollisions_calls_no_hook_witness :
  exists l, detectCollisions base_hooks 1 (mkWorld family true [])
            = Ok (mkWorld family true ([] ++ l))
            /\ Forall is_test l.
Proof.
  apply (detectCollisions_calls_no_hook base_hooks 1%N (mkWorld family true [])
           (mkObject true 10 NULL 11 [3%N; 2%N] NULL origin origin origin)).
  - exact family_sound.
  - vm_compute. reflexivity.
Defined.

(** *** The pairs that are tested *)

(** No entity has a collider.  [collider] is a private member of
    [Object] that starts as [NULL] and that no member function, and so
    no subclass, assigns: the scenes that the program builds are of this
    kind. *)
Definition no_collider (s : Scene) : Prop :=
  map_Forall (fun _ o => collider o = NULL) (heap s).

#[local] Instance no_collider_dec (s : Scene) : Decision (no_collider s).
Proof. unfold no_collider. apply _. Defined.

Lemma construct_no_collider (this : ptr) (p : Mesh.vec) (d : bool) (m b : ptr)
  (v a : Mesh.vec) (s : Scene) :
  no_collider s -> no_collider (construct this p d m b v a s).
Proof.
  intros Hs q o Hq. unfold construct in Hq. cbn [heap] in Hq.
  apply lookup_insert_Some in Hq as [[_ <-]|[_ Hq]]; [reflexivity|exact (Hs _ _ Hq)].
Qed.

Lemma modify_no_collider (p : ptr) (f : Object -> Object) (s s' : Scene) :
  (forall o, collider (f o) = collider o) ->
  no_collider s -> modify p f s = Ok s' -> no_collider s'.
Proof.
  intros Hf Hs Hm. apply modify_inv in Hm as (o & Ho & ->). intros q o' Hq.
  cbn [heap] in Hq. apply lookup_insert_Some in Hq as [[_ <-]|[_ Hq]].
  - rewrite Hf. exact (Hs _ _ Ho).
  - exact (Hs _ _ Hq).
Qed.

Lemma addChild_no_collider (this obj : ptr) (s s' : Scene) :
  no_collider s -> addChild this obj s = Ok s' -> no_collider s'.
Proof.
  unfold addChild. intros Hs Ha. destruct (_ && _); [|now inversion Ha; subst].
  apply bind_Ok in Ha as (s1 & H1 & Ha). apply bind_Ok in Ha as (o & _ & Ha).
  eapply modify_no_collider; [|eapply modify_no_collider; [|exact Hs|exact H1]|exact Ha];
    reflexivity.
Qed.

Lemma removeChild_no_collider (this obj : ptr) (s s' : Scene) :
  no_collider s -> removeChild this obj s = Ok s' -> no_collider s'.
Proof.
  unfold removeChild. intros Hs Ha. destruct (_ && _); [|now inversion Ha; subst].
  apply bind_Ok in Ha as (s1 & H1 & Ha). apply bind_Ok in Ha as (o & _ & Ha).
  eapply modify_no_collider; [|eapply modify_no_collider; [|exact Hs|exact H1]|exact Ha];
    reflexivity.
Qed.

(** The four operations on the tree keep it so. *)
Lemma run_op_no_collider (x : op) (s s' : Scene) :
  no_collider s -> run_op x s = Ok s' -> no_collider s'.
Proof.
  intros Hs Hr. destruct x as [this obj|this obj|this obj|this]; cbn [run_op] in Hr.
  - eapply addChild_no_collider; eassumption.
  - eapply removeChild_no_collider; eassumption.
  - unfold setParent in Hr. destruct (_ && _); [|now inversion Hr; subst].
    apply bind_Ok in Hr as (o & _ & Hr). eapply addChild_no_collider; eassumption.
  - unfold destroy in Hr. apply bind_Ok in Hr as (s1 & H1 & Hr). inversion Hr; subst.
    intros q o Hq. cbn [heap] in Hq.
    eapply (modify_no_collider this (set_display false) s s1); try eassumption. reflexivity.
Qed.















End SceneTheory.

(** ** One tick of [update] *)

Module TickTheory.

Import Object ObjectTheory.

(** *** One tick of the scene *)

(** The integration step of [update]: the position moves by the old
    speed, then the speed changes by the acceleration. *)
Definition step (o : Object) : Object :=
  set_speed (Mesh.vadd (speed o) (acceleration o))
            (set_position (Mesh.vadd (position o) (speed o)) o).

(** The entities that [P] names have made one step, the others are as
    they were; the registry and the stack of marked entities are
    untouched. *)
Definition stepped (P : ptr -> Prop) (s s' : Scene) : Prop :=
  invalid s' = invalid s /\ marked s' = marked s
  /\ forall p,
       match heap s !! p with
       | Some o => (P p -> heap s' !! p = Some (step o))
                   /\ (~ P p -> heap s' !! p = Some o)
       | None => heap s' !! p = None
       end.

(** A child set hands out each of its elements once. *)
Definition nodup_children (s : Scene) : Prop :=
  map_Forall (fun _ po => NoDup (children po)) (heap s).

#[local] Instance nodup_children_dec (s : Scene) : Decision (nodup_children s).
Proof. unfold nodup_children. apply _. Defined.

Lemma stepped_same_links (P : ptr -> Prop) (s s' : Scene) :
  (forall p, P p \/ ~ P p) -> stepped P s s' -> same_links s s'.
Proof.
  intros Hdec (Hi & _ & Hh). split; [assumption|]. intros p. specialize (Hh p).
  destruct (heap s !! p) as [o|]; [|now rewrite Hh].
  destruct Hh as [H1 H2]. destruct (Hdec p) as [Hp|Hp].
  - rewrite (H1 Hp). reflexivity.
  - rewrite (H2 Hp). reflexivity.
Qed.

Lemma same_links_child_of (s s' : Scene) (p c : ptr) :
  same_links s s' -> child_of s p c -> child_of s' p c.
Proof.
  intros Hl (po & Hp & Hc).
  destruct (same_links_lookup _ _ _ _ Hl Hp) as (po' & Hp' & _ & Hch).
  exists po'. split; [assumption|]. now rewrite Hch.
Qed.

Lemma same_links_reach (s s' : Scene) (a b : ptr) :
  same_links s s' -> rtc (child_of s) a b <-> rtc (child_of s') a b.
Proof.
  intros Hl. split; intros H; induction H; try reflexivity;
    (eapply rtc_l; [|eassumption]).
  - eapply same_links_child_of; eassumption.
  - eapply same_links_child_of; [apply same_links_sym|]; eassumption.
Qed.

Lemma same_links_nodup (s s' : Scene) :
  same_links s s' -> nodup_children s -> nodup_children s'.
Proof.
  intros Hl Hn p o' Hp.
  destruct (same_links_lookup _ _ _ _ (same_links_sym _ _ Hl) Hp) as (o & Ho & _ & Hch).
  rewrite <- Hch. exact (Hn _ _ Ho).
Qed.

Lemma stepped_iff (P Q : ptr -> Prop) (s s' : Scene) :
  (forall p, P p <-> Q p) -> stepped P s s' -> stepped Q s s'.
Proof.
  intros Hpq (Hi & Hm & Hh). split; [assumption|]. split; [assumption|].
  intros p. specialize (Hh p). destruct (heap s !! p); [|assumption].
  destruct Hh as [H1 H2]. split; intros Hq; [apply H1|apply H2]; now rewrite Hpq.
Qed.

Lemma stepped_none (s : Scene) : stepped (fun _ => False) s s.
Proof.
  split; [reflexivity|]. split; [reflexivity|]. intros p.
  destruct (heap s !! p); [|reflexivity]. split; [contradiction|reflexivity].
Qed.

Lemma stepped_compose (P Q : ptr -> Prop) (s s' s'' : Scene) :
  (forall p, P p -> Q p -> False) ->
  stepped P s s' -> stepped Q s' s'' -> stepped (fun p => P p \/ Q p) s s''.
Proof.
  intros Hd (Hi & Hm & Hh) (Hi' & Hm' & Hh').
  split; [congruence|]. split; [congruence|]. intros p.
  specialize (Hh p). specialize (Hh' p).
  destruct (heap s !! p) as [o|]; [|now rewrite Hh in Hh'].
  destruct Hh as [H1 H2]. split.
  - intros [Hp|Hq].
    + rewrite (H1 Hp) in Hh'. apply Hh'. intros Hq. exact (Hd _ Hp Hq).
    + assert (Hnp : ~ P p) by (intros Hp; exact (Hd _ Hp Hq)).
      rewrite (H2 Hnp) in Hh'. now apply Hh'.
  - intros Hn. assert (Hnp : ~ P p) by tauto. assert (Hnq : ~ Q p) by tauto.
    rewrite (H2 Hnp) in Hh'. now apply Hh'.
Qed.

(** *** The shape of the tree *)

Lemma child_of_rank (rank : ptr -> nat) (s : Scene) (p c : ptr) :
  ranked rank s -> child_of s p c -> rank c < rank p.
Proof.
  intros Hr (po & Hp & Hc). specialize (Hr _ _ Hp). simpl in Hr.
  rewrite Forall_forall in Hr. now apply Hr.
Qed.

Lemma reach_rank (rank : ptr -> nat) (s : Scene) (a b : ptr) :
  ranked rank s -> rtc (child_of s) a b -> rank b <= rank a.
Proof.
  intros Hr H. induction H as [|x y z Hxy _ IH]; [lia|].
  pose proof (child_of_rank rank s x y Hr Hxy). lia.
Qed.

Lemma sound_single_parent (s : Scene) (p q c : ptr) :
  sound s -> child_of s p c -> child_of s q c -> p = q.
Proof.
  intros Hs (po & Hp & Hc) (qo & Hq & Hc').
  destruct (sound_children _ _ _ _ Hs Hp Hc) as (co & Hco & <-).
  destruct (sound_children _ _ _ _ Hs Hq Hc') as (co' & Hco' & <-). congruence.
Qed.

(** Two ancestors of an entity lie on one line. *)
Lemma ancestors_chain (s : Scene) (a b p : ptr) :
  sound s -> rtc (child_of s) a p -> rtc (child_of s) b p ->
  rtc (child_of s) a b \/ rtc (child_of s) b a.
Proof.
  intros Hs Ha Hb. revert b Hb. revert p Ha.
  apply (rtc_ind_r (fun p => forall b, rtc (child_of s) b p ->
                              rtc (child_of s) a b \/ rtc (child_of s) b a) a).
  - intros b Hb. now right.
  - intros q p Haq Hqp IH b Hb. apply rtc_inv_r in Hb as [->|(q' & Hbq & Hq'p)].
    + left. eapply rtc_r; eassumption.
    + assert (q' = q) as -> by (eapply sound_single_parent; eassumption).
      now apply IH.
Qed.

Lemma siblings_disjoint (rank : ptr -> nat) (s : Scene) (this c1 c2 p : ptr) :
  sound s -> ranked rank s ->
  child_of s this c1 -> child_of s this c2 -> c1 <> c2 ->
  rtc (child_of s) c1 p -> rtc (child_of s) c2 p -> False.
Proof.
  intros Hs Hr H1 H2 Hne R1 R2.
  assert (Hkey : forall x y, child_of s this x -> child_of s this y -> x <> y ->
                             rtc (child_of s) x y -> False).
  { intros x y Hx Hy Hxy Hreach.
    apply rtc_inv_r in Hreach as [->|(q & Hxq & Hqy)]; [now apply Hxy|].
    assert (q = this) as -> by (eapply sound_single_parent; eassumption).
    pose proof (reach_rank rank s _ _ Hr Hxq).
    pose proof (child_of_rank rank s _ _ Hr Hx). lia. }
  destruct (ancestors_chain s c1 c2 p Hs R1 R2) as [H|H].
  - exact (Hkey c1 c2 H1 H2 Hne H).
  - exact (Hkey c2 c1 H2 H1 (not_eq_sym Hne) H).
Qed.

Lemma reach_unfold (s : Scene) (a p : ptr) :
  rtc (child_of s) a p <-> p = a \/ exists c, child_of s a c /\ rtc (child_of s) c p.
Proof.
  split.
  - intros H. destruct H as [|x y z Hxy Hyz]; [now left|right; eauto].
  - intros [->|(c & Hc & Hr)]; [reflexivity|eapply rtc_l; eassumption].
Qed.

(** *** The traversal with the hooks of [Object] *)

Lemma lift_assign (this : ptr) (F : Object -> Object -> Object) (w : World) (o : Object) :
  heap (scene w) !! this = Some o ->
  lift (fun s => let* o := deref s this in modify this (F o) s) w
  = Ok (mkWorld (mkScene (<[this := F o o]> (heap (scene w))) (invalid (scene w))
                         (marked (scene w)))
                (destroy_shared w) (log w)).
Proof.
  intros Ho. unfold lift, deref at 1. rewrite Ho. cbn [bind].
  now rewrite (modify_Ok _ _ _ _ Ho).
Qed.

Lemma virtual_call_skip_inv (obj : ptr) (w w' : World) :
  virtual_call obj (fun s => Ok s) w = Ok w' -> w' = w.
Proof.
  unfold virtual_call, lift. intros H. apply bind_Ok in H as (s' & Hs' & Hw).
  apply bind_Ok in Hs' as (o & _ & Heq). inversion Heq; subst. inversion Hw.
  now destruct w.
Qed.

Lemma step_links (o : Object) : links (step o) = links o.
Proof. reflexivity. Qed.

Lemma stepped_one (this : ptr) (s : Scene) (o : Object) :
  heap s !! this = Some o ->
  let s1 := mkScene (<[this := step o]> (heap s)) (invalid s) (marked s) in
  stepped (fun p => p = this) s s1 /\ same_links s s1.
Proof.
  intros Ho s1. split.
  - split; [reflexivity|]. split; [reflexivity|]. intros p. unfold s1. cbn [heap].
    destruct (decide (p = this)) as [->|Hne].
    + rewrite Ho, lookup_insert_eq. split; [reflexivity|]. intros Hn. now contradiction Hn.
    + rewrite lookup_insert_ne by congruence.
      destruct (heap s !! p); [|reflexivity]. split; [contradiction|reflexivity].
  - split; [reflexivity|]. intros p. unfold s1. cbn [heap].
    destruct (decide (p = this)) as [->|Hne].
    + now rewrite Ho, lookup_insert_eq.
    + now rewrite lookup_insert_ne by congruence.
Qed.

Section Traversal.

Variable rank : ptr -> nat.
Variable now : float.
Variable tick : N.

(** What a call of [update] nested in another has done. *)
Definition ticked (P : ptr -> Prop) (w wt : World) : Prop :=
  stepped P (scene w) (scene wt) /\ same_links (scene w) (scene wt)
  /\ destroy_shared wt = false.

Lemma for_each_steps (fuel : nat) (this : ptr)
  (IH : forall c w wt o,
      destroy_shared w = false -> sound (scene w) -> ranked rank (scene w) ->
      nodup_children (scene w) -> heap (scene w) !! c = Some o ->
      update base_hooks fuel c now tick w = Ok wt ->
      ticked (fun p => rtc (child_of (scene w)) c p) w wt)
  (cs : list ptr) :
  forall w wd,
    destroy_shared w = false -> sound (scene w) -> ranked rank (scene w) ->
    nodup_children (scene w) ->
    NoDup cs -> Forall (fun c => child_of (scene w) this c) cs ->
    for_each cs (fun child w => update base_hooks fuel child now tick w) w = Ok wd ->
    ticked (fun p => exists c, c ∈ cs /\ rtc (child_of (scene w)) c p) w wd.
Proof.
  induction cs as [|c cs IHcs]; intros w wd Hf Hs Hr Hn Hnd Hall Hrun.
  - inversion Hrun; subst. split; [|split; [apply same_links_refl|assumption]].
    eapply stepped_iff; [|apply stepped_none].
    intros p. split; [contradiction|]. intros (c & Hc & _). inversion Hc.
  - cbn [for_each] in Hrun. apply bind_Ok in Hrun as (w1 & H1 & Hrun).
    apply NoDup_cons in Hnd as [Hc Hnd]. apply Forall_cons in Hall as [Hch Hall].
    destruct Hch as (po & Hpo & Hin).
    destruct (sound_children _ _ _ _ Hs Hpo Hin) as (co & Hco & _).
    destruct (IH c w w1 co Hf Hs Hr Hn Hco H1) as (St1 & Hl1 & Hf1).
    assert (Hm1 : marked (scene w1) = marked (scene w)) by apply St1.
    destruct (IHcs w1 wd) as (St2 & Hl2 & Hf2); try assumption.
    + eapply same_links_sound; eassumption.
    + eapply ranked_same_links; eassumption.
    + eapply same_links_nodup; eassumption.
    + eapply Forall_impl; [exact Hall|]. intros x Hx.
      eapply same_links_child_of; eassumption.
    + split; [|split; [eapply same_links_trans; eassumption|assumption]].
      assert (St2' : stepped (fun p => exists x, x ∈ cs /\ rtc (child_of (scene w)) x p)
                             (scene w1) (scene wd)).
      { eapply stepped_iff; [|exact St2]. intros p. split.
        - intros (x & Hx & Hreach). exists x. split; [exact Hx|].
          apply (same_links_reach _ _ x p Hl1). exact Hreach.
        - intros (x & Hx & Hreach). exists x. split; [exact Hx|].
          apply (same_links_reach _ _ x p Hl1). exact Hreach. }
      eapply stepped_iff; [|eapply stepped_compose; [|exact St1|exact St2']].
      * intros p. cbn beta. split.
        -- intros [Hp|(x & Hx & Hp)].
           ++ exists c. split; [left|assumption].
           ++ exists x. split; [now right|assumption].
        -- intros (x & Hx & Hp). apply elem_of_cons in Hx as [->|Hx]; [now left|].
           right. eauto.
      * intros p Hp (x & Hx & Hxp). cbn beta in *.
        rewrite Forall_forall in Hall.
        apply (siblings_disjoint rank (scene w) this c x p Hs Hr); try assumption.
        -- exists po. split; assumption.
        -- now apply Hall.
        -- intros ->. contradiction.
Qed.

Lemma update_steps (fuel : nat) :
  forall this w wt o,
    destroy_shared w = false -> sound (scene w) -> ranked rank (scene w) ->
    nodup_children (scene w) -> heap (scene w) !! this = Some o ->
    update base_hooks fuel this now tick w = Ok wt ->
    ticked (fun p => rtc (child_of (scene w)) this p) w wt.
Proof.
  induction fuel as [|fuel IH]; intros this w wt o Hf Hs Hr Hn Ho Hu; [discriminate|].
  destruct w as [s d l]. cbn [scene destroy_shared] in *. subst d.
  cbn [update] in Hu. cbn [destroy_shared set_destroy_shared scene log] in Hu.
  assert (Hv : isValid s this = true).
  { apply isValid_true. apply (sound_live s this Hs). apply elem_of_dom. eauto. }
  rewrite Hv in Hu. unfold deref at 1 in Hu. rewrite Ho in Hu. cbn [bind] in Hu.
  rewrite virtual_call_quiet in Hu; [|apply elem_of_dom; cbn; eauto|reflexivity].
  cbn [bind] in Hu.
  cbn [emit set_destroy_shared scene destroy_shared log] in Hu.
  erewrite (lift_assign this (fun o => set_position (Mesh.vadd (position o) (speed o))))
    in Hu; [|cbn [scene heap]; exact Ho].
  cbn [bind emit scene destroy_shared log heap invalid marked] in Hu.
  erewrite (lift_assign this (fun o => set_speed (Mesh.vadd (speed o) (acceleration o))))
    in Hu; [|cbn [scene heap]; apply lookup_insert_eq].
  cbn [bind emit scene destroy_shared log heap invalid marked] in Hu.
  rewrite insert_insert_eq in Hu.
  change (set_speed _ (set_position _ o)) with (step o) in Hu.
  apply bind_Ok in Hu as (we & Hchain & Hu). inversion Hu; subst we. clear Hu.
  apply bind_Ok in Hchain as (wd & Hd & He).
  apply virtual_call_skip_inv in He. subst wt. cbn [emit scene destroy_shared].
  destruct (stepped_one this s o Ho) as [St1 Hl1]. cbn zeta in St1, Hl1.
  set (s1 := mkScene (<[this := step o]> (heap s)) (invalid s) (marked s)) in *.
  assert (Hs1 : sound s1) by (eapply same_links_sound; [exact Hl1|reflexivity|exact Hs]).
  assert (Ho1 : heap s1 !! this = Some (step o)) by apply lookup_insert_eq.
  assert (Hr1 : ranked rank s1) by (eapply ranked_same_links; eassumption).
  assert (Hn1 : nodup_children s1) by (eapply same_links_nodup; eassumption).
  assert (Hall1 : Forall (fun c => child_of s1 this c) (children o)).
  { apply Forall_forall. intros c Hc. exists (step o). split; [exact Ho1|exact Hc]. }
  pose proof (for_each_steps fuel this IH (children o)
                (mkWorld s1 false (l ++ [EvBeforeUpdate this])) wd
                eq_refl Hs1 Hr1 Hn1 (Hn _ _ Ho) Hall1 Hd) as (St2 & Hl2 & Hf2).
  cbn [scene] in St2, Hl2.
  split; [|split; [eapply same_links_trans; eassumption|assumption]].
  assert (St2' : stepped (fun p => exists x, x ∈ children o /\ rtc (child_of s) x p)
                         s1 (scene wd)).
  { eapply stepped_iff; [|exact St2]. intros p. split.
    - intros (x & Hx & Hreach). exists x. split; [exact Hx|].
      apply (same_links_reach _ _ x p Hl1). exact Hreach.
    - intros (x & Hx & Hreach). exists x. split; [exact Hx|].
      apply (same_links_reach _ _ x p Hl1). exact Hreach. }
  eapply stepped_iff; [|eapply stepped_compose; [|exact St1|exact St2']].
  - intros p. cbn beta. rewrite reach_unfold. split.
    + intros [->|(x & Hx & Hp)]; [now left|]. right. exists x. split; [|assumption].
      exists o. split; assumption.
    + intros [->|(x & (po & Hpo & Hx) & Hp)]; [now left|]. right. exists x.
      split; [|assumption]. congruence.
  - intros p -> (x & Hx & Hxp). cbn beta in *.
    pose proof (reach_rank rank s _ _ Hr Hxp).
    assert (child_of s this x) by (exists o; split; assumption).
    pose proof (child_of_rank rank s _ _ Hr H0). lia.
Qed.

End Traversal.

(** X17.  With the hooks of [Object], a call of [update] from outside
    on a sound, acyclic scene with no pending request returns, and it is
    one tick of the subtree: every entity below the receiver (the
    receiver included) has made exactly one step, its position moved by
    its old speed and its speed changed by its acceleration; every other
    entity, the tree and the registry are as they were. *)
Theorem update_steps_subtree (rank : ptr -> nat) (this : ptr) (now : float) (tick : N)
  (w : World) (o : Object) :
  sound (scene w) -> ranked rank (scene w) -> nodup_children (scene w) ->
  heap (scene w) !! this = Some o ->
  marked (scene w) = [] -> destroy_shared w = true ->
  exists N w',
    (forall fuel, N <= fuel -> update base_hooks fuel this now tick w = Ok w')
    /\ stepped (fun p => rtc (child_of (scene w)) this p) (scene w) (scene w')
    /\ same_links (scene w) (scene w')
    /\ destroy_shared w' = true.
Proof.
  intros Hs Hr Hn Ho Hm Hd.
  assert (Hmark : update_hooks_marking base_hooks).
  { intros x n t s Hsx _. split; now apply marking_skip. }
  set (w0 := set_destroy_shared false w).
  destruct (traverse base_hooks rank Hmark (rank this) this now tick w0)
    as (wt & Hvis & Hut); try assumption; [lia|left; apply elem_of_dom; cbn; eauto|].
  cbn [w0 set_destroy_shared destroy_shared] in Hut.
  pose proof (Hut (S (rank this)) ltac:(lia)) as Hu.
  apply (update_steps rank now tick _ this w0 wt o) in Hu as (St & Hl & Hf);
    try assumption; try reflexivity.
  cbn [w0 set_destroy_shared scene] in St, Hl.
  assert (Hmt : marked (scene wt) = []) by (destruct St as (_ & -> & _); exact Hm).
  exists (S (rank this)), (emit EvDelayedDestroy (set_destroy_shared true wt)).
  split; [|split; [exact St|split; [exact Hl|reflexivity]]].
  intros fuel Hfuel. destruct fuel as [|fuel]; [lia|].
  pose proof (Hut (S fuel) ltac:(lia)) as Hu. cbn [update] in Hu |- *.
  rewrite Hd. change (set_destroy_shared false w0) with (set_destroy_shared false w) in Hu.
  destruct (if isValid (scene (set_destroy_shared false w)) this then _ else _)
    as [wb| |]; try discriminate.
  cbn [bind] in Hu |- *. inversion Hu; subst wb.
  unfold delayedDestroy. destruct fuel; cbn [delayedDestroy_loop emit scene set_destroy_shared];
    rewrite Hmt; reflexivity.
Qed.

Lemma family_nodup : nodup_children family.
Proof. apply (bool_decide_unpack (nodup_children family)). vm_compute. exact I. Qed.

Lemma update_steps_subtree_witness :
  exists N w',
    (forall fuel, N <= fuel ->
       update base_hooks fuel 1 0%float 0 (mkWorld family true []) = Ok w')
    /\ stepped (fun p => rtc (child_of family) 1%N p) family (scene w')
    /\ same_links family (scene w')
    /\ destroy_shared w' = true.
Proof.
  apply (update_steps_subtree family_rank 1%N 0%float 0%N (mkWorld family true [])
           (mkObject true 10 NULL 11 [3%N; 2%N] NULL origin origin origin)).
  - exact family_sound.
  - exact family_ranked.
  - exact family_nodup.
  - vm_compute. reflexivity.
  - reflexivity.
  - reflexivity.
Defined.

End TickTheory.

(** ** What the sweep releases *)

Module CascadeTheory.

Import Object ObjectTheory.

(** *** The child sets after a teardown *)

Lemma teardown_survivors (H : Hooks) (obj : ptr) (rest : list ptr) (w : World) (oo : Object) :
  quiet_teardown H ->
  sound (mkScene (heap (scene w)) (invalid (scene w)) (obj :: rest)) ->
  marked (scene w) = rest ->
  obj ∉ invalid (scene w) ->
  heap (scene w) !! obj = Some oo ->
  exists h',
    teardown H obj w
    = Ok (mkWorld (mkScene h' ({[obj]} ∪ ({[obj]} ∪ invalid (scene w)))
                           (rev (set_erase obj (children oo)) ++ rest))
                  (destroy_shared w)
                  (log w ++ teardown_log obj (set_erase obj (children oo)) oo))
    /\ forall p po', p ≠ obj -> h' !! p = Some po' ->
         exists po, heap (scene w) !! p = Some po
                    /\ children po' = set_erase obj (children po)
                    /\ mesh po' = mesh po /\ background po' = background po.
Proof.
  intros Hq Hs Hm Hv Ho. destruct w as [[h i m] d l]. simpl in *. subst m.
  apply sound_pop in Hs as (Hs & Hk & Hpk).
  unfold parent_known in Hpk. simpl in Hpk. rewrite Ho in Hpk.
  unfold teardown.
  rewrite virtual_call_quiet; [|apply elem_of_dom; simpl; eauto|apply Hq]. cbn [bind].
  destruct (removeParent_sound obj _ oo Hs Ho Hv Hpk) as (h2 & Hrp & Hdet).
  unfold lift at 1. cbn [scene emit]. rewrite Hrp. cbn [bind invalid marked scene].
  simpl in Hdet.
  assert (Ho2 : exists o2, h2 !! obj = Some o2
                           /\ children o2 = set_erase obj (children oo)
                           /\ mesh o2 = mesh oo /\ background o2 = background oo).
  { specialize (Hdet obj). rewrite Ho in Hdet.
    destruct (h2 !! obj) as [o2|]; [|contradiction]. exists o2. tauto. }
  destruct Ho2 as (o2 & Ho2 & Hch2 & Hme2 & Hba2).
  unfold deref at 1. cbn [scene heap]. rewrite Ho2. cbn [bind]. rewrite Hch2.
  cbn [emit destroy_shared log scene].
  assert (Hdom2 : forall p, p ∈ dom h2 <-> p ∈ dom h).
  { intros p. rewrite !elem_of_dom. specialize (Hdet p).
    destruct (h !! p), (h2 !! p); try contradiction; split; intros [? ?]; eauto; discriminate. }
  match goal with
  | |- context [for_each ?cs ?f ?w0] => destruct (for_each_destroy cs w0) as (h3 & Hfe & Hsim)
  end.
  { apply Forall_forall. intros c Hc. cbn [scene heap]. apply Hdom2.
    apply elem_of_set_erase in Hc as [_ Hc].
    destruct (sound_children _ _ _ _ Hs Ho Hc) as (co & Hco & _).
    apply elem_of_dom. simpl in Hco. eauto. }
  rewrite Hfe. cbn [bind scene heap invalid marked destroy_shared log] in *.
  assert (Ho3 : exists o3, h3 !! obj = Some o3
                           /\ mesh o3 = mesh oo /\ background o3 = background oo).
  { destruct (same_but_display_lookup _ _ _ _ Hsim Ho2) as (o3 & Ho3 & Hu).
    apply undisplayed_fields in Hu as (_ & _ & Hme & Hba). exists o3.
    repeat split; congruence. }
  destruct Ho3 as (o3 & Ho3 & Hme3 & Hba3).
  unfold lift at 1. cbn [scene]. rewrite modify_Ok_alter; [|apply elem_of_dom; simpl; eauto].
  cbn [bind scene heap invalid marked destroy_shared log].
  unfold deref at 1. cbn [heap]. rewrite lookup_alter. rewrite decide_True by reflexivity.
  rewrite Ho3. cbn [fmap option_fmap option_map bind].
  rewrite virtual_call_quiet; [| |apply Hq].
  2:{ apply elem_of_dom. cbn [emit scene heap]. rewrite lookup_alter, decide_True by reflexivity.
      rewrite Ho3. simpl. eauto. }
  cbn [bind]. unfold lift, delete_Object, deref. cbn [emit scene heap invalid marked].
  rewrite lookup_alter, decide_True by reflexivity. rewrite Ho3.
  cbn [fmap option_fmap option_map bind destroy_shared log].
  exists (delete obj (alter (set_children []) obj h3)). split.
  - simpl. rewrite Hme3, Hba3. unfold teardown_log. rewrite <- !app_assoc. reflexivity.
  - intros p po' Hne Hp. rewrite lookup_delete_ne, lookup_alter_ne in Hp by congruence.
    specialize (Hsim p). rewrite Hp in Hsim. specialize (Hdet p).
    destruct (h2 !! p) as [po2|]; [|discriminate]. simpl in Hsim.
    assert (Hu : undisplayed po' = undisplayed po2) by congruence.
    apply undisplayed_fields in Hu as (Hpa & Hch & Hme & Hba).
    destruct (h !! p) as [po|]; [|contradiction]. exists po.
    destruct Hdet as (Hc & Hpar & Hme' & Hba'). split; [reflexivity|].
    repeat split; congruence.
Qed.

Lemma teardown_children (H : Hooks) (obj : ptr) (rest : list ptr) (w : World) (oo : Object) :
  quiet_teardown H ->
  sound (mkScene (heap (scene w)) (invalid (scene w)) (obj :: rest)) ->
  marked (scene w) = rest ->
  obj ∉ invalid (scene w) ->
  heap (scene w) !! obj = Some oo ->
  exists h',
    teardown H obj w
    = Ok (mkWorld (mkScene h' ({[obj]} ∪ ({[obj]} ∪ invalid (scene w)))
                           (rev (set_erase obj (children oo)) ++ rest))
                  (destroy_shared w)
                  (log w ++ teardown_log obj (set_erase obj (children oo)) oo))
    /\ forall p po', p ≠ obj -> h' !! p = Some po' ->
         exists po, heap (scene w) !! p = Some po
                    /\ children po' = set_erase obj (children po).
Proof.
  intros Hq Hs Hm Hv Ho.
  destruct (teardown_survivors H obj rest w oo Hq Hs Hm Hv Ho) as (h' & Htd & Hch).
  exists h'. split; [exact Htd|]. intros p po' Hne Hp.
  destruct (Hch p po' Hne Hp) as (po & Hpo & Hc & _). eauto.
Qed.

(** *** Paths that avoid an entity *)

Section Avoid.

Variables (R R' : relation ptr) (obj : ptr).

Hypothesis restricted : forall x y, R' x y <-> R x y /\ x <> obj /\ y <> obj.

Lemma avoid_sub (x y : ptr) : rtc R' x y -> rtc R x y.
Proof.
  induction 1 as [|a b c Hab _ IH]; [reflexivity|].
  eapply rtc_l; [|exact IH]. now apply restricted in Hab.
Qed.

Lemma avoid_from (p : ptr) : rtc R' obj p -> p = obj.
Proof.
  intros Hr. destruct Hr as [|a b c Hab _]; [reflexivity|].
  apply restricted in Hab as (_ & Hne & _). now contradiction Hne.
Qed.

Lemma avoid_split (m p : ptr) :
  rtc R m p ->
  rtc R' m p \/ p = obj \/ exists c, R obj c /\ c <> obj /\ rtc R' c p.
Proof.
  induction 1 as [x|x y z Hxy _ IH].
  - destruct (decide (x = obj)) as [->|Hne]; [right; now left|left; reflexivity].
  - destruct IH as [IH|[IH|IH]]; [|now right; left|now right; right].
    destruct (decide (y = obj)) as [->|Hy].
    { right. left. now apply avoid_from. }
    destruct (decide (x = obj)) as [->|Hx].
    + right. right. exists y. auto.
    + left. eapply rtc_l; [|exact IH]. apply restricted. auto.
Qed.

End Avoid.

(** *** What a sweep releases *)

Lemma elem_of_rev (x : ptr) (l : list ptr) : x ∈ rev l <-> x ∈ l.
Proof.
  rewrite !list_elem_of_In. symmetry. apply in_rev.
Qed.

(** The entities at or below a marked entity that is valid. *)
Definition doomed (s : Scene) (p : ptr) : Prop :=
  exists m, m ∈ marked s /\ (m ∉ invalid s) /\ rtc (child_of s) m p.

Lemma doomed_pop_invalid (h : gmap ptr Object) (i : gset ptr) (obj : ptr) (rest : list ptr)
  (p : ptr) :
  obj ∈ i -> (doomed (mkScene h i (obj :: rest)) p <-> doomed (mkScene h i rest) p).
Proof.
  intros Hi. split; intros (m & Hm & Hv & Hr); exists m; simpl in *.
  - apply elem_of_cons in Hm as [->|Hm]; [contradiction|]. auto.
  - split; [now right|]. auto.
Qed.

Lemma doomed_teardown (h h' : gmap ptr Object) (i : gset ptr) (obj : ptr) (rest : list ptr)
  (oo : Object) (p : ptr) :
  sound (mkScene h i (obj :: rest)) ->
  obj ∉ i -> h !! obj = Some oo ->
  dom h' = dom h ∖ {[obj]} ->
  (forall q qo', q ≠ obj -> h' !! q = Some qo' ->
     exists qo, h !! q = Some qo /\ children qo' = set_erase obj (children qo)) ->
  (doomed (mkScene h i (obj :: rest)) p
   <-> p = obj
       \/ doomed (mkScene h' ({[obj]} ∪ ({[obj]} ∪ i))
                          (rev (set_erase obj (children oo)) ++ rest)) p).
Proof.
  intros Hs Hv Ho Hdom Hch.
  set (s := mkScene h i (obj :: rest)).
  set (s1 := mkScene h' ({[obj]} ∪ ({[obj]} ∪ i)) (rev (set_erase obj (children oo)) ++ rest)).
  assert (Hres : forall x y, child_of s1 x y <-> child_of s x y /\ x <> obj /\ y <> obj).
  { intros x y. unfold child_of, s, s1. cbn [heap]. split.
    - intros (po' & Hp' & Hy).
      assert (Hx : x <> obj).
      { intros ->. apply elem_of_dom_2 in Hp'. rewrite Hdom in Hp'. set_solver. }
      destruct (Hch _ _ Hx Hp') as (po & Hp & Hc). rewrite Hc in Hy.
      apply elem_of_set_erase in Hy as [Hy1 Hy2]. eauto.
    - intros ((po & Hp & Hy) & Hx & Hyo).
      assert (Hin : x ∈ dom h') by (rewrite Hdom; apply elem_of_dom_2 in Hp; set_solver).
      apply elem_of_dom in Hin as [po' Hp']. exists po'. split; [assumption|].
      destruct (Hch _ _ Hx Hp') as (po2 & Hp2 & Hc). rewrite Hc.
      apply elem_of_set_erase. split; [assumption|]. congruence. }
  assert (Hkids : forall c, c ∈ set_erase obj (children oo) -> (c ∉ i) /\ child_of s obj c).
  { intros c Hc. apply elem_of_set_erase in Hc as [_ Hc]. split.
    - destruct (sound_children s obj c oo Hs Ho Hc) as (co & Hco & _).
      apply (sound_live s c Hs). apply elem_of_dom. eauto.
    - exists oo. split; assumption. }
  split.
  - intros (m & Hm & Hvm & Hr). cbn [marked invalid] in Hm, Hvm.
    destruct (avoid_split _ _ obj Hres m p Hr) as [Hr'|[->|(c & Hc & Hne & Hr')]].
    + destruct (decide (m = obj)) as [->|Hmo].
      * left. eapply avoid_from; [exact Hres|exact Hr'].
      * right. exists m. cbn [marked invalid]. split; [|split; [set_solver|exact Hr']].
        apply elem_of_app. right. apply elem_of_cons in Hm as [->|Hm]; [contradiction|].
        exact Hm.
    + now left.
    + right. exists c. cbn [marked invalid].
      destruct Hc as (po & Hp & Hc). unfold s in Hp. cbn [heap] in Hp.
      assert (po = oo) as -> by congruence.
      assert (Hce : c ∈ set_erase obj (children oo)) by (apply elem_of_set_erase; auto).
      split; [|split; [|exact Hr']].
      * apply elem_of_app. left. now apply (proj2 (elem_of_rev _ _)).
      * destruct (Hkids c Hce) as [Hci _]. set_solver.
  - intros [->|(m & Hm & Hvm & Hr)].
    + exists obj. cbn [marked invalid]. split; [left|split; [assumption|reflexivity]].
    + cbn [marked invalid] in Hm, Hvm.
      pose proof (avoid_sub _ _ obj Hres _ _ Hr) as Hr0.
      apply elem_of_app in Hm as [Hm|Hm].
      * apply (proj1 (elem_of_rev _ _)) in Hm. destruct (Hkids m Hm) as [_ Hmc].
        exists obj. cbn [marked invalid]. split; [left|split; [assumption|]].
        eapply rtc_l; eassumption.
      * exists m. cbn [marked invalid]. split; [now right|split; [set_solver|exact Hr0]].
Qed.

Lemma sweep_releases (H : Hooks) :
  quiet_teardown H ->
  forall fuel w w',
    sound (scene w) ->
    delayedDestroy_loop H fuel w = Ok w' ->
    exists l, log w' = log w ++ l
              /\ forall p, p ∈ freed l <-> doomed (scene w) p.
Proof.
  intros Hq fuel. induction fuel as [|fuel IH]; intros w w' Hs Hrun.
  - cbn [delayedDestroy_loop] in Hrun.
    destruct (marked (scene w)) as [|obj rest] eqn:Hm; [|discriminate].
    inversion Hrun; subst. exists []. split; [now rewrite app_nil_r|].
    intros p. split; [intros Hp; inversion Hp|].
    intros (m & Hmm & _). rewrite Hm in Hmm. inversion Hmm.
  - cbn [delayedDestroy_loop] in Hrun.
    destruct w as [[h i m] d l]. cbn [scene marked heap invalid destroy_shared log] in *.
    destruct m as [|obj rest].
    { inversion Hrun; subst. exists []. split; [now rewrite app_nil_r|].
      intros p. split; [intros Hp; inversion Hp|].
      intros (m & Hmm & _). inversion Hmm. }
    pose proof (sound_pop _ _ _ _ Hs) as (Hs' & Hk & _).
    destruct (decide (obj ∈ i)) as [Hi|Hv].
    + rewrite (proj2 (isValid_false (mkScene h i rest) obj) Hi) in Hrun.
      apply IH in Hrun as (l' & Hl & Hfr); [|exact Hs'].
      exists l'. split; [exact Hl|]. intros p. rewrite Hfr.
      symmetry. now apply doomed_pop_invalid.
    + rewrite (proj2 (isValid_true (mkScene h i rest) obj) Hv) in Hrun.
      apply bind_Ok in Hrun as (w1 & Htd & Hrun).
      destruct Hk as [Hk|Hk]; [|contradiction]. cbn [heap] in Hk.
      apply elem_of_dom in Hk as [oo Ho].
      destruct (teardown_sound H obj rest (mkWorld (mkScene h i rest) d l) oo Hq)
        as (h' & Htd1 & Hdom & Hs1); try assumption; try reflexivity.
      destruct (teardown_children H obj rest (mkWorld (mkScene h i rest) d l) oo Hq)
        as (h'' & Htd2 & Hch); try assumption; try reflexivity.
      rewrite Htd1 in Htd2. inversion Htd2; subst h''. clear Htd2.
      rewrite Htd1 in Htd. inversion Htd; subst w1. clear Htd.
      cbn [scene heap invalid marked destroy_shared log] in *.
      apply IH in Hrun as (l' & Hl & Hfr); [|exact Hs1].
      cbn [log scene] in Hl, Hfr.
      exists (teardown_log obj (set_erase obj (children oo)) oo ++ l').
      split; [now rewrite Hl, <- app_assoc|].
      intros p. rewrite freed_app, freed_teardown_log. cbn [app].
      rewrite elem_of_cons, Hfr. symmetry.
      now apply (doomed_teardown h h' i obj rest oo p).
Qed.

(** X18.  The sweep releases whole subtrees: on a sound scene, with
    teardown hooks that leave the scene alone, it returns, and the
    entities it has released, each once, are exactly those at or below a
    marked entity that was valid.  They are gone from memory and listed
    as invalid; every other entity is still alive. *)
Theorem sweep_releases_subtrees (H : Hooks) (w : World) :
  quiet_teardown H -> sound (scene w) ->
  exists N w' l,
    (forall fuel, N <= fuel -> delayedDestroy_loop H fuel w = Ok w')
    /\ log w' = log w ++ l
    /\ NoDup (freed l)
    /\ (forall p, p ∈ freed l <-> doomed (scene w) p)
    /\ dom (heap (scene w')) = dom (heap (scene w)) ∖ list_to_set (freed l)
    /\ invalid (scene w') = invalid (scene w) ∪ list_to_set (freed l).
Proof.
  intros Hq Hs.
  destruct (sweep_sound H Hq (S (size (heap (scene w)))) w) as (N & w' & l & Hrun & Hsw);
    [lia|exact Hs|].
  destruct (sweep_releases H Hq N w w' Hs (Hrun N (Nat.le_refl _))) as (l2 & Hl2 & Hfr).
  destruct Hsw. assert (l2 = l) as -> by (apply (app_inv_head (log w)); congruence).
  exists N, w', l. repeat split; try assumption; apply Hfr.
Qed.

Lemma sweep_releases_subtrees_witness :
  exists N w' l,
    (forall fuel, N <= fuel ->
       delayedDestroy_loop base_hooks fuel (mkWorld two_requests true []) = Ok w')
    /\ log w' = [] ++ l
    /\ NoDup (freed l)
    /\ (forall p, p ∈ freed l <-> doomed two_requests p)
    /\ dom (heap (scene w')) = dom (heap two_requests) ∖ list_to_set (freed l)
    /\ invalid (scene w') = invalid two_requests ∪ list_to_set (freed l).
Proof.
  apply (sweep_releases_subtrees base_hooks (mkWorld two_requests true [])).
  - exact quiet_base_hooks.
  - exact two_requests_sound.
Defined.

(** *** The order of the sweep *)





















End CascadeTheory.

(** ** Drawing the entity tree *)

Module DrawTheory.

Import Object ObjectTheory.

(** *** Entities that are not drawn *)

(** X19.  [draw] on an entity that is not valid, be it released or
    never constructed, prints the error line and does nothing else; on
    an entity that is hidden it does nothing at all, so the children of
    a hidden entity are not drawn through it.  [destroy] hides: from the
    request on, before any sweep, the entity and what hangs below it are
    no longer drawn. *)
Theorem draw_skips (fuel : nat) (s : Scene) (this : ptr) (ratio : float)
  (out : list DrawEvent) :
  (this ∈ invalid s -> draw (S fuel) s this ratio out = Ok (out ++ [EvDrawingError]))
  /\ (forall o,
        heap s !! this = Some o -> this ∉ invalid s -> display o = false ->
        draw (S fuel) s this ratio out = Ok out)
  /\ (forall o,
        heap s !! this = Some o -> this ∉ invalid s ->
        exists s',
          destroy this s = Ok s'
          /\ heap s' !! this = Some (set_display false o)
          /\ draw (S fuel) s' this ratio out = Ok out).
Proof.
  split; [|split].
  - intros Hi. cbn [draw]. now rewrite (proj2 (isValid_false s this) Hi).
  - intros o Ho Hv Hd. cbn [draw]. rewrite (proj2 (isValid_true s this) Hv).
    unfold deref. rewrite Ho. cbn [bind]. now rewrite Hd.
  - intros o Ho Hv. rewrite destroy_Ok_alter by (apply elem_of_dom; eauto).
    eexists. split; [reflexivity|]. split.
    + cbn [heap]. now rewrite lookup_alter_eq, Ho.
    + cbn [draw]. change (isValid _ this) with (isValid s this).
      rewrite (proj2 (isValid_true s this) Hv). unfold deref. cbn [heap].
      rewrite lookup_alter_eq, Ho. reflexivity.
Qed.

(** Entity 2 after it was released; entity 1, hidden, with its two
    children; entity 2 from its [destroy] on. *)
Lemma draw_skips_witness :
  (exists s', delete_Object 2 family = Ok s'
              /\ draw 1 s' 2 1%float [] = Ok ([] ++ [EvDrawingError]))
  /\ (exists s', destroy 1 family = Ok s' /\ draw 3 s' 1 1%float [] = Ok [])
  /\ (exists s', destroy 2 family = Ok s' /\ draw 1 s' 2 1%float [] = Ok []).
Proof.
  split; [|split].
  - eexists. split; [vm_compute; reflexivity|].
    apply (proj1 (draw_skips 0 _ 2%N 1%float [])).
    apply (bool_decide_unpack _). vm_compute. exact I.
  - eexists. split; [vm_compute; reflexivity|].
    apply (proj1 (proj2 (draw_skips 2 _ 1%N 1%float []))
             (set_display false (mkObject true 10 NULL 11 [3%N; 2%N] NULL origin origin origin))).
    + vm_compute. reflexivity.
    + apply (bool_decide_unpack _). vm_compute. exact I.
    + reflexivity.
  - destruct (proj2 (proj2 (draw_skips 0 family 2%N 1%float []))
                (mkObject true 20 NULL 21 [] 1 origin origin origin))
      as (s' & Hd & _ & Hdraw).
    + vm_compute. reflexivity.
    + apply (bool_decide_unpack _). vm_compute. exact I.
    + exists s'. split; assumption.
Defined.

(** Entity 2 after its storage was given back. *)
Example draw_after_delete :
  exists s', delete_Object 2 family = Ok s'
             /\ draw 1 s' 2 1%float [] = Ok [EvDrawingError].
Proof. eexists. split; [vm_compute; reflexivity|]. vm_compute. reflexivity. Qed.

(** *** What is drawn, and how *)

(** An event of a run of [draw] with [ratio] on the scene [s] from
    [this]: a mesh is drawn for an entity that is alive and displayed,
    with its position as offset, and with [only_border] set exactly when
    [ratio] is not zero; the error line is printed for [this] only. *)
Definition drawn_well (s : Scene) (this : ptr) (ratio : float) (e : DrawEvent) : Prop :=
  match e with
  | EvMeshDraw m p b only_border =>
      only_border = Mesh.truthy ratio
      /\ exists obj o, heap s !! obj = Some o /\ display o = true
                       /\ m = mesh o /\ p = position o /\ b = background o
  | EvDrawingError => this ∈ invalid s
  | EvBeforeDraw obj | EvAfterDraw obj => obj ∈ dom (heap s)
  end.

Lemma drawn_well_child (s : Scene) (this c : ptr) (ratio : float) (e : DrawEvent) :
  c ∉ invalid s -> drawn_well s c ratio e -> drawn_well s this ratio e.
Proof. destruct e; simpl; try tauto. Qed.

Lemma draw_children (s : Scene) (this : ptr) (ratio : float) (rank : ptr -> nat) (r : nat)
  (IH : forall c out, rank c < r -> c ∈ dom (heap s) ->
          exists out', (forall fuel, r <= fuel -> draw fuel s c ratio out = Ok (out ++ out'))
                       /\ Forall (drawn_well s c ratio) out')
  (cs : list ptr) :
  sound s ->
  Forall (fun c => rank c < r /\ c ∈ dom (heap s)) cs ->
  forall out,
    exists out',
      (forall fuel, r <= fuel ->
         for_each_child cs (fun child out => draw fuel s child ratio out) out
         = Ok (out ++ out'))
      /\ Forall (drawn_well s this ratio) out'.
Proof.
  intros Hs. induction cs as [|c cs IHcs]; intros Hall out.
  - exists []. split; [|constructor]. intros fuel _. cbn. now rewrite app_nil_r.
  - apply Forall_cons in Hall as [[Hc Hd] Hall].
    destruct (IH c out Hc Hd) as (o1 & Hrun1 & Hw1).
    destruct (IHcs Hall (out ++ o1)) as (o2 & Hrun2 & Hw2).
    exists (o1 ++ o2). split.
    + intros fuel Hf. cbn [for_each_child]. rewrite (Hrun1 fuel Hf). cbn [bind].
      rewrite (Hrun2 fuel Hf). now rewrite app_assoc.
    + apply Forall_app. split; [|assumption].
      eapply Forall_impl; [exact Hw1|]. intros e. apply drawn_well_child.
      now apply (sound_live s).
Qed.

Lemma draw_total (s : Scene) (ratio : float) (rank : ptr -> nat) :
  sound s -> ranked rank s ->
  forall r this out,
    rank this <= r -> known s this ->
    exists out',
      (forall fuel, r < fuel -> draw fuel s this ratio out = Ok (out ++ out'))
      /\ Forall (drawn_well s this ratio) out'.
Proof.
  intros Hs Hr r. induction r as [r IH] using lt_wf_ind. intros this out Hrk Hk.
  destruct (decide (this ∈ invalid s)) as [Hi|Hv].
  { exists [EvDrawingError]. split; [|repeat constructor; exact Hi].
    intros fuel Hf. destruct fuel as [|fuel]; [lia|]. cbn [draw].
    now rewrite (proj2 (isValid_false s this) Hi). }
  destruct Hk as [Hd|Hd]; [|contradiction].
  pose proof Hd as Hd'. apply elem_of_dom in Hd' as [o Ho].
  destruct (display o) eqn:Hdisp.
  2:{ exists []. split; [|constructor]. intros fuel Hf. destruct fuel as [|fuel]; [lia|].
      cbn [draw]. rewrite (proj2 (isValid_true s this) Hv). unfold deref. rewrite Ho.
      cbn [bind]. rewrite Hdisp. now rewrite app_nil_r. }
  destruct (draw_children s this ratio rank r) with (cs := children o)
    (out := (out ++ [EvBeforeDraw this])
            ++ [EvMeshDraw (mesh o) (position o) (background o) (Mesh.truthy ratio)])
    as (oc & Hrun & Hw); [|exact Hs| |].
  - intros c out0 Hc Hcd.
    destruct (IH (rank c) Hc c out0 (Nat.le_refl _) (or_introl Hcd)) as (o' & Hrun' & Hw').
    exists o'. split; [|exact Hw']. intros fuel Hf. apply Hrun'. lia.
  - apply Forall_forall. intros c Hc. split.
    + specialize (Hr _ _ Ho). simpl in Hr. rewrite Forall_forall in Hr.
      specialize (Hr _ Hc). lia.
    + destruct (sound_children _ _ _ _ Hs Ho Hc) as (co & Hco & _). apply elem_of_dom. eauto.
  - exists ([EvBeforeDraw this]
            ++ [EvMeshDraw (mesh o) (position o) (background o) (Mesh.truthy ratio)]
            ++ oc ++ [EvAfterDraw this]).
    split.
    + intros fuel Hf. destruct fuel as [|fuel]; [lia|]. cbn [draw].
      rewrite (proj2 (isValid_true s this) Hv). unfold deref. rewrite Ho. cbn [bind].
      rewrite Hdisp. rewrite (Hrun fuel ltac:(lia)). cbn [bind].
      now rewrite <- !app_assoc.
    + apply Forall_app. split; [repeat constructor; exact Hd|].
      apply Forall_app. split.
      * repeat constructor. exists this, o. repeat split; assumption.
      * apply Forall_app. split; [exact Hw|repeat constructor; exact Hd].
Qed.

(** X20.  On a sound scene whose tree has no cycle [draw] returns.  It
    calls [Mesh::draw] only for entities that are alive and displayed,
    with the position of the entity as offset, and it passes [ratio] for
    the parameter [only_border]: the meshes are drawn as outlines
    whenever [ratio] is not zero (with the default [1.0] in particular),
    and filled only with a [ratio] of zero. *)
Theorem draw_outlines_unless_ratio_zero (rank : ptr -> nat) (s : Scene) (this : ptr)
  (ratio : float) (out : list DrawEvent) :
  sound s -> ranked rank s -> known s this ->
  exists N out',
    (forall fuel, N <= fuel -> draw fuel s this ratio out = Ok (out ++ out'))
    /\ Forall (drawn_well s this ratio) out'
    /\ Mesh.truthy ratio = negb (ratio =? 0)%float.
Proof.
  intros Hs Hr Hk.
  destruct (draw_total s ratio rank Hs Hr (rank this) this out (Nat.le_refl _) Hk)
    as (out' & Hrun & Hw).
  exists (S (rank this)), out'. split; [|split; [exact Hw|reflexivity]].
  intros fuel Hf. apply Hrun. lia.
Qed.

Lemma draw_outlines_unless_ratio_zero_witness :
  exists N out',
    (forall fuel, N <= fuel -> draw fuel family 1 1%float [] = Ok ([] ++ out'))
    /\ Forall (drawn_well family 1 1%float) out'
    /\ Mesh.truthy 1%float = negb (1 =? 0)%float.
Proof.
  apply (draw_outlines_unless_ratio_zero family_rank family 1%N 1%float []).
  - exact family_sound.
  - exact family_ranked.
  - left. apply (bool_decide_unpack _). vm_compute. exact I.
Defined.

Example draw_family :
  draw 2 family 1 1%float []
  = Ok [EvBeforeDraw 1; EvMeshDraw 10 origin 11 true;
        EvBeforeDraw 3; EvMeshDraw 30 origin 31 true; EvAfterDraw 3;
        EvBeforeDraw 2; EvMeshDraw 20 origin 21 true; EvAfterDraw 2;
        EvAfterDraw 1].
Proof. vm_compute. reflexivity. Qed.

End DrawTheory.
